(** * seed-kit / seedcode: tools, retry wrapper and session store

    A shallow embedding of the file-mutation tools (edit.ts, write.ts),
    the read tool (read.ts), the sandboxed command executor (bash.ts),
    the retry wrapper (retry.ts) and the session store (sessions/index.ts),
    together with the properties the specification states about them.

    JavaScript strings are sequences of UTF-16 code units; a code unit is a
    number [N] and a string is a [list N].  File contents are held as
    decoded strings, as [fs.readFileSync(p, 'utf-8')] returns them. *)

From Stdlib Require Import ZArith NArith QArith Qround Qabs Qpower Ascii String List Bool Lia Lqa.
From stdpp Require Import base option list gmap.
From Stdlib Require Import Sorted.

Set Default Proof Using "Type".

(* ===================================================================== *)
(** ** JavaScript strings                                                 *)
(* ===================================================================== *)

Module Js.

(** A UTF-16 code unit and a JavaScript string. *)
Definition char : Type := N.
Abbreviation str := (list N).

(** A string literal of the source, one code unit per ASCII character. *)
Fixpoint u (s : string) : str :=
  match s with
  | EmptyString => []
  | String a s' => N_of_ascii a :: u s'
  end.

Definition str_eqb (a b : str) : bool := bool_decide (a = b).

(** [s.startsWith(p)]. *)
Fixpoint startsWith (s p : str) {struct p} : bool :=
  match p with
  | [] => true
  | c :: p' =>
      match s with
      | [] => false
      | d :: s' => N.eqb c d && startsWith s' p'
      end
  end.

(** [s.includes(p)]: [p] is a prefix of some suffix of [s]. *)
Fixpoint includes (s p : str) : bool :=
  startsWith s p ||
  match s with
  | [] => false
  | _ :: s' => includes s' p
  end.

(** [s.indexOf(p)], [None] for -1. *)
Fixpoint indexOf (s p : str) : option nat :=
  if startsWith s p then Some 0
  else match s with
       | [] => None
       | _ :: s' => S <$> indexOf s' p
       end.

(** [s.slice(a)] and [s.slice(0, b)] for non-negative in-range arguments
    are [drop a s] and [take b s]. *)

(** The loop of [String.prototype.split] for a non-empty separator: [acc]
    is the piece being collected (reversed) and [skip] counts the code
    units of a separator just matched that are still to be passed over. *)
Fixpoint splitLoop (sep s acc : str) (skip : nat) : list str :=
  match s with
  | [] => [rev acc]
  | c :: s' =>
      match skip with
      | S k => splitLoop sep s' acc k
      | O =>
          if startsWith s sep
          then rev acc :: splitLoop sep s' [] (length sep - 1)
          else splitLoop sep s' (c :: acc) 0
      end
  end.

(** [s.split(sep)] with a string separator and no limit.  The empty
    separator splits into single code units (and the empty string into no
    piece at all). *)
Definition split (s sep : str) : list str :=
  match sep with
  | [] => map (fun c => [c]) s
  | _ => splitLoop sep s [] 0
  end.

(** [pieces.join(sep)]. *)
Fixpoint join (sep : str) (pieces : list str) : str :=
  match pieces with
  | [] => []
  | [p] => p
  | p :: rest => p ++ sep ++ join sep rest
  end.

(** The replacement text of [String.prototype.replace] with a string
    pattern (GetSubstitution with no captures): [$$] is a dollar sign,
    [$&] the matched text, [$`] the text before the match and [$'] the text
    after it; any other dollar sign stands for itself. *)
Fixpoint GetSubstitution (matched before after tpl : str) : str :=
  match tpl with
  | [] => []
  | c :: rest =>
      if N.eqb c 36 then
        match rest with
        | [] => [c]
        | d :: r =>
            if N.eqb d 36 then 36%N :: GetSubstitution matched before after r
            else if N.eqb d 38 then matched ++ GetSubstitution matched before after r
            else if N.eqb d 96 then before ++ GetSubstitution matched before after r
            else if N.eqb d 39 then after ++ GetSubstitution matched before after r
            else c :: GetSubstitution matched before after rest
        end
      else c :: GetSubstitution matched before after rest
  end.

(** [s.replace(pattern, replacement)] with a string pattern: the first
    occurrence only. *)
Definition replace (s pattern replacement : str) : str :=
  match indexOf s pattern with
  | None => s
  | Some i =>
      let before := take i s in
      let after := drop (i + length pattern) s in
      before ++ GetSubstitution pattern before after replacement ++ after
  end.

(** Decimal digits of a natural number, as [String(n)] prints it. *)
Fixpoint digitsLoop (fuel : nat) (n : N) (acc : str) : str :=
  match fuel with
  | O => acc
  | S f =>
      let acc' := (48 + n mod 10)%N :: acc in
      if (n <? 10)%N then acc' else digitsLoop f (n / 10)%N acc'
  end.

Definition natToString (n : nat) : str :=
  digitsLoop (S n) (N.of_nat n) [].

Definition intToString (z : Z) : str :=
  if (z <? 0)%Z then 45%N :: natToString (Z.to_nat (- z))
  else natToString (Z.to_nat z).

(** White space and line terminators of ECMAScript ([\s], [trim]). *)
Definition isWhiteSpace (c : char) : bool :=
  existsb (N.eqb c)
    [9; 10; 11; 12; 13; 32; 160; 5760; 8232; 8233; 8239; 8287; 12288; 65279]%N
  || ((8192 <=? c) && (c <=? 8202))%N.

Fixpoint trimStart (s : str) : str :=
  match s with
  | c :: s' => if isWhiteSpace c then trimStart s' else s
  | [] => []
  end.

Definition trim (s : str) : str := rev (trimStart (rev (trimStart s))).

(** Surrogate code units, and [String.prototype.toWellFormed]: a surrogate
    that is not part of a pair becomes U+FFFD.  This is what is left of a
    string that was encoded as UTF-8 and decoded again. *)
Definition isLeadSurrogate (c : char) : bool := ((55296 <=? c) && (c <=? 56319))%N.
Definition isTrailSurrogate (c : char) : bool := ((56320 <=? c) && (c <=? 57343))%N.

Fixpoint toWellFormed (s : str) : str :=
  match s with
  | [] => []
  | c :: s' =>
      if isLeadSurrogate c then
        match s' with
        | d :: s'' =>
            if isTrailSurrogate d then c :: d :: toWellFormed s''
            else 65533%N :: toWellFormed s'
        | [] => [65533%N]
        end
      else if isTrailSurrogate c then 65533%N :: toWellFormed s'
      else c :: toWellFormed s'
  end.

End Js.

Import Js.

(* ===================================================================== *)
(** ** Results and thrown errors                                          *)
(* ===================================================================== *)

(** A call either returns a value or throws an [Error] with a message. *)
Inductive Result (A : Type) : Type :=
  | Ok (a : A)
  | Throw (message : str).
Arguments Ok {A} a.
Arguments Throw {A} message.

(* ===================================================================== *)
(** ** node:path (POSIX)                                                  *)
(* ===================================================================== *)

Module Path.

Definition slash : char := 47%N.
Definition dot : str := [46%N].
Definition dotdot : str := [46%N; 46%N].

(** [normalizeString]: the segments of a path with empty and [.] segments
    dropped and [..] resolved against the segments before it.  [res] is the
    stack of segments kept so far, last one first. *)
Fixpoint normalizeLoop (allowAboveRoot : bool) (segs res : list str) : list str :=
  match segs with
  | [] => rev res
  | seg :: rest =>
      if str_eqb seg [] || str_eqb seg dot then normalizeLoop allowAboveRoot rest res
      else if str_eqb seg dotdot then
        match res with
        | last :: res' =>
            if str_eqb last dotdot
            then normalizeLoop allowAboveRoot rest
                   (if allowAboveRoot then dotdot :: res else res)
            else normalizeLoop allowAboveRoot rest res'
        | [] =>
            normalizeLoop allowAboveRoot rest
              (if allowAboveRoot then [dotdot] else [])
        end
      else normalizeLoop allowAboveRoot rest (seg :: res)
  end.

Definition normalizeString (path : str) (allowAboveRoot : bool) : str :=
  join [slash] (normalizeLoop allowAboveRoot (split path [slash]) []).

Definition isAbsolute (path : str) : bool :=
  match path with
  | c :: _ => N.eqb c slash
  | [] => false
  end.

Definition endsWithSlash (path : str) : bool :=
  match rev path with
  | c :: _ => N.eqb c slash
  | [] => false
  end.

(** [path.normalize(p)]. *)
Definition normalize (path : str) : str :=
  match path with
  | [] => dot
  | _ =>
      let p := normalizeString path (negb (isAbsolute path)) in
      match p with
      | [] =>
          if isAbsolute path then [slash]
          else if endsWithSlash path then dot ++ [slash] else dot
      | _ =>
          let p' := if endsWithSlash path then p ++ [slash] else p in
          if isAbsolute path then slash :: p' else p'
      end
  end.


(** The right-to-left loop of [path.resolve]: [pending] holds the arguments
    still to be taken, last one first, followed by the process working
    directory. *)
Fixpoint resolveLoop (pending : list str) (resolvedPath : str) : str * bool :=
  match pending with
  | [] => (resolvedPath, false)
  | p :: rest =>
      match p with
      | [] => resolveLoop rest resolvedPath
      | _ =>
          let resolvedPath' := p ++ [slash] ++ resolvedPath in
          if isAbsolute p then (resolvedPath', true)
          else resolveLoop rest resolvedPath'
      end
  end.

(** [path.resolve(...args)] in a process whose working directory is
    [processCwd]. *)
Definition resolve (processCwd : str) (args : list str) : str :=
  let '(resolvedPath, resolvedAbsolute) := resolveLoop (rev args ++ [processCwd]) [] in
  let p := normalizeString resolvedPath (negb resolvedAbsolute) in
  if resolvedAbsolute then slash :: p
  else match p with [] => dot | _ => p end.

Fixpoint dropSlashes (s : str) : str :=
  match s with
  | c :: s' => if N.eqb c slash then dropSlashes s' else s
  | [] => []
  end.

Fixpoint dropNonSlashes (s : str) : str :=
  match s with
  | c :: s' => if N.eqb c slash then s else dropNonSlashes s'
  | [] => []
  end.

(** [path.dirname(p)]: scanning from the end and never looking at the first
    code unit, pass the trailing slashes and the last segment; [end] is the
    index of the slash found there. *)
Definition dirname (path : str) : str :=
  match path with
  | [] => dot
  | c0 :: rest =>
      let hasRoot := N.eqb c0 slash in
      match dropNonSlashes (dropSlashes (rev rest)) with
      | [] => if hasRoot then [slash] else dot
      | _ :: before =>
          let end_ := S (length before) in
          if hasRoot && Nat.eqb end_ 1 then [slash; slash]
          else take end_ path
      end
  end.

(** [path.join(...args)]: the non-empty arguments joined by a slash, then
    normalized. *)
Definition join (args : list str) : str :=
  match filter (fun a => a <> []) args with
  | [] => dot
  | parts => normalize (Js.join [slash] parts)
  end.

End Path.

(* ===================================================================== *)
(** ** node:fs                                                            *)
(* ===================================================================== *)

(** The file system maps absolute paths to the contents of regular files;
    every system call that changes it is also recorded, oldest first, in a
    journal.  Permission and disk errors are not modelled. *)
Inductive FsOp : Type :=
  | OpMkdir (dir : str)
  | OpWriteFile (path content : str)
  | OpRename (oldPath newPath : str)
  | OpUnlink (path : str).

Record FsState : Type := mkFs {
  files : gmap str str;
  journal : list FsOp;
}.

Module Fs.

Definition existsSync (st : FsState) (path : str) : bool :=
  bool_decide (is_Some (files st !! path)).

(** [fs.readFileSync(path, 'utf-8')]; throws when there is no such file. *)
Definition readFileSync (st : FsState) (path : str) : Result str :=
  match files st !! path with
  | Some content => Ok content
  | None => Throw (u "ENOENT: no such file or directory, open '" ++ path ++ u "'")
  end.

(** [fs.writeFileSync(path, content, 'utf-8')]: the file then holds the
    UTF-8 encoding of [content], which reads back as [content] made
    well-formed. *)
Definition writeFileSync (path content : str) (st : FsState) : FsState :=
  {| files := <[path := toWellFormed content]> (files st);
     journal := journal st ++ [OpWriteFile path content] |}.

(** [fs.mkdirSync(dir, { recursive: true })]. *)
Definition mkdirSync (dir : str) (st : FsState) : FsState :=
  {| files := files st; journal := journal st ++ [OpMkdir dir] |}.

Definition renameSync (oldPath newPath : str) (st : FsState) : FsState :=
  {| files :=
       match files st !! oldPath with
       | Some content => <[newPath := content]> (delete oldPath (files st))
       | None => files st
       end;
     journal := journal st ++ [OpRename oldPath newPath] |}.

Definition unlinkSync (path : str) (st : FsState) : FsState :=
  {| files := delete path (files st);
     journal := journal st ++ [OpUnlink path] |}.

Definition empty : FsState := {| files := ∅; journal := [] |}.

End Fs.

(* ===================================================================== *)
(** ** Regular expressions                                                *)
(* ===================================================================== *)

(** The regular expressions of the sources use literals, character
    classes, sequence, alternation, the quantifiers [*], [+] and [?], and
    the end-of-input assertion [$].  For such expressions [RegExp.test]
    answers whether some substring of the input belongs to the language of
    the expression; membership is decided by derivatives. *)
Module Regex.

Inductive cls : Type :=
  | CChar (c : char)
  | CRange (lo hi : char)
  | CSpace
  | CDot
  | CAny
  | CNot (k : cls)
  | COr (a b : cls).

Fixpoint cls_mem (k : cls) (c : char) : bool :=
  match k with
  | CChar d => N.eqb c d
  | CRange lo hi => ((lo <=? c) && (c <=? hi))%N
  | CSpace => isWhiteSpace c
  | CDot => negb (existsb (N.eqb c) [10; 13; 8232; 8233]%N)
  | CAny => true
  | CNot k' => negb (cls_mem k' c)
  | COr a b => cls_mem a c || cls_mem b c
  end.

Inductive re : Type :=
  | Fail
  | Eps
  | Eoi
  | Cls (k : cls)
  | Seq (a b : re)
  | Alt (a b : re)
  | Star (a : re).

(** Does the expression match the empty string here?  [atEnd] tells
    whether the position is the end of the input, where [$] holds. *)
Fixpoint nullable (atEnd : bool) (r : re) : bool :=
  match r with
  | Fail => false
  | Eps => true
  | Eoi => atEnd
  | Cls _ => false
  | Seq a b => nullable atEnd a && nullable atEnd b
  | Alt a b => nullable atEnd a || nullable atEnd b
  | Star _ => true
  end.

Definition mkSeq (a b : re) : re :=
  match a with
  | Fail => Fail
  | Eps => b
  | _ => match b with Fail => Fail | _ => Seq a b end
  end.

Definition mkAlt (a b : re) : re :=
  match a with
  | Fail => b
  | _ => match b with Fail => a | _ => Alt a b end
  end.

(** The derivative of an expression by one code unit. *)
Fixpoint deriv (c : char) (r : re) : re :=
  match r with
  | Fail | Eps | Eoi => Fail
  | Cls k => if cls_mem k c then Eps else Fail
  | Seq a b =>
      mkAlt (mkSeq (deriv c a) b)
            (if nullable false a then deriv c b else Fail)
  | Alt a b => mkAlt (deriv c a) (deriv c b)
  | Star a => mkSeq (deriv c a) (Star a)
  end.

(** The whole input belongs to the language of the expression. *)
Fixpoint matches (r : re) (s : str) : bool :=
  match s with
  | [] => nullable true r
  | c :: s' => matches (deriv c r) s'
  end.

(** [r.test(s)] for an expression without the [g] or [y] flag. *)
Definition test (r : re) (s : str) : bool :=
  matches (Seq (Star (Cls CAny)) (Seq r (Star (Cls CAny)))) s.

Fixpoint lit (s : string) : re :=
  match s with
  | EmptyString => Eps
  | String a EmptyString => Cls (CChar (N_of_ascii a))
  | String a s' => Seq (Cls (CChar (N_of_ascii a))) (lit s')
  end.

Definition plus (r : re) : re := Seq r (Star r).
Definition opt (r : re) : re := Alt r Eps.

Fixpoint seqs (rs : list re) : re :=
  match rs with
  | [] => Eps
  | [r] => r
  | r :: rs' => Seq r (seqs rs')
  end.

Definition ws : re := Cls CSpace.

End Regex.

(* ===================================================================== *)
(** ** The runtime the tools run in                                       *)
(* ===================================================================== *)

(** What [execSync] does with a command: it returns the standard output,
    or throws an error object of which [runBash] reads four optional
    fields and the string conversion. *)
Inductive ExecOutcome : Type :=
  | ExecReturns (stdout : str)
  | ExecThrows (stdout stderr : option str) (status : option Z)
               (message : option str) (asString : str).

Record Runtime : Type := mkRuntime {
  processCwd : str;                          (* process.cwd() *)
  homedir : str;                             (* os.homedir() *)
  execSync : str -> str -> ExecOutcome;      (* command, cwd *)
  toLowerCase : str -> str;                  (* String.prototype.toLowerCase *)
  localeCompare : str -> str -> Z;           (* a.localeCompare(b) *)
}.

(* ===================================================================== *)
(** ** tools/bash.ts                                                      *)
(* ===================================================================== *)

Record BashResult : Type := mkBashResult {
  stdout : str;
  stderr : str;
  exitCode : Z;
}.

(** A process handed to the operating system. *)
Record Spawn : Type := mkSpawn {
  spawnCommand : str;
  spawnCwd : str;
}.

Module Bash.

Import Regex.

Definition DENYLIST_PATTERNS : list re := [
  (* /rm\s+-rf\s+\/(?:\s|$)/ *)
  seqs [lit "rm"; plus ws; lit "-rf"; plus ws; lit "/"; Alt ws Eoi];
  (* /rm\s+-rf\s+~(?:\s|$)/ *)
  seqs [lit "rm"; plus ws; lit "-rf"; plus ws; lit "~"; Alt ws Eoi];
  (* /rm\s+-rf\s+\$HOME(?:\s|$)/ *)
  seqs [lit "rm"; plus ws; lit "-rf"; plus ws; lit "$HOME"; Alt ws Eoi];
  (* /curl[^|]+\|\s*(?:ba)?sh/ *)
  seqs [lit "curl"; plus (Cls (CNot (CChar 124%N))); lit "|"; Star ws; opt (lit "ba"); lit "sh"];
  (* /wget[^|]+\|\s*(?:ba)?sh/ *)
  seqs [lit "wget"; plus (Cls (CNot (CChar 124%N))); lit "|"; Star ws; opt (lit "ba"); lit "sh"];
  (* /:\s*\(\s*\)\s*\{.*:\|:&?\s*\}.*:/  fork bomb *)
  seqs [lit ":"; Star ws; lit "("; Star ws; lit ")"; Star ws; lit "{"; Star (Cls CDot);
        lit ":|:"; opt (lit "&"); Star ws; lit "}"; Star (Cls CDot); lit ":"];
  (* />\s*\/dev\/sd[a-z]/ *)
  seqs [lit ">"; Star ws; lit "/dev/sd"; Cls (CRange 97%N 122%N)];
  (* /mkfs\./ *)
  lit "mkfs.";
  (* /dd\s+if=.+of=\/dev\// *)
  seqs [lit "dd"; plus ws; lit "if="; plus (Cls CDot); lit "of=/dev/"]
].

(** The denylist loop: the first pattern that matches throws. *)
Definition checkDenylist (command : str) : Result unit :=
  if existsb (fun pattern => test pattern command) DENYLIST_PATTERNS
  then Throw (u "Command blocked by security policy: " ++ command)
  else Ok tt.

(** The class [[^\s;&|]] of [cdPattern]. *)
Definition isTargetChar (c : char) : bool :=
  negb (isWhiteSpace c || N.eqb c 59 || N.eqb c 38 || N.eqb c 124).

Fixpoint spanWhile (f : char -> bool) (s : str) : str * str :=
  match s with
  | c :: s' =>
      if f c then let '(a, b) := spanWhile f s' in (c :: a, b) else ([], s)
  | [] => ([], [])
  end.

(** [/cd\s+([^\s;&|]+)/] tried at the start of [s]: the letters [cd], the
    longest run of white space (at least one), then the longest run of
    target characters (at least one; giving white space back to the first
    quantifier cannot help, a white space is no target character).
    Returns the captured target and the length of the whole match. *)
Definition cdMatchHere (s : str) : option (str * nat) :=
  match s with
  | 99%N :: 100%N :: rest =>
      let '(spaces, rest') := spanWhile isWhiteSpace rest in
      let '(target, _) := spanWhile isTargetChar rest' in
      match spaces, target with
      | _ :: _, _ :: _ => Some (target, 2 + length spaces + length target)
      | _, _ => None
      end
  | _ => None
  end.

(** The successive matches of [cdPattern.exec(command)] (flag [g]): each
    search starts where the previous match ended. *)
Fixpoint cdTargets (s : str) (skip : nat) : list str :=
  match s with
  | [] => []
  | _ :: s' =>
      match skip with
      | S k => cdTargets s' k
      | O =>
          match cdMatchHere s with
          | Some (target, len) => target :: cdTargets s' (len - 1)
          | None => cdTargets s' 0
          end
      end
  end.

(** Layer 2: the first [cd] target that resolves outside [baseCwd]. *)
Definition cwdEscape (rt : Runtime) (baseCwd command : str) : option str :=
  List.find
    (fun targetDir =>
       negb (startsWith (Path.resolve (processCwd rt) [baseCwd; targetDir]) baseCwd))
    (cdTargets command 0).

(** The [try]/[catch] around [execSync]. *)
Definition execute (rt : Runtime) (command baseCwd : str) : BashResult :=
  match execSync rt command baseCwd with
  | ExecReturns out => {| stdout := out; stderr := []; exitCode := 0 |}
  | ExecThrows eout eerr status message asString =>
      {| stdout := default [] eout;
         stderr := match eerr with
                   | Some e => e
                   | None => default asString message
                   end;
         exitCode := default 1%Z status |}
  end.

(** [runBash(command, cwd)] of tools/bash.ts: the result or the thrown
    error, and the processes spawned on the way. *)
Definition runBash (rt : Runtime) (command : str) (cwd : option str)
  : Result BashResult * list Spawn :=
  let baseCwd := default (processCwd rt) cwd in
  match checkDenylist command with
  | Throw msg => (Throw msg, [])
  | Ok _ =>
      match cwdEscape rt baseCwd command with
      | Some targetDir =>
          (Throw (u "Directory escape blocked: cd to '" ++ targetDir ++
                  u "' would leave the working directory."), [])
      | None =>
          (Ok (execute rt command baseCwd), [mkSpawn command baseCwd])
      end
  end.

End Bash.

(** The bash tool with output truncation (the module that also exports
    [truncateBashOutput] and [runBashAsync]). *)
Module BashTool.

Definition TRUNCATE_HEAD : nat := 100.
Definition TRUNCATE_TAIL : nat := 50.

Definition newline : str := [10%N].

(** [truncateBashOutput(output)]. *)
Definition truncateBashOutput (output : str) : str :=
  match output with
  | [] => output
  | _ =>
      let lines := split output newline in
      let total := length lines in
      if total <=? TRUNCATE_HEAD + TRUNCATE_TAIL then output
      else
        let dropped := total - TRUNCATE_HEAD - TRUNCATE_TAIL in
        join newline
          (take TRUNCATE_HEAD lines
           ++ [u "... " ++ natToString dropped ++ u " lines truncated ..."]
           ++ drop (total - TRUNCATE_TAIL) lines)
  end.

Definition checkDenylist (command : str) : Result unit :=
  Bash.checkDenylist command.

(** The synchronous [runBash] of this module: the denylist only. *)
Definition runBash (rt : Runtime) (command : str) (cwd : option str)
  : Result BashResult * list Spawn :=
  let baseCwd := default (processCwd rt) cwd in
  match checkDenylist command with
  | Throw msg => (Throw msg, [])
  | Ok _ => (Ok (Bash.execute rt command baseCwd), [mkSpawn command baseCwd])
  end.

Definition TIMEOUT_MS : Z := 30000.
Definition MAX_BUFFER : N := 10 * 1024 * 1024.

(** A chunk of output of the child process: [chunk.length] bytes, decoded
    by [chunk.toString('utf-8')]. *)
Record Buffer : Type := mkBuffer {
  byteLength : N;
  toString : str;
}.

(** What happens after [spawn], in the order in which the callbacks of
    [runBashAsync] run. *)
Inductive ChildEvent : Type :=
  | StdoutData (chunk : Buffer)
  | StderrData (chunk : Buffer)
  | SignalAbort
  | TimerFires
  | Close (code : option Z)
  | ChildError (message : str).

(** The variables of one call of [runBashAsync]: the two collected
    outputs and their byte counts, [killed], [signal.aborted], whether the
    [abort] listener and the timer are still set, the calls of
    [child.kill('SIGTERM')] made so far, and the value the promise has been
    resolved with. *)
Record Child : Type := mkChild {
  childStdout : str;
  childStderr : str;
  stdoutLen : N;
  stderrLen : N;
  killed : bool;
  signalAborted : bool;
  abortListener : bool;
  timer : bool;
  kills : nat;
  resolved : option BashResult;
}.

Definition spawned (hasSignal : bool) : Child :=
  {| childStdout := []; childStderr := []; stdoutLen := 0; stderrLen := 0;
     killed := false; signalAborted := false;
     abortListener := hasSignal; timer := true; kills := 0; resolved := None |}.

(** [if (!killed) { killed = true; child.kill('SIGTERM'); }]. *)
Definition killOnce (c : Child) : Child :=
  if killed c then c
  else {| childStdout := childStdout c; childStderr := childStderr c;
          stdoutLen := stdoutLen c; stderrLen := stderrLen c;
          killed := true; signalAborted := signalAborted c;
          abortListener := abortListener c; timer := timer c;
          kills := S (kills c); resolved := resolved c |}.

(** [cleanup()] and then [resolve(result)]; a promise keeps the first
    value it is resolved with. *)
Definition settle (c : Child) (result : BashResult) : Child :=
  {| childStdout := childStdout c; childStderr := childStderr c;
     stdoutLen := stdoutLen c; stderrLen := stderrLen c;
     killed := killed c; signalAborted := signalAborted c;
     abortListener := false; timer := false;
     kills := kills c;
     resolved := match resolved c with
                 | Some first => Some first
                 | None => Some result
                 end |}.

(** One callback. *)
Definition handle (hasSignal : bool) (c : Child) (ev : ChildEvent) : Child :=
  match ev with
  | StdoutData chunk =>
      let len := (stdoutLen c + byteLength chunk)%N in
      {| childStdout :=
           if (len <=? MAX_BUFFER)%N then childStdout c ++ toString chunk
           else childStdout c;
         childStderr := childStderr c;
         stdoutLen := len; stderrLen := stderrLen c;
         killed := killed c; signalAborted := signalAborted c;
         abortListener := abortListener c; timer := timer c;
         kills := kills c; resolved := resolved c |}
  | StderrData chunk =>
      let len := (stderrLen c + byteLength chunk)%N in
      {| childStdout := childStdout c;
         childStderr :=
           if (len <=? MAX_BUFFER)%N then childStderr c ++ toString chunk
           else childStderr c;
         stdoutLen := stdoutLen c; stderrLen := len;
         killed := killed c; signalAborted := signalAborted c;
         abortListener := abortListener c; timer := timer c;
         kills := kills c; resolved := resolved c |}
  | SignalAbort =>
      if hasSignal then
        let c' :=
          {| childStdout := childStdout c; childStderr := childStderr c;
             stdoutLen := stdoutLen c; stderrLen := stderrLen c;
             killed := killed c; signalAborted := true;
             abortListener := false; timer := timer c;
             kills := kills c; resolved := resolved c |} in
        if abortListener c then killOnce c' else c'
      else c
  | TimerFires =>
      if timer c then
        killOnce
          {| childStdout := childStdout c; childStderr := childStderr c;
             stdoutLen := stdoutLen c; stderrLen := stderrLen c;
             killed := killed c; signalAborted := signalAborted c;
             abortListener := abortListener c; timer := false;
             kills := kills c; resolved := resolved c |}
      else c
  | Close code =>
      settle c
        {| stdout := childStdout c;
           stderr :=
             if killed c && signalAborted c
             then match childStderr c with
                  | [] => u "Aborted"
                  | _ => childStderr c
                  end
             else childStderr c;
           exitCode :=
             match code with
             | Some n => n
             | None => if killed c then 130%Z else 1%Z
             end |}
  | ChildError message =>
      settle c {| stdout := []; stderr := message; exitCode := 1 |}
  end.

(** What a call of [runBashAsync] comes to: the value of the promise
    ([None] while it is pending), the processes spawned and the number of
    signals sent to the child. *)
Record AsyncRun : Type := mkAsyncRun {
  promise : option BashResult;
  spawns : list Spawn;
  signalsSent : nat;
}.

(** [runBashAsync(command, cwd, signal)]: [signal] is [None] without an
    [AbortSignal] and otherwise tells whether it is aborted at the call;
    [events] is what happens to the child afterwards. *)
Definition runBashAsync (rt : Runtime) (command : str) (cwd : option str)
    (signal : option bool) (events : list ChildEvent) : Result AsyncRun :=
  let baseCwd := default (processCwd rt) cwd in
  match checkDenylist command with
  | Throw msg => Throw msg
  | Ok _ =>
      if default false signal
      then Ok {| promise := Some {| stdout := []; stderr := u "Aborted"; exitCode := 130 |};
                 spawns := []; signalsSent := 0 |}
      else
        let c := fold_left (handle (bool_decide (is_Some signal))) events
                   (spawned (bool_decide (is_Some signal))) in
        Ok {| promise := resolved c;
              spawns := [mkSpawn command baseCwd];
              signalsSent := kills c |}
  end.

End BashTool.

(* ===================================================================== *)
(** ** tools/edit.ts                                                      *)
(* ===================================================================== *)

Module Edit.

Record EditDiff : Type := mkEditDiff {
  removedLines : list str;
  addedLines : list str;
}.

(** [EditResult | EditError]. *)
Inductive EditOutcome : Type :=
  | EditResult (message : str) (diff : EditDiff)
  | EditError (error : str).

(** [content.split(oldString).length - 1]. *)
Definition occurrences (content oldString : str) : Z :=
  Z.of_nat (length (split content oldString)) - 1.

(** [computeEditDiff(filePath, oldString, newString)]. *)
Definition computeEditDiff (rt : Runtime) (st : FsState)
    (filePath oldString newString : str) : EditDiff + str :=
  let abs := Path.resolve (processCwd rt) [filePath] in
  match files st !! abs with
  | None => inr (u "File not found: " ++ filePath)
  | Some content =>
      let n := occurrences content oldString in
      if (n =? 0)%Z then inr (u "old_string not found in " ++ filePath)
      else if (1 <? n)%Z then
        inr (u "old_string matches " ++ intToString n ++ u " locations in "
             ++ filePath ++ [32; 8212; 32]%N
             ++ u "must match exactly once. Add more context around the target section.")
      else inl {| removedLines := split oldString [10%N];
                  addedLines := split newString [10%N] |}
  end.

(** [applyEdit(filePath, oldString, newString)]: the value returned and the
    file system afterwards. *)
Definition applyEdit (rt : Runtime) (filePath oldString newString : str)
    (st : FsState) : EditOutcome * FsState :=
  let abs := Path.resolve (processCwd rt) [filePath] in
  match files st !! abs with
  | None => (EditError (u "File not found: " ++ filePath), st)
  | Some content =>
      let n := occurrences content oldString in
      if negb (n =? 1)%Z then
        (EditError (u "Patch cannot be applied: old_string matches "
                    ++ intToString n ++ u " location(s)."), st)
      else
        let newContent := replace content oldString newString in
        let st' := Fs.writeFileSync abs newContent st in
        let removed := length (split oldString [10%N]) in
        let added := length (split newString [10%N]) in
        (EditResult
           (u "Edited " ++ filePath ++ u " (+" ++ natToString added
            ++ u " / -" ++ natToString removed ++ u " lines)")
           {| removedLines := split oldString [10%N];
              addedLines := split newString [10%N] |},
         st')
  end.

End Edit.

(* ===================================================================== *)
(** ** tools/write.ts                                                     *)
(* ===================================================================== *)

Module Write.

Record WriteDiff : Type := mkWriteDiff {
  added : nat;
  removed : nat;
  oldContent : option str;
}.

(** [computeDiff(filePath, newContent)]: lines of one side that the other
    side does not have at all. *)
Definition computeDiff (rt : Runtime) (st : FsState) (filePath newContent : str)
  : WriteDiff :=
  let abs := Path.resolve (processCwd rt) [filePath] in
  match files st !! abs with
  | None =>
      {| added := length (split newContent [10%N]); removed := 0; oldContent := None |}
  | Some old =>
      let oldLines := split old [10%N] in
      let newLines := split newContent [10%N] in
      {| added := length (filter (fun l => l ∉ oldLines) newLines);
         removed := length (filter (fun l => l ∉ newLines) oldLines);
         oldContent := Some old |}
  end.

(** [writeFile(filePath, content)]. *)
Definition writeFile (rt : Runtime) (filePath content : str) (st : FsState)
  : FsState :=
  let abs := Path.resolve (processCwd rt) [filePath] in
  let dir := Path.dirname abs in
  Fs.writeFileSync abs content (Fs.mkdirSync dir st).

End Write.

(* ===================================================================== *)
(** ** tools/read.ts                                                      *)
(* ===================================================================== *)

Module Read.

Definition DENY_LIST : list str :=
  [u "**/.ssh/**"; u "**/.aws/**"; u "**/.config/**"; u "**/.env*"].

(** *** minimatch

    The matcher of the [minimatch] package for the patterns above and the
    option [dot: true]: path and pattern are compared segment by segment;
    within a segment [*] stands for any run of code units, and a segment
    [**] stands for any number of path segments other than [.] and [..]. *)
Inductive Part : Type :=
  | GlobStar
  | Segment (glob : str).

Definition parsePart (seg : str) : Part :=
  if str_eqb seg (u "**") then GlobStar else Segment seg.

Fixpoint segMatch (glob seg : str) : bool :=
  match glob with
  | [] => match seg with [] => true | _ => false end
  | c :: glob' =>
      if N.eqb c 42 then
        (fix star (seg : str) : bool :=
           segMatch glob' seg ||
           match seg with
           | [] => false
           | _ :: seg' => star seg'
           end) seg
      else
        match seg with
        | d :: seg' => N.eqb c d && segMatch glob' seg'
        | [] => false
        end
  end.

Definition isDots (seg : str) : bool :=
  str_eqb seg Path.dot || str_eqb seg Path.dotdot.

(** [matchOne(file, pattern)]. *)
Fixpoint matchOne (pattern : list Part) (file : list str) : bool :=
  match pattern with
  | [] =>
      match file with
      | [] => true
      | [f] => str_eqb f []
      | _ => false
      end
  | GlobStar :: rest =>
      match file, rest with
      | [], _ => false
      | _, [] => forallb (fun f => negb (isDots f)) file
      | _, _ =>
          (fix swallow (file : list str) : bool :=
             match file with
             | [] => false
             | f :: file' =>
                 matchOne rest file || (negb (isDots f) && swallow file')
             end) file
      end
  | Segment glob :: rest =>
      match file with
      | [] => false
      | f :: file' => segMatch glob f && matchOne rest file'
      end
  end.

(** [path.split(/\/+/)]: runs of slashes separate the segments, so an
    empty segment can only come first or last. *)
Fixpoint dropInnerEmpty (segs : list str) : list str :=
  match segs with
  | [] => []
  | [a] => [a]
  | a :: rest =>
      match a with
      | [] => dropInnerEmpty rest
      | _ => a :: dropInnerEmpty rest
      end
  end.

Definition splitSlashes (path : str) : list str :=
  match split path [Path.slash] with
  | [] => []
  | first :: rest => first :: dropInnerEmpty rest
  end.

Definition minimatch (path pattern : str) : bool :=
  matchOne (map parsePart (split pattern [Path.slash])) (splitSlashes path).

(** [isDenied(filePath)]. *)
Definition isDenied (rt : Runtime) (filePath : str) : bool :=
  let home := homedir rt in
  let abs := Path.resolve (processCwd rt) [filePath] in
  let rel := if startsWith abs home then drop (length home + 1) abs else abs in
  existsb (fun pattern => minimatch rel pattern) DENY_LIST.

Definition LARGE_FILE_WARN_LINES : nat := 500.

Record ReadResult : Type := mkReadResult {
  content : str;
  lineCount : nat;
  warning : option str;
}.

(** [readFile(filePath)].  Only regular files are part of the file system
    state, so the [stat.isFile()] test holds whenever the path exists. *)
Definition readFile (rt : Runtime) (st : FsState) (filePath : str)
  : Result ReadResult :=
  let abs := Path.resolve (processCwd rt) [filePath] in
  if isDenied rt abs then
    Throw (u "Access denied: " ++ filePath ++ u " is in the restricted path list.")
  else
    match files st !! abs with
    | None => Throw (u "File not found: " ++ filePath)
    | Some text =>
        let n := length (split text [10%N]) in
        Ok {| content := text;
              lineCount := n;
              warning :=
                if LARGE_FILE_WARN_LINES <? n
                then Some (u "Large file: " ++ natToString n ++
                           u " lines. Consider reading a specific line range if you only need part of it.")
                else None |}
    end.

End Read.

(* ===================================================================== *)
(** ** tools/index.ts                                                     *)
(* ===================================================================== *)

Module Tools.

Inductive ToolName : Type :=
  | TRead | TEdit | TWrite | TGlob | TGrep | TBash | TWebSearch | TWebFetch.

(** What the confirmation callback is shown.  Its [resolve] function is
    the answer of the user, which the options below give as the value of
    [confirm]. *)
Record PendingConfirm : Type := mkPendingConfirm {
  toolName : ToolName;
  description : str;
  diffLines : option (list str * list str);
}.

Record Options : Type := mkOptions {
  cwd : str;
  confirm : PendingConfirm -> bool;
  skipConfirm : bool;
}.

(** A tool returns its data or a [ToolError]. *)
Inductive ToolOutput (A : Type) : Type :=
  | ToolData (a : A)
  | ToolError (error : str).
Arguments ToolData {A} a.
Arguments ToolError {A} error.

Definition requestConfirm (opts : Options) (name : ToolName) (descr : str)
    (diff : option (list str * list str)) : bool :=
  if skipConfirm opts then true
  else confirm opts {| toolName := name; description := descr; diffLines := diff |}.

(** The [execute] function of the [read] tool. *)
Definition read (opts : Options) (rt : Runtime) (st : FsState) (filePath : str)
  : ToolOutput Read.ReadResult :=
  match Read.readFile rt st filePath with
  | Ok r => ToolData r
  | Throw message => ToolError message
  end.

(** The [execute] function of the [bash] tool. *)
Definition bash (opts : Options) (rt : Runtime) (command : str)
  : ToolOutput BashResult * list Spawn :=
  if requestConfirm opts TBash (u "Run shell command: " ++ command) None then
    match Bash.runBash rt command (Some (cwd opts)) with
    | (Ok r, spawned) => (ToolData r, spawned)
    | (Throw message, spawned) => (ToolError message, spawned)
    end
  else (ToolError (u "User denied bash execution."), []).

(** The [execute] function of the [edit] tool: what it returns (the
    message on success) and the file system afterwards. *)
Definition edit (opts : Options) (rt : Runtime) (filePath old_string new_string : str)
    (st : FsState) : ToolOutput str * FsState :=
  match Edit.computeEditDiff rt st filePath old_string new_string with
  | inr error => (ToolError error, st)
  | inl diff =>
      if requestConfirm opts TEdit (u "Edit " ++ filePath)
           (Some (Edit.removedLines diff, Edit.addedLines diff))
      then
        match Edit.applyEdit rt filePath old_string new_string st with
        | (Edit.EditError error, st') => (ToolError error, st')
        | (Edit.EditResult message _, st') => (ToolData message, st')
        end
      else (ToolError (u "User denied edit operation."), st)
  end.


End Tools.

(* ===================================================================== *)
(** ** utils/retry.ts                                                     *)
(* ===================================================================== *)

(** A thrown value: an [Error] with its message, or anything else with its
    string conversion. *)
Inductive Thrown : Type :=
  | ThrownError (message : str)
  | ThrownOther (asString : str).

(** How a promise settles. *)
Inductive Settled (T : Type) : Type :=
  | Resolved (value : T)
  | Rejected (err : Thrown).
Arguments Resolved {T} value.
Arguments Rejected {T} err.

(** JavaScript numbers are IEEE 754 binary64 values.  A finite one is a
    rational [m * 2^e] with [|m| < 2^53] and [-1074 <= e]; the result of an
    operation is the exact result rounded to the nearest such value, ties
    to the even [m].  Overflow to [Infinity] is not modelled: the values
    computed below stay far under [2^1024]. *)
Module Double.

(** [floor (log2 |q|)] of a [q] that is not zero. *)
Definition ilog2 (q : Q) : Z :=
  let e := (Z.log2 (Z.abs (Qnum q)) - Z.log2 (Zpos (Qden q)))%Z in
  if Qle_bool (2 ^ e) (Qabs q) then e else (e - 1)%Z.

(** The exponent of the unit in the last place of the doubles around [q]:
    53 significant bits, and [2^-1074] among the subnormal ones. *)
Definition exponent (q : Q) : Z := Z.max (ilog2 q - 52) (-1074).

(** The nearest integer, ties to the even one. *)
Definition nearestEven (q : Q) : Z :=
  let f := Qfloor q in
  match Qcompare (q - inject_Z f) (1 # 2) with
  | Lt => f
  | Gt => (f + 1)%Z
  | Eq => if Z.even f then f else (f + 1)%Z
  end.

(** The double nearest to [q]. *)
Definition round (q : Q) : Q :=
  let e := exponent q in
  Qred (inject_Z (nearestEven (q / 2 ^ e)) * 2 ^ e).

(** [x + y], [x - y] and [x * y] on doubles. *)
Definition add (x y : Q) : Q := round (x + y).
Definition sub (x y : Q) : Q := round (x - y).
Definition mul (x y : Q) : Q := round (x * y).

End Double.

Module Retry.

Definition BASE_DELAY_MS : Z := 1000.
Definition MAX_ATTEMPTS : nat := 3.

Inductive ErrorClass : Type := rate_limit | network | auth | unknown.

(** [classifyError(err)]. *)
Definition classifyError (rt : Runtime) (err : Thrown) : ErrorClass :=
  let msg := match err with ThrownError m => m | ThrownOther s => s end in
  let lower := toLowerCase rt msg in
  if includes lower (u "401") || includes lower (u "invalid api key")
     || includes lower (u "unauthorized") then auth
  else if includes lower (u "429") || includes lower (u "rate limit")
     || includes lower (u "too many requests") then rate_limit
  else if includes lower (u "503") || includes lower (u "service unavailable")
  then network
  else if includes lower (u "network") || includes lower (u "econnrefused")
     || includes lower (u "econnreset") || includes lower (u "etimedout")
     || includes lower (u "fetch failed") || includes lower (u "socket hang up")
  then network
  else unknown.

(** [isRetryable(err)]. *)
Definition isRetryable (rt : Runtime) (err : Thrown) : bool :=
  match classifyError rt err with
  | rate_limit | network => true
  | auth | unknown => false
  end.

(** What one call of [withRetry] meets: how the [n]-th call of [fn]
    settles, the number [Math.random()] yields during attempt [n], and
    whether the signal is aborted when the [catch] block of attempt [n]
    looks at it (always [false] without a signal).  The number is the
    double [Math.random()] returns, given as the rational it denotes. *)
Record World (T : Type) : Type := mkWorld {
  fn : nat -> Settled T;
  random : nat -> Q;
  aborted : nat -> bool;
}.
Arguments fn {T} w n.
Arguments random {T} w n.
Arguments aborted {T} w n.

(** What the call does: how the promise settles, how often [fn] was
    called, the calls of [onRetry] in order and the delays slept. *)
Record Run (T : Type) : Type := mkRun {
  settled : Settled T;
  calls : nat;
  retries : list (nat * Z * Thrown);
  slept : list Z;
}.
Arguments settled {T} r.
Arguments calls {T} r.
Arguments retries {T} r.
Arguments slept {T} r.

(** [Math.round]: the nearest integer, halves upwards. *)
Definition round (x : Q) : Z := Qfloor (x + (1 # 2))%Q.

(** [BASE_DELAY_MS * Math.pow(2, attempt - 1)]. *)
Definition baseDelay (attempt : nat) : Z :=
  BASE_DELAY_MS * 2 ^ (Z.of_nat attempt - 1).

(** [Math.round(base + base * 0.25 * (Math.random() * 2 - 1))], each
    operation rounded to a double in the order JavaScript evaluates them:
    [jitter = (base * 0.25) * ((Math.random() * 2) - 1)], then
    [base + jitter]. *)
Definition jittered (base : Z) (rnd : Q) : Z :=
  let jitter :=
    Double.mul (Double.mul (inject_Z base) (1 # 4))
               (Double.sub (Double.mul rnd 2) 1) in
  round (Double.add (inject_Z base) jitter).

(** The [for] loop of [withRetry]: [remaining] iterations are left before
    [attempt] exceeds [MAX_ATTEMPTS]. *)
Fixpoint retryLoop {T} (rt : Runtime) (w : World T) (remaining attempt : nat)
    (lastErr : option Thrown) : Run T :=
  match remaining with
  | O =>
      {| settled := Rejected (default (ThrownOther (u "undefined")) lastErr);
         calls := 0; retries := []; slept := [] |}
  | S remaining' =>
      match fn w attempt with
      | Resolved v =>
          {| settled := Resolved v; calls := 1; retries := []; slept := [] |}
      | Rejected err =>
          if negb (isRetryable rt err) || Nat.eqb attempt MAX_ATTEMPTS
             || aborted w attempt
          then {| settled := Rejected err; calls := 1; retries := []; slept := [] |}
          else
            let base := baseDelay attempt in
            let delay := jittered base (random w attempt) in
            let rest := retryLoop rt w remaining' (S attempt) (Some err) in
            {| settled := settled rest;
               calls := S (calls rest);
               retries := (attempt, delay, err) :: retries rest;
               slept := delay :: slept rest |}
      end
  end.

(** [withRetry(fn, onRetry, signal)]. *)
Definition withRetry {T} (rt : Runtime) (w : World T) : Run T :=
  retryLoop rt w MAX_ATTEMPTS 1 None.

End Retry.

(* ===================================================================== *)
(** ** JSON                                                               *)
(* ===================================================================== *)

(** JSON values, [JSON.stringify] and [JSON.parse].  Numbers are the
    integers; the fields of an object are kept in order. *)
Module Json.

#[local] Unset Elimination Schemes.
Inductive json : Type :=
  | JNull
  | JBool (b : bool)
  | JNumber (n : Z)
  | JString (s : str)
  | JArray (items : list json)
  | JObject (fields : list (str * json)).
#[local] Set Elimination Schemes.

(** [o.key] on a value: the last field of that name, [None] for
    [undefined]. *)
Definition getField (key : str) (j : json) : option json :=
  match j with
  | JObject fields =>
      snd <$> List.find (fun kv => str_eqb (fst kv) key) (rev fields)
  | _ => None
  end.

Definition hexDigit (n : N) : char :=
  if (n <? 10)%N then (48 + n)%N else (87 + n)%N.

(** The escape [\uXXXX] of a code unit. *)
Definition unicodeEscape (c : char) : str :=
  [92; 117; hexDigit ((c / 4096) mod 16); hexDigit ((c / 256) mod 16);
   hexDigit ((c / 16) mod 16); hexDigit (c mod 16)]%N.

Definition isHighSurrogate (c : char) : bool := ((55296 <=? c) && (c <=? 56319))%N.
Definition isLowSurrogate (c : char) : bool := ((56320 <=? c) && (c <=? 57343))%N.

(** QuoteJSONString, without the surrounding quotes. *)
Fixpoint quoteLoop (s : str) : str :=
  match s with
  | [] => []
  | c :: s' =>
      if N.eqb c 8 then [92; 98]%N ++ quoteLoop s'
      else if N.eqb c 9 then [92; 116]%N ++ quoteLoop s'
      else if N.eqb c 10 then [92; 110]%N ++ quoteLoop s'
      else if N.eqb c 12 then [92; 102]%N ++ quoteLoop s'
      else if N.eqb c 13 then [92; 114]%N ++ quoteLoop s'
      else if N.eqb c 34 then [92; 34]%N ++ quoteLoop s'
      else if N.eqb c 92 then [92; 92]%N ++ quoteLoop s'
      else if (c <? 32)%N then unicodeEscape c ++ quoteLoop s'
      else if isHighSurrogate c then
        match s' with
        | d :: s'' =>
            if isLowSurrogate d then c :: d :: quoteLoop s''
            else unicodeEscape c ++ quoteLoop s'
        | [] => unicodeEscape c
        end
      else if isLowSurrogate c then unicodeEscape c ++ quoteLoop s'
      else c :: quoteLoop s'
  end.

Definition quote (s : str) : str := 34%N :: quoteLoop s ++ [34%N].

(** [JSON.stringify(value)]. *)
Fixpoint stringify (j : json) : str :=
  match j with
  | JNull => u "null"
  | JBool true => u "true"
  | JBool false => u "false"
  | JNumber n => intToString n
  | JString s => quote s
  | JArray items => u "[" ++ join (u ",") (map stringify items) ++ u "]"
  | JObject fields =>
      u "{"
      ++ join (u ",") (map (fun kv => quote (fst kv) ++ u ":" ++ stringify (snd kv)) fields)
      ++ u "}"
  end.

(** [JSON.stringify(value, null, 2)]: [indent] is the indentation of the
    line the value starts on. *)
Fixpoint stringifyIndent (indent : str) (j : json) : str :=
  let inner := indent ++ u "  " in
  let sep := u "," ++ [10%N] ++ inner in
  match j with
  | JArray [] => u "[]"
  | JArray items =>
      u "[" ++ [10%N] ++ inner
      ++ join sep (map (stringifyIndent inner) items)
      ++ [10%N] ++ indent ++ u "]"
  | JObject [] => u "{}"
  | JObject fields =>
      u "{" ++ [10%N] ++ inner
      ++ join sep (map (fun kv => quote (fst kv) ++ u ": " ++ stringifyIndent inner (snd kv)) fields)
      ++ [10%N] ++ indent ++ u "}"
  | _ => stringify j
  end.

Definition isJsonSpace (c : char) : bool :=
  N.eqb c 32 || N.eqb c 9 || N.eqb c 10 || N.eqb c 13.

Fixpoint skipWs (s : str) : str :=
  match s with
  | c :: s' => if isJsonSpace c then skipWs s' else s
  | [] => []
  end.

Definition hexValue (c : char) : option N :=
  if ((48 <=? c) && (c <=? 57))%N then Some (c - 48)%N
  else if ((97 <=? c) && (c <=? 102))%N then Some (c - 87)%N
  else if ((65 <=? c) && (c <=? 70))%N then Some (c - 55)%N
  else None.

Definition simpleEscape (c : char) : option char :=
  if N.eqb c 34 then Some 34%N
  else if N.eqb c 92 then Some 92%N
  else if N.eqb c 47 then Some 47%N
  else if N.eqb c 98 then Some 8%N
  else if N.eqb c 102 then Some 12%N
  else if N.eqb c 110 then Some 10%N
  else if N.eqb c 114 then Some 13%N
  else if N.eqb c 116 then Some 9%N
  else None.

Definition consFst {A} (c : char) (r : option (str * A)) : option (str * A) :=
  match r with
  | Some (x, rest) => Some (c :: x, rest)
  | None => None
  end.

(** The characters of a string token after its opening quote: the string
    denoted and the input after the closing quote. *)
Fixpoint parseChars (s : str) : option (str * str) :=
  match s with
  | [] => None
  | c :: s' =>
      if N.eqb c 34 then Some ([], s')
      else if N.eqb c 92 then
        match s' with
        | [] => None
        | e :: s'' =>
            if N.eqb e 117 then
              match s'' with
              | a :: b :: c' :: d :: s3 =>
                  match hexValue a, hexValue b, hexValue c', hexValue d with
                  | Some x3, Some x2, Some x1, Some x0 =>
                      consFst (x3 * 4096 + x2 * 256 + x1 * 16 + x0)%N (parseChars s3)
                  | _, _, _, _ => None
                  end
              | _ => None
              end
            else
              match simpleEscape e with
              | Some x => consFst x (parseChars s'')
              | None => None
              end
        end
      else if (c <? 32)%N then None
      else consFst c (parseChars s')
  end.

Definition isDigit (c : char) : bool := ((48 <=? c) && (c <=? 57))%N.

Fixpoint spanDigits (s : str) : str * str :=
  match s with
  | c :: s' =>
      if isDigit c then let '(ds, rest) := spanDigits s' in (c :: ds, rest)
      else ([], s)
  | [] => ([], [])
  end.

Definition digitsValue (ds : str) : Z :=
  fold_left (fun acc c => (acc * 10 + Z.of_N (c - 48))%Z) ds 0%Z.

(** An integer token; a fraction or an exponent is not read. *)
Definition parseInt (s : str) : option (Z * str) :=
  match s with
  | 48%N :: rest => Some (0%Z, rest)
  | _ =>
      match spanDigits s with
      | ([], _) => None
      | (ds, rest) => Some (digitsValue ds, rest)
      end
  end.

Definition parseNumber (s : str) : option (json * str) :=
  let r := match s with
           | 45%N :: s' =>
               match parseInt s' with
               | Some (n, rest) => Some ((- n)%Z, rest)
               | None => None
               end
           | _ => parseInt s
           end in
  match r with
  | Some (n, rest) =>
      match rest with
      | c :: _ =>
          if N.eqb c 46 || N.eqb c 101 || N.eqb c 69 then None
          else Some (JNumber n, rest)
      | [] => Some (JNumber n, rest)
      end
  | None => None
  end.

Definition literal (word : str) (value : json) (s : str) : option (json * str) :=
  if startsWith s word then Some (value, drop (length word) s) else None.

(** Recursive descent; every call uses up one unit of [fuel]. *)
Fixpoint parseValue (fuel : nat) (s : str) : option (json * str) :=
  match fuel with
  | O => None
  | S f =>
      match skipWs s with
      | [] => None
      | c :: rest =>
          if N.eqb c 34 then
            match parseChars rest with
            | Some (x, r) => Some (JString x, r)
            | None => None
            end
          else if N.eqb c 91 then
            match skipWs rest with
            | 93%N :: r => Some (JArray [], r)
            | _ =>
                match parseElements f rest with
                | Some (xs, r) => Some (JArray xs, r)
                | None => None
                end
            end
          else if N.eqb c 123 then
            match skipWs rest with
            | 125%N :: r => Some (JObject [], r)
            | _ =>
                match parseMembers f rest with
                | Some (kvs, r) => Some (JObject kvs, r)
                | None => None
                end
            end
          else if N.eqb c 110 then literal (u "null") JNull (c :: rest)
          else if N.eqb c 116 then literal (u "true") (JBool true) (c :: rest)
          else if N.eqb c 102 then literal (u "false") (JBool false) (c :: rest)
          else parseNumber (c :: rest)
      end
  end
with parseElements (fuel : nat) (s : str) : option (list json * str) :=
  match fuel with
  | O => None
  | S f =>
      match parseValue f s with
      | None => None
      | Some (v, r) =>
          match skipWs r with
          | 44%N :: r' =>
              match parseElements f r' with
              | Some (vs, r'') => Some (v :: vs, r'')
              | None => None
              end
          | 93%N :: r' => Some ([v], r')
          | _ => None
          end
      end
  end
with parseMembers (fuel : nat) (s : str) : option (list (str * json) * str) :=
  match fuel with
  | O => None
  | S f =>
      match skipWs s with
      | 34%N :: afterQuote =>
          match parseChars afterQuote with
          | None => None
          | Some (key, r0) =>
              match skipWs r0 with
              | 58%N :: r1 =>
                  match parseValue f r1 with
                  | None => None
                  | Some (v, r) =>
                      match skipWs r with
                      | 44%N :: r' =>
                          match parseMembers f r' with
                          | Some (kvs, r'') => Some ((key, v) :: kvs, r'')
                          | None => None
                          end
                      | 125%N :: r' => Some ([(key, v)], r')
                      | _ => None
                      end
                  end
              | _ => None
              end
          end
      | _ => None
      end
  end.

(** [JSON.parse(text)]; [None] when it throws. *)
Definition parse (text : str) : option json :=
  match parseValue (2 * length text + 2) text with
  | Some (j, rest) =>
      match skipWs rest with
      | [] => Some j
      | _ => None
      end
  | None => None
  end.

End Json.

(* ===================================================================== *)
(** ** sessions/index.ts                                                  *)
(* ===================================================================== *)

Module Sessions.

Import Json.

(** A message of the conversation, a JSON object with [role] and
    [content]. *)
Abbreviation ModelMessage := json.

Record SessionEntry : Type := mkSessionEntry {
  sessionId : str;
  firstPrompt : str;
  messageCount : Z;
  created : str;
  modified : str;
  gitBranch : str;
}.

Record SessionsIndex : Type := mkSessionsIndex {
  version : Z;
  entries : list SessionEntry;
}.

(** [path.join(os.homedir(), '.seedcode')]. *)
Definition SEEDCODE_DIR (rt : Runtime) : str :=
  Path.join [homedir rt; u ".seedcode"].

(** [cwd.replace(/\//g, '-')]. *)
Definition cwdSlug (cwd : str) : str :=
  map (fun c => if N.eqb c Path.slash then 45%N else c) cwd.

Definition projectDir (rt : Runtime) (cwd : str) : str :=
  Path.join [SEEDCODE_DIR rt; u "projects"; cwdSlug cwd].

Definition indexPath (rt : Runtime) (cwd : str) : str :=
  Path.join [projectDir rt cwd; u "sessions-index.json"].

Definition sessionPath (rt : Runtime) (cwd sessionId : str) : str :=
  Path.join [projectDir rt cwd; sessionId ++ u ".jsonl"].

(** The index as the JSON value that is written to disk. *)
Definition encodeEntry (e : SessionEntry) : json :=
  JObject [ (u "sessionId", JString (sessionId e));
            (u "firstPrompt", JString (firstPrompt e));
            (u "messageCount", JNumber (messageCount e));
            (u "created", JString (created e));
            (u "modified", JString (modified e));
            (u "gitBranch", JString (gitBranch e)) ].

Definition encodeIndex (index : SessionsIndex) : json :=
  JObject [ (u "version", JNumber (version index));
            (u "entries", JArray (map encodeEntry (entries index))) ].

Definition getString (key : str) (j : json) : option str :=
  match getField key j with
  | Some (JString x) => Some x
  | _ => None
  end.

Definition getNumber (key : str) (j : json) : option Z :=
  match getField key j with
  | Some (JNumber n) => Some n
  | _ => None
  end.

Definition decodeEntry (j : json) : option SessionEntry :=
  match getString (u "sessionId") j, getString (u "firstPrompt") j,
        getNumber (u "messageCount") j, getString (u "created") j,
        getString (u "modified") j, getString (u "gitBranch") j with
  | Some i, Some p, Some n, Some c, Some m, Some g =>
      Some {| sessionId := i; firstPrompt := p; messageCount := n;
              created := c; modified := m; gitBranch := g |}
  | _, _, _, _, _, _ => None
  end.

Fixpoint decodeEntries (js : list json) : option (list SessionEntry) :=
  match js with
  | [] => Some []
  | j :: js' =>
      match decodeEntry j, decodeEntries js' with
      | Some e, Some es => Some (e :: es)
      | _, _ => None
      end
  end.

(** The cast [as SessionsIndex] of a parsed value.  A value of another
    shape is not an index; the source casts it unchecked and fails at the
    first property access, reported here as the [TypeError] thrown. *)
Definition decodeIndex (j : json) : Result SessionsIndex :=
  match getNumber (u "version") j, getField (u "entries") j with
  | Some v, Some (JArray items) =>
      match decodeEntries items with
      | Some es => Ok {| version := v; entries := es |}
      | None => Throw (u "TypeError: Cannot read properties of undefined")
      end
  | _, _ => Throw (u "TypeError: Cannot read properties of undefined")
  end.

Definition ensureDir (rt : Runtime) (cwd : str) (st : FsState) : FsState :=
  Fs.mkdirSync (projectDir rt cwd) st.

(** [readIndex(cwd)]: the empty index when the file cannot be read or
    parsed. *)
Definition readIndex (rt : Runtime) (st : FsState) (cwd : str)
  : Result SessionsIndex :=
  match Fs.readFileSync st (indexPath rt cwd) with
  | Throw _ => Ok {| version := 1; entries := [] |}
  | Ok raw =>
      match parse raw with
      | None => Ok {| version := 1; entries := [] |}
      | Some j => decodeIndex j
      end
  end.

(** [writeIndex(cwd, index)]. *)
Definition writeIndex (rt : Runtime) (cwd : str) (index : SessionsIndex)
    (st : FsState) : FsState :=
  Fs.writeFileSync (indexPath rt cwd) (stringifyIndent [] (encodeIndex index))
    (ensureDir rt cwd st).

(** [readGitBranch(cwd)]. *)
Definition readGitBranch (st : FsState) (cwd : str) : str :=
  let headFile := Path.join [cwd; u ".git"; u "HEAD"] in
  match Fs.readFileSync st headFile with
  | Throw _ => []
  | Ok text =>
      let head := trim text in
      if startsWith head (u "ref: refs/heads/")
      then drop (length (u "ref: refs/heads/")) head
      else take 8 head
  end.

(** [entries.findIndex(e => e.sessionId === sessionId)], [None] for -1. *)
Fixpoint findIndex (sessionId' : str) (es : list SessionEntry) : option nat :=
  match es with
  | [] => None
  | e :: es' =>
      if str_eqb (sessionId e) sessionId' then Some 0
      else S <$> findIndex sessionId' es'
  end.

Definition isUserMessage (m : ModelMessage) : bool :=
  match getField (u "role") m with
  | Some (JString r) => str_eqb r (u "user")
  | _ => false
  end.

(** [saveSession(cwd, sessionId, messages)] when the clock reads [now]:
    whether it returns or throws, and the file system afterwards. *)
Definition saveSession (rt : Runtime) (now : str) (cwd sessionId' : str)
    (messages : list ModelMessage) (st : FsState) : Result unit * FsState :=
  match messages with
  | [] => (Ok tt, st)
  | _ =>
      let st1 := ensureDir rt cwd st in
      let jsonl := join [10%N] (map stringify messages) in
      let st2 := Fs.writeFileSync (sessionPath rt cwd sessionId') jsonl st1 in
      let firstUserMsg := List.find isUserMessage messages in
      let firstPrompt' :=
        match firstUserMsg with
        | Some m =>
            match getField (u "content") m with
            | Some (JString c) => take 120 c
            | _ => []
            end
        | None => []
        end in
      match readIndex rt st2 cwd with
      | Throw e => (Throw e, st2)
      | Ok index =>
          let existing := findIndex sessionId' (entries index) in
          let entry :=
            {| sessionId := sessionId';
               firstPrompt := firstPrompt';
               messageCount := Z.of_nat (length messages);
               created :=
                 match existing with
                 | Some i => default now (created <$> (entries index !! i))
                 | None => now
                 end;
               modified := now;
               gitBranch := readGitBranch st2 cwd |} in
          let entries' :=
            match existing with
            | Some i => <[i := entry]> (entries index)
            | None => entries index ++ [entry]
            end in
          (Ok tt, writeIndex rt cwd {| version := version index; entries := entries' |} st2)
      end
  end.

(** [loadSession(cwd, sessionId)]: a line that does not parse makes the
    whole call return the empty list. *)
Fixpoint parseLines (lines : list str) : option (list ModelMessage) :=
  match lines with
  | [] => Some []
  | l :: lines' =>
      match parse l, parseLines lines' with
      | Some m, Some ms => Some (m :: ms)
      | _, _ => None
      end
  end.

Definition loadSession (rt : Runtime) (st : FsState) (cwd sessionId' : str)
  : list ModelMessage :=
  match Fs.readFileSync st (sessionPath rt cwd sessionId') with
  | Throw _ => []
  | Ok raw =>
      default [] (parseLines (filter (fun l => l <> []) (split raw [10%N])))
  end.

(** [Array.prototype.sort] with a comparator: a stable sort, an element
    goes before the elements it does not compare greater than. *)
Fixpoint insertSorted {A} (cmp : A -> A -> Z) (x : A) (l : list A) : list A :=
  match l with
  | [] => [x]
  | y :: l' => if (cmp x y <=? 0)%Z then x :: l else y :: insertSorted cmp x l'
  end.

Definition sort {A} (cmp : A -> A -> Z) (l : list A) : list A :=
  foldr (insertSorted cmp) [] l.

(** [listSessions(cwd)]: newest first. *)
Definition listSessions (rt : Runtime) (st : FsState) (cwd : str)
  : Result (list SessionEntry) :=
  match readIndex rt st cwd with
  | Throw e => Throw e
  | Ok index =>
      Ok (sort (fun a b => localeCompare rt (modified b) (modified a)) (entries index))
  end.

(** [resolveSessionId(cwd, prefix)]: [None] is [null]. *)
Definition resolveSessionId (rt : Runtime) (st : FsState) (cwd prefix : str)
  : Result (option str) :=
  match listSessions rt st cwd with
  | Throw e => Throw e
  | Ok es =>
      let matches := filter (fun e => startsWith (sessionId e) prefix = true) es in
      match matches with
      | [m] => Ok (Some (sessionId m))
      | _ => Ok None
      end
  end.

(** [deleteSession(cwd, sessionId)]. *)
Definition deleteSession (rt : Runtime) (cwd sessionId' : str) (st : FsState)
  : Result bool * FsState :=
  match readIndex rt st cwd with
  | Throw e => (Throw e, st)
  | Ok index =>
      match findIndex sessionId' (entries index) with
      | None => (Ok false, st)
      | Some idx =>
          let st1 := Fs.unlinkSync (sessionPath rt cwd sessionId') st in
          (Ok true,
           writeIndex rt cwd
             {| version := version index; entries := delete idx (entries index) |} st1)
      end
  end.

End Sessions.

(* ===================================================================== *)
(** ** ui/inputEditing.ts                                                 *)
(* ===================================================================== *)

Module InputEditing.

Record InputEditState : Type := mkInputEditState {
  value : str;
  cursor : Z;
}.

(** [deleteLeftOfCursor(value, cursor)], the cursor being an integer:
    [value.slice(0, cursor - 1)] and [value.slice(cursor)] are taken with a
    cursor of 1 or more. *)
Definition deleteLeftOfCursor (value' : str) (cursor' : Z) : InputEditState :=
  if (cursor' <=? 0)%Z then {| value := value'; cursor := 0 |}
  else {| value := take (Z.to_nat (cursor' - 1)) value' ++ drop (Z.to_nat cursor') value';
          cursor := cursor' - 1 |}.

End InputEditing.

(* ===================================================================== *)
(** ** Reference notions and sample data                                  *)
(* ===================================================================== *)

(** Splitting at one code unit, by recursion on the string: the reference
    against which [split] with a one-unit separator is reasoned about. *)
Fixpoint splitChar (c : char) (s : str) : list str :=
  match s with
  | [] => [[]]
  | d :: s' =>
      if N.eqb c d then [] :: splitChar c s'
      else match splitChar c s' with
           | p :: ps => (d :: p) :: ps
           | [] => [[d]]
           end
  end.

(** The number of places at which [p] occurs in [s], overlapping ones
    included: the occurrences the specification of the edit tool counts. *)
Fixpoint occurrenceCount (s p : str) : nat :=
  (if startsWith s p then 1 else 0) +
  match s with
  | [] => 0
  | _ :: s' => occurrenceCount s' p
  end.

(** A path lies in the directory subtree of [root] when it is [root] or
    continues it after a slash. *)
Definition insideSubtree (root path : str) : bool :=
  str_eqb path root || startsWith path (root ++ [Path.slash]).

(** A decimal digit; a string without a line feed; a path segment that
    normalization keeps as it is. *)
Definition isDigitChar (c : char) : Prop := (48 <= c <= 57)%N.

Definition noNewline (s : str) : Prop := 10%N ∉ s.

Definition ordinarySegment (seg : str) : Prop :=
  seg <> [] /\ seg <> Path.dot /\ seg <> Path.dotdot.

(** A string is well-formed when no surrogate in it is without its
    partner, so that writing it to a file and reading it back gives the
    same string; a plain text has no surrogate at all. *)
Definition wellFormed (s : str) : Prop := toWellFormed s = s.

Definition plainText (s : str) : Prop := Forall (fun c => (c < 55296)%N) s.

(** A string without any surrogate code unit. *)
Definition surrogateFree (s : str) : Prop :=
  Forall (fun c => isLeadSurrogate c = false /\ isTrailSurrogate c = false) s.

(** A message is JSON-serializable when [JSON.parse] gives it back from
    its [JSON.stringify] text. *)
Definition jsonSerializable (m : Json.json) : Prop :=
  Json.parse (Json.stringify m) = Some m.

Module Samples.

Import Json.

(** ASCII lower-casing and comparison by code units, standing in for
    [toLowerCase] and [localeCompare] on ASCII text. *)
Definition lowerAscii (s : str) : str :=
  map (fun c => if ((65 <=? c) && (c <=? 90))%N then (c + 32)%N else c) s.

Fixpoint codeUnitCompare (a b : str) : Z :=
  match a, b with
  | [], [] => 0
  | [], _ => -1
  | _, [] => 1
  | x :: a', y :: b' =>
      if (x <? y)%N then -1
      else if (y <? x)%N then 1
      else codeUnitCompare a' b'
  end.

(** A process started in [/home/u/app] by a user whose home directory is
    [/home/u]; every command prints nothing and succeeds. *)
Definition posix : Runtime :=
  {| processCwd := u "/home/u/app";
     homedir := u "/home/u";
     execSync := fun _ _ => ExecReturns [];
     toLowerCase := lowerAscii;
     localeCompare := codeUnitCompare |}.

Definition appDir : str := u "/home/u/app".

Definition userMessage : json :=
  JObject [(u "role", JString (u "user"));
           (u "content", JString (u "fix the" ++ [10%N] ++ u "failing test"))].

Definition assistantMessage : json :=
  JObject [(u "role", JString (u "assistant"));
           (u "content",
            JArray [JObject [(u "type", JString (u "text"));
                             (u "text", JString (u "done"))]])].

(** Two sessions saved one after the other; their ids share the first
    eight characters. *)
Definition twoSessions : FsState :=
  snd (Sessions.saveSession posix (u "2026-01-02T00:00:00.000Z") appDir
         (u "abcdefgh-2222") [userMessage]
         (snd (Sessions.saveSession posix (u "2026-01-01T00:00:00.000Z") appDir
                 (u "abcdefgh-1111") [userMessage; assistantMessage] Fs.empty))).

(** [n] lines of output, numbered from 1. *)
Definition numberedLines (n : nat) : str :=
  join [10%N] (map natToString (seq 1 n)).

End Samples.

(* ===================================================================== *)
(** ** Further reference notions                                          *)
(* ===================================================================== *)

(** A bound on the recursion depth the parser needs for a value. *)
Fixpoint jsize (j : Json.json) : nat :=
  match j with
  | Json.JArray items => S (list_sum (map (fun v => S (jsize v)) items))
  | Json.JObject fields => S (list_sum (map (fun kv => S (jsize (snd kv))) fields))
  | _ => 1
  end.

(** Input after which a number token has ended. *)
Definition endsNumber (rest : str) : Prop :=
  match rest with
  | [] => True
  | c :: _ => Json.isDigit c = false /\ c <> 46%N /\ c <> 101%N /\ c <> 69%N
  end.

Definition jsonSpaces (w : str) : Prop := Forall (fun c => Json.isJsonSpace c = true) w.

(** [text] is read back as [j], after any white space and before any input
    that ends a number, by a parser with [n] units of fuel or more. *)
Definition parsesAs (j : Json.json) (text : str) (n : nat) : Prop :=
  forall fuel w rest,
    n <= fuel -> jsonSpaces w -> endsNumber rest ->
    Json.parseValue fuel (w ++ text ++ rest) = Some (j, rest).

(** The value of a run of decimal digits, one digit at a time. *)
Definition digitStep (acc : Z) (c : char) : Z := (acc * 10 + Z.of_N (c - 48))%Z.

(** The first code unit of a value's text starts a value. *)
Definition startsValue (text : str) : Prop :=
  match text with
  | [] => False
  | c :: _ => Json.isJsonSpace c = false /\ c <> 93%N /\ c <> 125%N
  end.

(** The index that [Samples.twoSessions] holds. *)
Definition twoSessionsIndex : Sessions.SessionsIndex :=
  {| Sessions.version := 1;
     Sessions.entries :=
       [ {| Sessions.sessionId := u "abcdefgh-1111";
            Sessions.firstPrompt := u "fix the" ++ [10%N] ++ u "failing test";
            Sessions.messageCount := 2;
            Sessions.created := u "2026-01-01T00:00:00.000Z";
            Sessions.modified := u "2026-01-01T00:00:00.000Z";
            Sessions.gitBranch := [] |};
         {| Sessions.sessionId := u "abcdefgh-2222";
            Sessions.firstPrompt := u "fix the" ++ [10%N] ++ u "failing test";
            Sessions.messageCount := 1;
            Sessions.created := u "2026-01-02T00:00:00.000Z";
            Sessions.modified := u "2026-01-02T00:00:00.000Z";
            Sessions.gitBranch := [] |} ] |}.


(** The events that end a child process: [close] and [error]. *)
Definition isSettling (ev : BashTool.ChildEvent) : bool :=
  match ev with
  | BashTool.Close _ | BashTool.ChildError _ => true
  | _ => false
  end.

(** No more text is kept than bytes were counted, and never more than
    [MAX_BUFFER]; the value of the promise holds text that was kept. *)
Definition withinBuffer (c : BashTool.Child) : Prop :=
  (N.of_nat (length (BashTool.childStdout c)) <= BashTool.stdoutLen c)%N
  /\ (N.of_nat (length (BashTool.childStdout c)) <= BashTool.MAX_BUFFER)%N
  /\ (forall r, BashTool.resolved c = Some r ->
                (N.of_nat (length (stdout r)) <= BashTool.MAX_BUFFER)%N).

(** Before the child ends: the promise is pending; once the signal has
    fired the child is marked killed and the signal aborted, and until
    then the listener waits. *)
Definition running (fired : bool) (c : BashTool.Child) : Prop :=
  BashTool.resolved c = None
  /\ BashTool.kills c = (if BashTool.killed c then 1 else 0)
  /\ (if fired then BashTool.killed c = true /\ BashTool.signalAborted c = true
      else BashTool.abortListener c = true).

(** The event of the abort signal firing. *)
Definition isAbort (ev : BashTool.ChildEvent) : bool :=
  match ev with
  | BashTool.SignalAbort => true
  | _ => false
  end.

(** A path segment that is a plain name: no slash in it, and not empty,
    [.] or [..]. *)
Definition plainSegment (seg : str) : Prop :=
  (Path.slash ∉ seg) /\ ordinarySegment seg.

(** The absolute path with the given segments. *)
Definition absolutePath (segs : list str) : str :=
  Path.slash :: join [Path.slash] segs.

(* ===================================================================== *)
(** * Properties                                                          *)
(* ===================================================================== *)

(** ** Strings: splitting and joining at one code unit *)

Section SplitJoin.

Variable c : char.

Lemma startsWith_single (d : char) (s : str) :
  startsWith (d :: s) [c] = N.eqb c d.
Proof. simpl. apply andb_true_r. Qed.

Lemma splitChar_nonempty (s : str) : splitChar c s <> [].
Proof.
  destruct s as [|d s]; simpl; [done|].
  destruct (N.eqb c d); [done|]. by destruct (splitChar c s).
Qed.

Lemma splitLoop_splitChar (s acc : str) :
  splitLoop [c] s acc 0 =
  match splitChar c s with
  | p :: ps => (rev acc ++ p) :: ps
  | [] => [rev acc]
  end.
Proof.
  revert acc. induction s as [|d s IH]; intros acc.
  - simpl. by rewrite app_nil_r.
  - cbn [splitLoop splitChar]. rewrite startsWith_single.
    destruct (N.eqb c d).
    + cbn [length Nat.sub]. rewrite IH. simpl. rewrite app_nil_r.
      pose proof (splitChar_nonempty s). by destruct (splitChar c s).
    + rewrite IH. pose proof (splitChar_nonempty s).
      destruct (splitChar c s) as [|p ps]; simpl; [done|].
      by rewrite <- app_assoc.
Qed.

Lemma split_splitChar (s : str) : split s [c] = splitChar c s.
Proof.
  unfold split. rewrite splitLoop_splitChar. simpl.
  destruct s as [|d s]; [done|].
  simpl. destruct (N.eqb c d); [done|]. by destruct (splitChar c s).
Qed.

Lemma splitChar_pieces (s : str) : Forall (fun p => c ∉ p) (splitChar c s).
Proof.
  induction s as [|d s IH]; simpl.
  - constructor; [|constructor]. apply not_elem_of_nil.
  - destruct (N.eqb_spec c d) as [Heq|Hne]; [subst d|].
    + constructor; [apply not_elem_of_nil | done].
    + destruct (splitChar c s) as [|p ps].
      * constructor; [|done]. rewrite not_elem_of_cons. split; [done|].
        apply not_elem_of_nil.
      * inversion IH; subst. constructor; [|done].
        rewrite not_elem_of_cons. done.
Qed.

Lemma join_splitChar (s : str) : join [c] (splitChar c s) = s.
Proof.
  induction s as [|d s IH]; [done|].
  simpl. destruct (N.eqb_spec c d) as [Heq|Hne]; [subst d|].
  - pose proof (splitChar_nonempty s).
    destruct (splitChar c s) as [|p ps]; [done|].
    simpl in *. by rewrite IH.
  - pose proof (splitChar_nonempty s).
    destruct (splitChar c s) as [|p ps]; [done|].
    destruct ps; simpl in *; by rewrite <- IH.
Qed.

(** A piece without the separator, put in front of a string, joins the
    first piece of that string. *)
Lemma splitChar_app_piece (p s : str) :
  c ∉ p ->
  splitChar c (p ++ s) =
  match splitChar c s with
  | q :: qs => (p ++ q) :: qs
  | [] => [p]
  end.
Proof.
  pose proof (splitChar_nonempty s) as Hs.
  induction p as [|d p IH]; intros Hp.
  - simpl. by destruct (splitChar c s).
  - apply not_elem_of_cons in Hp as [Hd Hp].
    simpl. destruct (N.eqb_spec c d) as [Heq|_]; [by subst d|].
    rewrite IH by done. by destruct (splitChar c s).
Qed.

Lemma splitChar_join (pieces : list str) :
  pieces <> [] -> Forall (fun p => c ∉ p) pieces ->
  splitChar c (join [c] pieces) = pieces.
Proof.
  induction pieces as [|p rest IH]; intros Hne Hall; [done|].
  inversion Hall as [|? ? Hp Hrest]; subst.
  destruct rest as [|q rest'].
  - simpl. rewrite <- (app_nil_r p) at 1. rewrite splitChar_app_piece by done.
    simpl. by rewrite app_nil_r.
  - change (join [c] (p :: q :: rest')) with (p ++ c :: join [c] (q :: rest')).
    rewrite splitChar_app_piece by done.
    cbn [splitChar]. rewrite N.eqb_refl.
    rewrite IH by done. by rewrite app_nil_r.
Qed.

Lemma split_join (pieces : list str) :
  pieces <> [] -> Forall (fun p => c ∉ p) pieces ->
  split (join [c] pieces) [c] = pieces.
Proof. intros. rewrite split_splitChar. by apply splitChar_join. Qed.

Lemma split_pieces (s : str) : Forall (fun p => c ∉ p) (split s [c]).
Proof. rewrite split_splitChar. apply splitChar_pieces. Qed.

Lemma join_split (s : str) : join [c] (split s [c]) = s.
Proof. rewrite split_splitChar. apply join_splitChar. Qed.

End SplitJoin.

(** ** Decimal digits *)

Lemma digitsLoop_digits (fuel : nat) (n : N) (acc : str) :
  Forall isDigitChar acc -> Forall isDigitChar (digitsLoop fuel n acc).
Proof.
  revert n acc. induction fuel as [|fuel IH]; intros n acc Hacc; simpl; [done|].
  assert (Forall isDigitChar ((48 + n mod 10)%N :: acc)) as Hacc'.
  { constructor; [|done]. unfold isDigitChar.
    assert (n mod 10 < 10)%N as Hr by (apply N.mod_upper_bound; lia).
    revert Hr. generalize (n mod 10)%N. intros r Hr. lia. }
  destruct (n <? 10)%N; [done|]. by apply IH.
Qed.

Lemma natToString_digits (n : nat) : Forall isDigitChar (natToString n).
Proof. apply digitsLoop_digits. constructor. Qed.

Lemma natToString_no_newline (n : nat) : 10%N ∉ natToString n.
Proof.
  intros Hin. pose proof (natToString_digits n) as Hd.
  rewrite Forall_forall in Hd. specialize (Hd _ Hin).
  unfold isDigitChar in Hd. lia.
Qed.

Lemma digitsLoop_nonempty (fuel : nat) (n : N) (acc : str) :
  acc <> [] -> digitsLoop fuel n acc <> [].
Proof.
  revert n acc. induction fuel as [|fuel IH]; intros n acc Hacc; simpl; [done|].
  destruct (n <? 10)%N; [done|]. by apply IH.
Qed.

Lemma natToString_nonempty (n : nat) : natToString n <> [].
Proof.
  unfold natToString. cbn [digitsLoop].
  destruct (N.of_nat n <? 10)%N; [done|]. by apply digitsLoop_nonempty.
Qed.

(** ** Output truncation (C6) *)

Lemma truncation_marker_no_newline (dropped : nat) :
  10%N ∉ u "... " ++ natToString dropped ++ u " lines truncated ...".
Proof.
  rewrite !not_elem_of_app. repeat split.
  - vm_compute. intros H. repeat (apply elem_of_cons in H as [H|H]; [discriminate|]).
    by apply elem_of_nil in H.
  - apply natToString_no_newline.
  - vm_compute. intros H. repeat (apply elem_of_cons in H as [H|H]; [discriminate|]).
    by apply elem_of_nil in H.
Qed.

(** C6. An output of more than 150 lines becomes its first 100 lines, one
    line saying how many lines were left out (the total less 150), and its
    last 50 lines; an output of 150 lines or fewer is returned as it
    is. *)
Theorem truncateBashOutput_head_marker_tail (output : str) :
  let lines := split output BashTool.newline in
  let total := length lines in
  (150 < total ->
     split (BashTool.truncateBashOutput output) BashTool.newline =
       take 100 lines
       ++ [u "... " ++ natToString (total - 150) ++ u " lines truncated ..."]
       ++ drop (total - 50) lines
     /\ length (take 100 lines) = 100
     /\ length (drop (total - 50) lines) = 50)
  /\ (total <= 150 -> BashTool.truncateBashOutput output = output).
Proof.
  intros lines total. split.
  - intros Hlong.
    assert (BashTool.truncateBashOutput output =
            join BashTool.newline
              (take 100 lines
               ++ [u "... " ++ natToString (total - 150) ++ u " lines truncated ..."]
               ++ drop (total - 50) lines)) as ->.
    { unfold BashTool.truncateBashOutput.
      destruct output as [|c0 output']; [simpl in *; lia|].
      fold lines. fold total.
      unfold BashTool.TRUNCATE_HEAD, BashTool.TRUNCATE_TAIL.
      destruct (Nat.leb_spec total (100 + 50)) as [Hle|_]; [lia|].
      by replace (total - 100 - 50) with (total - 150) by lia. }
    split; [|split].
    + apply split_join.
      * destruct (take 100 lines); discriminate.
      * pose proof (split_pieces 10%N output) as Hp. fold BashTool.newline lines in Hp.
        rewrite !Forall_app. repeat split.
        -- by apply Forall_take.
        -- constructor; [|constructor]. apply truncation_marker_no_newline.
        -- by apply Forall_drop.
    + rewrite length_take. fold total. lia.
    + rewrite length_drop. fold total. lia.
  - intros Hshort. unfold BashTool.truncateBashOutput.
    destruct output as [|c0 output']; [done|].
    fold lines. fold total.
    unfold BashTool.TRUNCATE_HEAD, BashTool.TRUNCATE_TAIL.
    destruct (Nat.leb_spec total (100 + 50)) as [_|Hgt]; [done|lia].
Qed.

Lemma truncateBashOutput_head_marker_tail_witness :
  let out200 := Samples.numberedLines 200 in
  let out140 := Samples.numberedLines 140 in
  (150 < length (split out200 BashTool.newline)
   /\ split (BashTool.truncateBashOutput out200) BashTool.newline =
        take 100 (split out200 BashTool.newline)
        ++ [u "... 50 lines truncated ..."]
        ++ drop 150 (split out200 BashTool.newline))
  /\ (length (split out140 BashTool.newline) <= 150
      /\ BashTool.truncateBashOutput out140 = out140).
Proof.
  intros out200 out140.
  assert (150 < length (split out200 BashTool.newline)) as H200 by (vm_compute; lia).
  assert (length (split out140 BashTool.newline) <= 150) as H140 by (vm_compute; lia).
  split; split; [exact H200| |exact H140|].
  - exact (proj1 (proj1 (truncateBashOutput_head_marker_tail out200) H200)).
  - exact (proj2 (truncateBashOutput_head_marker_tail out140) H140).
Defined.

(** ** The denylist of the command executor (C3) *)

Lemma checkDenylist_blocks (command : str) :
  (exists pattern, In pattern Bash.DENYLIST_PATTERNS
                   /\ Regex.test pattern command = true) ->
  Bash.checkDenylist command =
  Throw (u "Command blocked by security policy: " ++ command).
Proof.
  intros Hmatch. unfold Bash.checkDenylist.
  replace (existsb (fun pattern => Regex.test pattern command) Bash.DENYLIST_PATTERNS)
    with true; [done|].
  symmetry. apply existsb_exists. exact Hmatch.
Qed.

(** C3. A command that matches a pattern of the denylist makes [runBash]
    throw, in both modules that define it, without any process being
    spawned; through the [bash] tool the model gets the error and still no
    process is spawned, whatever the confirmation settings. *)
Theorem runBash_denylist_blocks_before_spawn
    (rt : Runtime) (command : str) (cwd : option str) (opts : Tools.Options) :
  (exists pattern, In pattern Bash.DENYLIST_PATTERNS
                   /\ Regex.test pattern command = true) ->
  Bash.runBash rt command cwd =
    (Throw (u "Command blocked by security policy: " ++ command), [])
  /\ BashTool.runBash rt command cwd =
    (Throw (u "Command blocked by security policy: " ++ command), [])
  /\ snd (Tools.bash opts rt command) = [].
Proof.
  intros Hmatch. pose proof (checkDenylist_blocks command Hmatch) as Hdeny.
  repeat split.
  - unfold Bash.runBash. by rewrite Hdeny.
  - unfold BashTool.runBash, BashTool.checkDenylist. by rewrite Hdeny.
  - unfold Tools.bash, Bash.runBash. rewrite Hdeny.
    by destruct (Tools.requestConfirm _ _ _ _).
Qed.

Lemma runBash_denylist_blocks_before_spawn_witness :
  let command := u "sudo rm -rf / --no-preserve-root" in
  let opts := {| Tools.cwd := Samples.appDir;
                 Tools.confirm := fun _ => true;
                 Tools.skipConfirm := true |} in
  (exists pattern, In pattern Bash.DENYLIST_PATTERNS
                   /\ Regex.test pattern command = true)
  /\ Bash.runBash Samples.posix command None =
       (Throw (u "Command blocked by security policy: " ++ command), [])
  /\ BashTool.runBash Samples.posix command None =
       (Throw (u "Command blocked by security policy: " ++ command), [])
  /\ snd (Tools.bash opts Samples.posix command) = [].
Proof.
  intros command opts.
  assert (exists pattern, In pattern Bash.DENYLIST_PATTERNS
                          /\ Regex.test pattern command = true) as Hmatch.
  { eexists. split; [left; reflexivity|]. vm_compute. reflexivity. }
  split; [exact Hmatch|].
  exact (runBash_denylist_blocks_before_spawn Samples.posix command None opts Hmatch).
Defined.

(** ** The deny-list of the read tool (C9) *)

(** What holds of [readFile]: when [isDenied] answers yes for the resolved
    path, [readFile] throws the access-denied error whatever the file
    system holds, and the [read] tool returns that error whatever the
    confirmation callback and the [skipConfirm] setting are. *)
Lemma readFile_throws_if_isDenied
    (rt : Runtime) (st : FsState) (filePath : str) (opts : Tools.Options) :
  Read.isDenied rt (Path.resolve (processCwd rt) [filePath]) = true ->
  Read.readFile rt st filePath =
    Throw (u "Access denied: " ++ filePath ++ u " is in the restricted path list.")
  /\ Tools.read opts rt st filePath =
    Tools.ToolError
      (u "Access denied: " ++ filePath ++ u " is in the restricted path list.").
Proof.
  intros Hdenied.
  assert (Read.readFile rt st filePath =
          Throw (u "Access denied: " ++ filePath ++ u " is in the restricted path list."))
    as Hread.
  { unfold Read.readFile. by rewrite Hdenied. }
  split; [exact Hread|].
  unfold Tools.read. by rewrite Hread.
Qed.

(** C9, where the code departs from it.  [isDenied] applies the patterns to
    the path with the text of the home directory and one more code unit
    taken off its front.  When [os.homedir()] ends in a slash, as [/home/u/]
    and [/] do, that code unit is the dot of [.ssh]: the private key below
    the home directory matches the pattern [**/.ssh/**], as an absolute
    path and relative to the home directory, and yet [readFile] and the
    [read] tool return its contents.  With the home directory [/home/u] the
    same path is refused. *)
Theorem readFile_returns_denied_path_when_home_ends_in_slash :
  let trailing :=
    {| processCwd := u "/home/u/app"; homedir := u "/home/u/";
       execSync := execSync Samples.posix; toLowerCase := toLowerCase Samples.posix;
       localeCompare := localeCompare Samples.posix |} in
  let atRoot :=
    {| processCwd := u "/srv/app"; homedir := u "/";
       execSync := execSync Samples.posix; toLowerCase := toLowerCase Samples.posix;
       localeCompare := localeCompare Samples.posix |} in
  let opts := {| Tools.cwd := Samples.appDir;
                 Tools.confirm := fun _ => true;
                 Tools.skipConfirm := false |} in
  let key := u "/home/u/.ssh/id_rsa" in
  let rootKey := u "/.ssh/id_rsa" in
  let st := {| files := {[ key := u "PRIVATE KEY"; rootKey := u "ROOT KEY" ]};
               journal := [] |} in
  let contents text := {| Read.content := text; Read.lineCount := 1;
                          Read.warning := None |} in
  (Read.minimatch key (u "**/.ssh/**") = true
   /\ Read.minimatch (u ".ssh/id_rsa") (u "**/.ssh/**") = true
   /\ Read.minimatch rootKey (u "**/.ssh/**") = true)
  /\ (Read.readFile trailing st key = Ok (contents (u "PRIVATE KEY"))
      /\ Tools.read opts trailing st key = Tools.ToolData (contents (u "PRIVATE KEY")))
  /\ (Read.readFile atRoot st rootKey = Ok (contents (u "ROOT KEY"))
      /\ Tools.read opts atRoot st rootKey = Tools.ToolData (contents (u "ROOT KEY")))
  /\ Read.readFile Samples.posix st key
     = Throw (u "Access denied: " ++ key ++ u " is in the restricted path list.").
Proof.
  intros trailing atRoot opts key rootKey st contents.
  split; [split; [|split]; vm_compute; reflexivity|].
  split; [split; vm_compute; reflexivity|].
  split; [split; vm_compute; reflexivity|].
  vm_compute. reflexivity.
Qed.

(** What the deny-list covers for a user whose home is [/home/u]. *)
Example isDenied_samples :
  map (fun p => Read.isDenied Samples.posix (u p))
    ["/home/u/.ssh/id_rsa"; ".env"; "/etc/.env.local"; "/home/u/.config/gh/hosts.yml";
     "/home/u/.aws/credentials"; "src/index.ts"; "/home/u/.sshx/id"]%string
  = [true; true; true; true; true; false; false].
Proof. vm_compute. reflexivity. Qed.

(** The patterns are applied to the path with the text of the home
    directory and one more code unit taken off its front.  When the home
    directory is [/], or is given with a slash at its end, that code unit
    is the dot of [.ssh]. *)
Example isDenied_is_home_relative :
  let atRoot :=
    {| processCwd := u "/srv/app"; homedir := u "/";
       execSync := execSync Samples.posix; toLowerCase := toLowerCase Samples.posix;
       localeCompare := localeCompare Samples.posix |} in
  let trailing :=
    {| processCwd := u "/home/u/app"; homedir := u "/home/u/";
       execSync := execSync Samples.posix; toLowerCase := toLowerCase Samples.posix;
       localeCompare := localeCompare Samples.posix |} in
  Read.isDenied atRoot (u "/.ssh/id_rsa") = false
  /\ Read.isDenied atRoot (u "/srv/app/.env") = true
  /\ Read.isDenied trailing (u "/home/u/.ssh/id_rsa") = false
  /\ Read.isDenied trailing (u "/home/u/app/.env") = true.
Proof. intros atRoot trailing. split; [|split; [|split]]; vm_compute; reflexivity. Qed.

(** ** Saving an empty conversation (C10) *)

(** C10. [saveSession] with an empty message list returns at once: the
    files and the journal of system calls are what they were, so no
    transcript is written and the index is neither created nor changed. *)
Theorem saveSession_empty_is_noop
    (rt : Runtime) (now cwd sessionId : str) (st : FsState) :
  Sessions.saveSession rt now cwd sessionId [] st = (Ok tt, st).
Proof. reflexivity. Qed.

(** ** Patch edits (C1) *)

Lemma applyEdit_rejected_leaves_files
    (rt : Runtime) (filePath oldString newString content : str) (st : FsState) :
  files st !! Path.resolve (processCwd rt) [filePath] = Some content ->
  Edit.occurrences content oldString <> 1%Z ->
  exists error,
    Edit.applyEdit rt filePath oldString newString st = (Edit.EditError error, st).
Proof.
  intros Hfile Hocc. unfold Edit.applyEdit. rewrite Hfile.
  destruct (Z.eqb_spec (Edit.occurrences content oldString) 1) as [Heq|_]; [done|].
  simpl. by eexists.
Qed.

Lemma GetSubstitution_without_dollar (matched before after tpl : str) :
  36%N ∉ tpl -> GetSubstitution matched before after tpl = tpl.
Proof.
  induction tpl as [|c rest IH]; intros Hno; [done|].
  apply not_elem_of_cons in Hno as [Hc Hrest].
  simpl. destruct (N.eqb_spec c 36) as [Heq|_]; [by subst c|].
  by rewrite IH.
Qed.

Lemma startsWith_app (s p : str) :
  startsWith s p = true -> s = p ++ drop (length p) s.
Proof.
  revert s. induction p as [|c p IH]; intros s H; [done|].
  destruct s as [|d s]; [done|]. simpl in H.
  apply andb_true_iff in H as [Hc Hs]. apply N.eqb_eq in Hc. subst d.
  simpl. f_equal. by apply IH.
Qed.

Lemma indexOf_Some_split (s p : str) (i : nat) :
  indexOf s p = Some i -> s = take i s ++ p ++ drop (i + length p) s.
Proof.
  revert i. induction s as [|d s IH]; intros i H.
  - simpl in H. destruct (startsWith [] p) eqn:Hp; [|done].
    injection H as <-. destruct p; [done|discriminate].
  - cbn [indexOf] in H. destruct (startsWith (d :: s) p) eqn:Hp.
    + injection H as <-. by apply startsWith_app.
    + destruct (indexOf s p) as [j|] eqn:Hj; [|done].
      injection H as <-. simpl. f_equal. by apply IH.
Qed.

Lemma indexOf_None_splitLoop (p s acc : str) :
  p <> [] -> indexOf s p = None -> splitLoop p s acc 0 = [rev acc ++ s].
Proof.
  intros Hp. revert acc. induction s as [|d s IH]; intros acc H.
  - simpl. by rewrite app_nil_r.
  - cbn [indexOf] in H. cbn [splitLoop].
    destruct (startsWith (d :: s) p); [done|].
    destruct (indexOf s p); [done|].
    rewrite IH by done. simpl. by rewrite <- app_assoc.
Qed.

(** What holds of the edit tool: when the split count is one and the new
    text has no dollar sign, the file becomes the text before the
    occurrence, the new text and the text after it. *)
Lemma applyEdit_plain_replacement
    (rt : Runtime) (filePath oldString newString content : str) (st : FsState) :
  let abs := Path.resolve (processCwd rt) [filePath] in
  files st !! abs = Some content ->
  Edit.occurrences content oldString = 1%Z ->
  36%N ∉ newString ->
  exists before after message diff,
    content = before ++ oldString ++ after
    /\ Edit.applyEdit rt filePath oldString newString st =
         (Edit.EditResult message diff,
          Fs.writeFileSync abs (before ++ newString ++ after) st).
Proof.
  intros abs Hfile Hocc Hplain.
  destruct (indexOf content oldString) as [i|] eqn:Hidx.
  - exists (take i content), (drop (i + length oldString) content).
    do 2 eexists. split; [by apply indexOf_Some_split|].
    unfold Edit.applyEdit. fold abs. rewrite Hfile, Hocc. simpl.
    unfold replace. rewrite Hidx.
    by rewrite GetSubstitution_without_dollar.
  - exfalso. unfold Edit.occurrences, split in Hocc.
    destruct oldString as [|c old'].
    + destruct content; simpl in Hidx; discriminate.
    + rewrite indexOf_None_splitLoop in Hocc by done. simpl in Hocc. lia.
Qed.

(** C1, where the code departs from it.  The file holds [cost: PRICE], in
    which [PRICE] occurs once; the edit to [$$5] succeeds, but the file then
    holds [cost: $5], not [cost: $$5]: [String.prototype.replace] reads
    the new text as a replacement pattern. *)
Theorem applyEdit_dollar_pattern_not_literal :
  let path := u "/home/u/app/price.txt" in
  let st := {| files := {[ path := u "cost: PRICE" ]}; journal := [] |} in
  let result := Edit.applyEdit Samples.posix (u "price.txt") (u "PRICE") (u "$$5") st in
  occurrenceCount (u "cost: PRICE") (u "PRICE") = 1
  /\ (exists message diff, fst result = Edit.EditResult message diff)
  /\ files (snd result) !! path = Some (u "cost: $5")
  /\ u "cost: $5" <> u "cost: " ++ u "$$5" ++ [].
Proof.
  intros path st result.
  split; [vm_compute; reflexivity|].
  split; [vm_compute; by do 2 eexists|].
  split; [vm_compute; reflexivity|].
  vm_compute. discriminate.
Qed.

(** The split count takes occurrences that overlap for one: [aa] occurs
    twice in [aaa], and the edit is applied all the same. *)
Example applyEdit_overlapping_occurrences :
  let path := u "/home/u/app/a.txt" in
  let st := {| files := {[ path := u "aaa" ]}; journal := [] |} in
  let result := Edit.applyEdit Samples.posix (u "a.txt") (u "aa") (u "b") st in
  occurrenceCount (u "aaa") (u "aa") = 2
  /\ Edit.occurrences (u "aaa") (u "aa") = 1%Z
  /\ files (snd result) !! path = Some (u "ba").
Proof. intros path st result. split; [|split]; vm_compute; reflexivity. Qed.

(** ** Full-file writes (C2) *)

Lemma writeFile_journal (rt : Runtime) (filePath content : str) (st : FsState) :
  let abs := Path.resolve (processCwd rt) [filePath] in
  journal (Write.writeFile rt filePath content st) =
  journal st ++ [OpMkdir (Path.dirname abs); OpWriteFile abs content].
Proof. intros abs. unfold Write.writeFile. simpl. by rewrite <- app_assoc. Qed.

(** C2, where the code departs from it.  Writing [notes.txt] makes two
    system calls, the creation of the directory and a write to the target
    itself: no temporary sibling is written and nothing is renamed. *)
Theorem writeFile_writes_target_in_place :
  let target := u "/home/u/app/notes.txt" in
  let st := Write.writeFile Samples.posix (u "notes.txt") (u "hello") Fs.empty in
  journal st = [OpMkdir (u "/home/u/app"); OpWriteFile target (u "hello")]
  /\ (forall oldPath newPath, ~ In (OpRename oldPath newPath) (journal st))
  /\ (forall path content, In (OpWriteFile path content) (journal st) -> path = target).
Proof.
  intros target st.
  assert (journal st = [OpMkdir (u "/home/u/app"); OpWriteFile target (u "hello")]) as Hj
    by (vm_compute; reflexivity).
  rewrite Hj. split; [done|]. split.
  - intros oldPath newPath [H|[H|[]]]; discriminate.
  - intros path content [H|[H|[]]]; [discriminate|]. by injection H as <- _.
Qed.

(** ** The working-directory boundary (C4) *)

(** C4, where the code departs from it.  With root [/home/u/app], the
    target of [cd ../app2] resolves to [/home/u/app2], outside the subtree
    of the root, yet the text of the root is a prefix of it: the command
    is not rejected and a process is spawned. *)
Theorem runBash_cd_to_sibling_is_executed :
  let root := u "/home/u/app" in
  let command := u "cd ../app2 && cat notes.txt" in
  Bash.cdTargets command 0 = [u "../app2"]
  /\ Path.resolve (processCwd Samples.posix) [root; u "../app2"] = u "/home/u/app2"
  /\ insideSubtree root (u "/home/u/app2") = false
  /\ Bash.runBash Samples.posix command (Some root) =
       (Ok {| stdout := []; stderr := []; exitCode := 0 |}, [mkSpawn command root]).
Proof. intros root command. split; [|split; [|split]]; vm_compute; reflexivity. Qed.

(** Targets that leave the text of the root are rejected before any
    process is spawned. *)
Example runBash_cd_outside_rejected :
  Bash.runBash Samples.posix (u "cd /etc && ls") (Some Samples.appDir) =
    (Throw (u "Directory escape blocked: cd to '/etc' would leave the working directory."), [])
  /\ Bash.runBash Samples.posix (u "ls; cd ../..") (Some Samples.appDir) =
    (Throw (u "Directory escape blocked: cd to '../..' would leave the working directory."), [])
  /\ snd (Bash.runBash Samples.posix (u "cd src/ui && ls") (Some Samples.appDir)) =
    [mkSpawn (u "cd src/ui && ls") Samples.appDir].
Proof. split; [|split]; vm_compute; reflexivity. Qed.

(** ** Resolving a session id from a prefix (C8) *)

Lemma insertSorted_Permutation {A} (cmp : A -> A -> Z) (x : A) (l : list A) :
  Sessions.insertSorted cmp x l ≡ₚ x :: l.
Proof.
  induction l as [|y l IH]; simpl; [done|].
  destruct (cmp x y <=? 0)%Z; [done|].
  rewrite IH. apply Permutation_swap.
Qed.

Lemma sort_Permutation {A} (cmp : A -> A -> Z) (l : list A) :
  Sessions.sort cmp l ≡ₚ l.
Proof.
  induction l as [|x l IH]; simpl; [done|].
  rewrite insertSorted_Permutation. by rewrite IH.
Qed.

(** C8, as the code has it.  With the entries of the index read, the
    entries whose id starts with the prefix decide the answer: exactly one
    gives its id; none, or two or more, give [null] alike. *)
Theorem resolveSessionId_unique_or_null
    (rt : Runtime) (st : FsState) (cwd prefix : str) (index : Sessions.SessionsIndex) :
  Sessions.readIndex rt st cwd = Ok index ->
  let matching :=
    filter (fun e => startsWith (Sessions.sessionId e) prefix = true)
           (Sessions.entries index) in
  (forall e, matching = [e] ->
     Sessions.resolveSessionId rt st cwd prefix = Ok (Some (Sessions.sessionId e)))
  /\ (matching = [] -> Sessions.resolveSessionId rt st cwd prefix = Ok None)
  /\ (2 <= length matching -> Sessions.resolveSessionId rt st cwd prefix = Ok None).
Proof.
  intros Hindex matching.
  unfold Sessions.resolveSessionId, Sessions.listSessions. rewrite Hindex.
  set (sorted := Sessions.sort _ (Sessions.entries index)).
  assert (filter (fun e => startsWith (Sessions.sessionId e) prefix = true) sorted
          ≡ₚ matching) as Hperm.
  { unfold matching, sorted. by rewrite sort_Permutation. }
  split; [|split].
  - intros e He. rewrite He in Hperm.
    apply Permutation_singleton_r in Hperm. by rewrite Hperm.
  - intros Hnone. rewrite Hnone in Hperm.
    apply Permutation_nil_r in Hperm. by rewrite Hperm.
  - intros Hmany. apply Permutation_length in Hperm.
    destruct (filter _ sorted) as [|a [|b rest]]; simpl in *; [done|lia|done].
Qed.

Lemma resolveSessionId_unique_or_null_witness :
  let st := Samples.twoSessions in
  (exists index, Sessions.readIndex Samples.posix st Samples.appDir = Ok index)
  /\ Sessions.resolveSessionId Samples.posix st Samples.appDir (u "abcdefgh-1")
     = Ok (Some (u "abcdefgh-1111"))
  /\ Sessions.resolveSessionId Samples.posix st Samples.appDir (u "zzzz") = Ok None
  /\ Sessions.resolveSessionId Samples.posix st Samples.appDir (u "abcdefgh") = Ok None.
Proof.
  intros st.
  destruct (Sessions.readIndex Samples.posix st Samples.appDir) as [index|msg] eqn:Hindex;
    [|vm_compute in Hindex; discriminate].
  split; [by eexists|].
  pose proof (resolveSessionId_unique_or_null Samples.posix st Samples.appDir
                (u "abcdefgh-1") index Hindex) as (Hone & _ & _).
  pose proof (resolveSessionId_unique_or_null Samples.posix st Samples.appDir
                (u "zzzz") index Hindex) as (_ & Hnone & _).
  pose proof (resolveSessionId_unique_or_null Samples.posix st Samples.appDir
                (u "abcdefgh") index Hindex) as (_ & _ & Hmany).
  vm_compute in Hindex. injection Hindex as <-.
  split; [|split].
  - exact (Hone _ eq_refl).
  - exact (Hnone eq_refl).
  - apply Hmany. vm_compute. lia.
Defined.

(** C8 as stated fails: with two sessions whose ids share their first
    eight characters, that prefix is answered with the very value a prefix
    of no session is answered with, [null]; nothing says "ambiguous". *)
Lemma resolveSessionId_ambiguous_is_null_like_not_found :
  let st := Samples.twoSessions in
  let ids := fun prefix =>
    match Sessions.listSessions Samples.posix st Samples.appDir with
    | Ok es => filter (fun i => startsWith i prefix = true) (map Sessions.sessionId es)
    | Throw _ => []
    end in
  ids (u "abcdefgh") = [u "abcdefgh-2222"; u "abcdefgh-1111"]
  /\ ids (u "zzzz") = []
  /\ Sessions.resolveSessionId Samples.posix st Samples.appDir (u "abcdefgh") = Ok None
  /\ Sessions.resolveSessionId Samples.posix st Samples.appDir (u "zzzz") = Ok None.
Proof. intros st ids. split; [|split; [|split]]; vm_compute; reflexivity. Qed.

(** ** JSON text has no line break *)

Lemma json_nested_ind (P : Json.json -> Prop) :
  P Json.JNull ->
  (forall b, P (Json.JBool b)) ->
  (forall n, P (Json.JNumber n)) ->
  (forall s, P (Json.JString s)) ->
  (forall items, Forall P items -> P (Json.JArray items)) ->
  (forall fields, Forall (fun kv => P (snd kv)) fields -> P (Json.JObject fields)) ->
  forall j, P j.
Proof.
  intros HNull HBool HNumber HString HArray HObject.
  fix IH 1. intros [ | b | n | s | items | fields ].
  - exact HNull.
  - apply HBool.
  - apply HNumber.
  - apply HString.
  - apply HArray. induction items as [|x items IHitems]; constructor.
    + apply IH.
    + exact IHitems.
  - apply HObject. induction fields as [|[k v] fields IHfields]; constructor.
    + apply IH.
    + exact IHfields.
Qed.

Lemma noNewline_app (a b : str) : noNewline a -> noNewline b -> noNewline (a ++ b).
Proof. unfold noNewline. rewrite not_elem_of_app. done. Qed.

Lemma noNewline_cons (c : char) (s : str) : c <> 10%N -> noNewline s -> noNewline (c :: s).
Proof. unfold noNewline. rewrite not_elem_of_cons. intros; split; congruence. Qed.

Lemma noNewline_nil : noNewline [].
Proof. apply not_elem_of_nil. Qed.

Lemma noNewline_join (sep : str) (pieces : list str) :
  noNewline sep -> Forall noNewline pieces -> noNewline (join sep pieces).
Proof.
  intros Hsep. induction 1 as [|p rest Hp Hrest IH]; [apply noNewline_nil|].
  destruct rest as [|q rest']; [done|].
  change (join sep (p :: q :: rest')) with (p ++ sep ++ join sep (q :: rest')).
  auto using noNewline_app.
Qed.

Lemma hexDigit_not_newline (n : N) : Json.hexDigit n <> 10%N.
Proof. unfold Json.hexDigit. destruct (n <? 10)%N; lia. Qed.

Lemma unicodeEscape_noNewline (c : char) : noNewline (Json.unicodeEscape c).
Proof.
  unfold Json.unicodeEscape.
  repeat (apply noNewline_cons; [first [apply hexDigit_not_newline | done]|]).
  apply noNewline_nil.
Qed.

Lemma quoteLoop_noNewline (s : str) : noNewline (Json.quoteLoop s).
Proof.
  remember (length s) as n eqn:Hn. revert s Hn.
  induction n as [n IH] using lt_wf_ind. intros [|c s'] Hn; [apply noNewline_nil|].
  simpl in Hn.
  assert (noNewline (Json.quoteLoop s')) as Hs' by (apply (IH (length s')); [lia|done]).
  cbn [Json.quoteLoop].
  repeat match goal with
  | |- noNewline (if ?b then _ else _) => destruct b eqn:?
  | |- noNewline ([_; _] ++ _) => apply noNewline_app; [|exact Hs']
  | |- noNewline [_; _] => do 2 (apply noNewline_cons; [done|]); apply noNewline_nil
  | |- noNewline (Json.unicodeEscape _ ++ _) =>
      apply noNewline_app; [apply unicodeEscape_noNewline|exact Hs']
  end.
  - destruct s' as [|d s'']; [apply unicodeEscape_noNewline|].
    destruct (Json.isLowSurrogate d) eqn:Hd.
    + unfold Json.isLowSurrogate in Hd.
      apply noNewline_cons; [intros ->; done|].
      apply noNewline_cons; [intros ->; done|].
      apply (IH (length s'')); [simpl in Hn; lia|done].
    + apply noNewline_app; [apply unicodeEscape_noNewline|exact Hs'].
  - apply noNewline_cons; [|exact Hs'].
    intros ->. discriminate.
Qed.

Lemma quote_noNewline (s : str) : noNewline (Json.quote s).
Proof.
  unfold Json.quote. apply noNewline_cons; [done|].
  apply noNewline_app; [apply quoteLoop_noNewline|].
  apply noNewline_cons; [done|apply noNewline_nil].
Qed.

Lemma intToString_noNewline (z : Z) : noNewline (intToString z).
Proof.
  unfold intToString. destruct (z <? 0)%Z.
  - apply noNewline_cons; [done|]. apply natToString_no_newline.
  - apply natToString_no_newline.
Qed.

Lemma literal_noNewline (s : string) :
  forallb (fun c => negb (N.eqb c 10)) (u s) = true -> noNewline (u s).
Proof.
  intros H Hin. rewrite forallb_forall in H.
  apply list_elem_of_In in Hin. specialize (H _ Hin). by rewrite N.eqb_refl in H.
Qed.

Lemma stringify_noNewline (j : Json.json) : noNewline (Json.stringify j).
Proof.
  induction j as [ | b | n | s | items IH | fields IH ] using json_nested_ind.
  - by apply literal_noNewline.
  - destruct b; by apply literal_noNewline.
  - apply intToString_noNewline.
  - apply quote_noNewline.
  - cbn [Json.stringify].
    apply noNewline_app; [by apply literal_noNewline|].
    apply noNewline_app; [|by apply literal_noNewline].
    apply noNewline_join; [by apply literal_noNewline|].
    by apply Forall_map.
  - cbn [Json.stringify].
    apply noNewline_app; [by apply literal_noNewline|].
    apply noNewline_app; [|by apply literal_noNewline].
    apply noNewline_join; [by apply literal_noNewline|].
    apply Forall_map. eapply Forall_impl; [exact IH|].
    intros [k v] Hv. cbn [fst snd] in *.
    apply noNewline_app; [apply quote_noNewline|].
    apply noNewline_app; [by apply literal_noNewline|done].
Qed.

Lemma stringify_nonempty (j : Json.json) : Json.stringify j <> [].
Proof.
  destruct j as [ | [|] | n | s | items | fields ]; try done.
  simpl. unfold intToString. destruct (n <? 0)%Z; [done|].
  apply natToString_nonempty.
Qed.

(** ** Text that is written to a file and read back *)

(** A surrogate pair stays, a surrogate on its own becomes U+FFFD. *)
Example toWellFormed_examples :
  toWellFormed [97; 55357; 56832; 98]%N = [97; 55357; 56832; 98]%N
  /\ toWellFormed [97; 55357]%N = [97; 65533]%N
  /\ toWellFormed [56832; 97]%N = [65533; 97]%N
  /\ toWellFormed [55357; 55357; 56832]%N = [65533; 55357; 56832]%N
  /\ toWellFormed [56832; 55357]%N = [65533; 65533]%N
  /\ toWellFormed [65279; 97; 65535]%N = [65279; 97; 65535]%N.
Proof. repeat split; reflexivity. Qed.

Lemma wellFormed_cons (c : char) (s : str) :
  isLeadSurrogate c = false -> isTrailSurrogate c = false ->
  wellFormed s -> wellFormed (c :: s).
Proof.
  intros Hlead Htrail Hs. unfold wellFormed in *. cbn [toWellFormed].
  by rewrite Hlead, Htrail, Hs.
Qed.

Lemma wellFormed_pair (c d : char) (s : str) :
  isLeadSurrogate c = true -> isTrailSurrogate d = true ->
  wellFormed s -> wellFormed (c :: d :: s).
Proof.
  intros Hc Hd Hs. unfold wellFormed in *. cbn [toWellFormed].
  by rewrite Hc, Hd, Hs.
Qed.

Lemma plainText_wellFormed (s : str) : plainText s -> wellFormed s.
Proof.
  induction 1 as [|c s Hc _ IH]; [done|].
  apply wellFormed_cons; [| |done]; unfold isLeadSurrogate, isTrailSurrogate.
  - destruct (N.leb_spec 55296 c); [lia|done].
  - destruct (N.leb_spec 56320 c); [lia|done].
Qed.

(** A well-formed string stays as it is in front of any other. *)
Lemma toWellFormed_app (a b : str) :
  wellFormed a -> toWellFormed (a ++ b) = a ++ toWellFormed b.
Proof.
  unfold wellFormed. remember (length a) as n eqn:Hn. revert a Hn.
  induction n as [n IH] using lt_wf_ind. intros [|c a] Hn Ha; [done|].
  cbn [length] in Hn. cbn [toWellFormed app] in *.
  unfold isLeadSurrogate, isTrailSurrogate in *.
  destruct ((55296 <=? c) && (c <=? 56319))%N eqn:Hlead.
  - apply andb_true_iff in Hlead as [H1 H2].
    apply N.leb_le in H1. apply N.leb_le in H2.
    destruct a as [|d a]; [injection Ha as Ha; lia|].
    cbn [app]. destruct ((56320 <=? d) && (d <=? 57343))%N.
    + injection Ha as Ha. f_equal. f_equal.
      apply (IH (length a)); [cbn [length] in Hn; lia|done|done].
    + injection Ha as Ha _. lia.
  - destruct ((56320 <=? c) && (c <=? 57343))%N eqn:Htrail.
    + apply andb_true_iff in Htrail as [H1 H2].
      apply N.leb_le in H1. apply N.leb_le in H2.
      injection Ha as Ha _. lia.
    + injection Ha as Ha. f_equal. apply (IH (length a)); [lia|done|done].
Qed.

Lemma wellFormed_app (a b : str) : wellFormed a -> wellFormed b -> wellFormed (a ++ b).
Proof.
  intros Ha Hb. unfold wellFormed. rewrite toWellFormed_app by done. by rewrite Hb.
Qed.

Lemma wellFormed_join (sep : str) (pieces : list str) :
  wellFormed sep -> Forall wellFormed pieces -> wellFormed (join sep pieces).
Proof.
  intros Hsep. induction 1 as [|p rest Hp Hrest IH]; [done|].
  destruct rest as [|q rest']; [done|].
  change (join sep (p :: q :: rest')) with (p ++ sep ++ join sep (q :: rest')).
  auto using wellFormed_app.
Qed.

Lemma plainText_app (a b : str) : plainText a -> plainText b -> plainText (a ++ b).
Proof. unfold plainText. rewrite Forall_app. done. Qed.

Lemma plainText_forallb (s : str) :
  forallb (fun c => (c <? 55296)%N) s = true -> plainText s.
Proof.
  intros H. apply Forall_forall. intros c Hin. rewrite forallb_forall in H.
  apply list_elem_of_In in Hin. specialize (H _ Hin). by apply N.ltb_lt in H.
Qed.

Lemma wellFormed_forallb (s : str) :
  forallb (fun c => (c <? 55296)%N) s = true -> wellFormed s.
Proof. intros H. by apply plainText_wellFormed, plainText_forallb. Qed.

Lemma intToString_plainText (z : Z) : plainText (intToString z).
Proof.
  assert (forall n, plainText (natToString n)) as Hdigits.
  { intros n. eapply Forall_impl; [apply natToString_digits|].
    intros c Hc. unfold isDigitChar in Hc. lia. }
  unfold intToString. destruct (z <? 0)%Z; [|apply Hdigits].
  constructor; [lia|apply Hdigits].
Qed.

Lemma unicodeEscape_plainText (c : char) : plainText (Json.unicodeEscape c).
Proof.
  assert (forall n, (n < 16)%N -> (Json.hexDigit n < 55296)%N) as Hhex.
  { intros n Hn. unfold Json.hexDigit. destruct (n <? 10)%N; lia. }
  unfold Json.unicodeEscape.
  repeat (constructor; [first [lia | apply Hhex, N.mod_upper_bound; lia]|]).
  constructor.
Qed.

Lemma quoteLoop_wellFormed (s : str) : wellFormed (Json.quoteLoop s).
Proof.
  remember (length s) as n eqn:Hn. revert s Hn.
  induction n as [n IH] using lt_wf_ind. intros [|c s'] Hn; [done|].
  simpl in Hn.
  assert (wellFormed (Json.quoteLoop s')) as Hs' by (apply (IH (length s')); [lia|done]).
  cbn [Json.quoteLoop].
  repeat match goal with
  | |- wellFormed (if ?b then _ else _) => destruct b eqn:?
  | |- wellFormed ([_; _] ++ _) =>
      apply wellFormed_app; [apply plainText_wellFormed; repeat constructor; lia|exact Hs']
  | |- wellFormed (Json.unicodeEscape _ ++ _) =>
      apply wellFormed_app;
        [apply plainText_wellFormed, unicodeEscape_plainText|exact Hs']
  end.
  - destruct s' as [|d s'']; [apply plainText_wellFormed, unicodeEscape_plainText|].
    destruct (Json.isLowSurrogate d) eqn:Hd.
    + apply wellFormed_pair; [done|done|].
      apply (IH (length s'')); [simpl in Hn; lia|done].
    + apply wellFormed_app;
        [apply plainText_wellFormed, unicodeEscape_plainText|exact Hs'].
  - by apply wellFormed_cons.
Qed.

Lemma quote_wellFormed (s : str) : wellFormed (Json.quote s).
Proof.
  unfold Json.quote.
  apply (wellFormed_app [34%N]); [by apply wellFormed_forallb|].
  apply wellFormed_app; [apply quoteLoop_wellFormed|by apply wellFormed_forallb].
Qed.

Lemma stringify_wellFormed (j : Json.json) : wellFormed (Json.stringify j).
Proof.
  induction j as [ | b | n | s | items IH | fields IH ] using json_nested_ind.
  - by apply wellFormed_forallb.
  - destruct b; by apply wellFormed_forallb.
  - apply plainText_wellFormed, intToString_plainText.
  - apply quote_wellFormed.
  - cbn [Json.stringify].
    apply wellFormed_app; [by apply wellFormed_forallb|].
    apply wellFormed_app; [|by apply wellFormed_forallb].
    apply wellFormed_join; [by apply wellFormed_forallb|].
    by apply Forall_map.
  - cbn [Json.stringify].
    apply wellFormed_app; [by apply wellFormed_forallb|].
    apply wellFormed_app; [|by apply wellFormed_forallb].
    apply wellFormed_join; [by apply wellFormed_forallb|].
    apply Forall_map. eapply Forall_impl; [exact IH|].
    intros [k v] Hv. cbn [fst snd] in *.
    apply wellFormed_app; [apply quote_wellFormed|].
    apply wellFormed_app; [by apply wellFormed_forallb|done].
Qed.

Lemma stringifyIndent_wellFormed (j : Json.json) (indent : str) :
  plainText indent -> wellFormed (Json.stringifyIndent indent j).
Proof.
  revert indent.
  induction j as [ | b | n | s | items IH | fields IH ] using json_nested_ind;
    intros indent Hindent; try apply stringify_wellFormed.
  - destruct items as [|v items]; [by apply wellFormed_forallb|].
    assert (plainText (indent ++ u "  ")) as Hinner
      by (apply plainText_app; [done|by apply plainText_forallb]).
    assert (wellFormed (u "," ++ [10%N] ++ indent ++ u "  ")) as Hsep.
    { apply plainText_wellFormed. apply plainText_app; [by apply plainText_forallb|].
      apply plainText_app; [by apply plainText_forallb|done]. }
    cbn [Json.stringifyIndent].
    apply wellFormed_app; [by apply wellFormed_forallb|].
    apply wellFormed_app; [by apply wellFormed_forallb|].
    apply wellFormed_app; [by apply plainText_wellFormed|].
    apply wellFormed_app.
    + apply wellFormed_join; [exact Hsep|].
      apply Forall_map. eapply Forall_impl; [exact IH|].
      intros x Hx. by apply Hx.
    + apply wellFormed_app; [by apply wellFormed_forallb|].
      apply wellFormed_app; [by apply plainText_wellFormed|by apply wellFormed_forallb].
  - destruct fields as [|kv fields]; [by apply wellFormed_forallb|].
    assert (plainText (indent ++ u "  ")) as Hinner
      by (apply plainText_app; [done|by apply plainText_forallb]).
    assert (wellFormed (u "," ++ [10%N] ++ indent ++ u "  ")) as Hsep.
    { apply plainText_wellFormed. apply plainText_app; [by apply plainText_forallb|].
      apply plainText_app; [by apply plainText_forallb|done]. }
    cbn [Json.stringifyIndent].
    apply wellFormed_app; [by apply wellFormed_forallb|].
    apply wellFormed_app; [by apply wellFormed_forallb|].
    apply wellFormed_app; [by apply plainText_wellFormed|].
    apply wellFormed_app.
    + apply wellFormed_join; [exact Hsep|].
      apply Forall_map. eapply Forall_impl; [exact IH|].
      intros [k x] Hx. cbn [fst snd] in *.
      apply wellFormed_app; [apply quote_wellFormed|].
      apply wellFormed_app; [by apply wellFormed_forallb|by apply Hx].
    + apply wellFormed_app; [by apply wellFormed_forallb|].
      apply wellFormed_app; [by apply plainText_wellFormed|by apply wellFormed_forallb].
Qed.

(** What [writeFileSync] leaves in the file when the text is well-formed. *)
Lemma writeFileSync_lookup (path content : str) (st : FsState) :
  wellFormed content ->
  files (Fs.writeFileSync path content st) !! path = Some content.
Proof.
  intros Hc. unfold Fs.writeFileSync. cbn [files]. rewrite lookup_insert_eq.
  by rewrite Hc.
Qed.

(** ** The transcript file and the index file are different files *)

Lemma not_elem_forallb (c : char) (l : str) :
  forallb (fun d => negb (N.eqb d c)) l = true -> c ∉ l.
Proof.
  intros H Hin. rewrite forallb_forall in H.
  apply list_elem_of_In in Hin. specialize (H _ Hin). by rewrite N.eqb_refl in H.
Qed.

Lemma splitChar_without (c : char) (b : str) : c ∉ b -> splitChar c b = [b].
Proof.
  intros Hb. rewrite <- (app_nil_r b) at 1.
  rewrite splitChar_app_piece by done. simpl. by rewrite app_nil_r.
Qed.

(** Text without the separator, put after a string, joins its last
    piece. *)
Lemma splitChar_app_last (c : char) (a : str) :
  exists init lastPiece,
    forall b, c ∉ b -> splitChar c (a ++ b) = init ++ [lastPiece ++ b].
Proof.
  induction a as [|d a (init & lastPiece & IH)].
  - exists [], []. intros b Hb. simpl. by apply splitChar_without.
  - destruct (N.eqb_spec c d) as [Heq|Hne].
    + exists ([] :: init), lastPiece. intros b Hb. simpl.
      rewrite <- Heq, N.eqb_refl. by rewrite IH.
    + destruct init as [|p ps].
      * exists [], (d :: lastPiece). intros b Hb. simpl.
        destruct (N.eqb_spec c d); [done|]. by rewrite IH.
      * exists ((d :: p) :: ps), lastPiece. intros b Hb. simpl.
        destruct (N.eqb_spec c d); [done|]. by rewrite IH.
Qed.

Lemma str_eqb_false (a b : str) : a <> b -> str_eqb a b = false.
Proof. intros H. unfold str_eqb. by apply bool_decide_eq_false. Qed.

Lemma normalizeLoop_last (allow : bool) (segs res : list str) (seg : str) :
  ordinarySegment seg ->
  exists kept, Path.normalizeLoop allow (segs ++ [seg]) res = kept ++ [seg].
Proof.
  intros (Hne & Hdot & Hdotdot). revert res.
  induction segs as [|s segs IH]; intros res.
  - simpl. rewrite !str_eqb_false by done. simpl. by eexists.
  - simpl.
    destruct (str_eqb s [] || str_eqb s Path.dot); [apply IH|].
    destruct (str_eqb s Path.dotdot); [|apply IH].
    destruct res as [|l res']; [apply IH|].
    destruct (str_eqb l Path.dotdot); apply IH.
Qed.

Lemma join_last (sep : str) (kept : list str) (seg : str) :
  exists front, join sep (kept ++ [seg]) = front ++ seg.
Proof.
  induction kept as [|p kept (front & IH)].
  - by exists [].
  - exists (p ++ sep ++ front).
    change ((p :: kept) ++ [seg]) with (p :: (kept ++ [seg])).
    destruct (kept ++ [seg]) as [|q rest] eqn:Hk.
    + by destruct kept.
    + change (join sep (p :: q :: rest)) with (p ++ sep ++ join sep (q :: rest)).
      rewrite IH. by rewrite <- !app_assoc.
Qed.

(** A path that ends in three or more code units without a slash keeps
    them at its end when normalized. *)
Lemma normalize_keeps_suffix (a b : str) :
  Path.slash ∉ b -> 3 <= length b ->
  exists front, Path.normalize (a ++ b) = front ++ b.
Proof.
  intros Hb Hlen.
  destruct (splitChar_app_last Path.slash a) as (init & lastPiece & Hsplit).
  specialize (Hsplit b Hb).
  assert (ordinarySegment (lastPiece ++ b)) as Hord.
  { unfold ordinarySegment, Path.dot, Path.dotdot.
    repeat split; intros Heq; apply (f_equal length) in Heq;
      rewrite length_app in Heq; simpl in Heq; lia. }
  assert (forall allow, exists front,
            Path.normalizeString (a ++ b) allow = front ++ b) as Hns.
  { intros allow. unfold Path.normalizeString.
    rewrite split_splitChar, Hsplit.
    destruct (normalizeLoop_last allow init [] _ Hord) as (kept & ->).
    destruct (join_last [Path.slash] kept (lastPiece ++ b)) as (front & ->).
    exists (front ++ lastPiece). by rewrite <- app_assoc. }
  assert (Path.endsWithSlash (a ++ b) = false) as Hend.
  { unfold Path.endsWithSlash. rewrite rev_app_distr.
    destruct (rev b) as [|x rb] eqn:Hrev.
    - apply (f_equal length) in Hrev. rewrite length_rev in Hrev. simpl in Hrev. lia.
    - simpl. apply N.eqb_neq. intros ->. apply Hb.
      rewrite <- (rev_involutive b), Hrev. simpl.
      apply elem_of_app. right. apply list_elem_of_singleton. done. }
  assert (Path.normalize (a ++ b) =
          match Path.normalizeString (a ++ b) (negb (Path.isAbsolute (a ++ b))) with
          | [] =>
              if Path.isAbsolute (a ++ b) then [Path.slash]
              else if Path.endsWithSlash (a ++ b) then Path.dot ++ [Path.slash]
              else Path.dot
          | _ :: _ =>
              let p := Path.normalizeString (a ++ b) (negb (Path.isAbsolute (a ++ b))) in
              let p' := if Path.endsWithSlash (a ++ b) then p ++ [Path.slash] else p in
              if Path.isAbsolute (a ++ b) then Path.slash :: p' else p'
          end) as ->.
  { assert (a ++ b <> []) as Hne.
    { intros Hab. apply (f_equal length) in Hab.
      rewrite length_app in Hab. simpl in Hab. lia. }
    revert Hne. generalize (a ++ b). intros [|x rest] Hne; [done|reflexivity]. }
  rewrite Hend.
  destruct (Hns (negb (Path.isAbsolute (a ++ b)))) as (front & ->).
  assert (front ++ b <> []) as Hfb.
  { intros Hfb. apply (f_equal length) in Hfb.
    rewrite length_app in Hfb. simpl in Hfb. lia. }
  cbv zeta.
  destruct (front ++ b) as [|y rest'] eqn:Heq; [done|]. rewrite <- Heq.
  destruct (Path.isAbsolute (a ++ b)).
  - by exists (Path.slash :: front).
  - by exists front.
Qed.

Lemma path_join_keeps_suffix (dir name b : str) :
  Path.slash ∉ b -> 3 <= length b ->
  exists front, Path.join [dir; name ++ b] = front ++ b.
Proof.
  intros Hb Hlen. unfold Path.join.
  assert (name ++ b <> []) as Hne.
  { intros Heq. apply (f_equal length) in Heq.
    rewrite length_app in Heq. simpl in Heq. lia. }
  destruct dir as [|d dir'].
  - rewrite filter_cons_False by (intros H; by apply H).
    rewrite filter_cons_True by done. rewrite filter_nil.
    change (join [Path.slash] [name ++ b]) with ([] ++ name ++ b).
    rewrite app_assoc. by apply normalize_keeps_suffix.
  - rewrite filter_cons_True by done.
    rewrite filter_cons_True by done. rewrite filter_nil.
    change (join [Path.slash] [d :: dir'; name ++ b])
      with ((d :: dir') ++ [Path.slash] ++ name ++ b).
    rewrite !app_assoc. by apply normalize_keeps_suffix.
Qed.

Lemma sessionPath_not_indexPath (rt : Runtime) (cwd sessionId : str) :
  Sessions.sessionPath rt cwd sessionId <> Sessions.indexPath rt cwd.
Proof.
  unfold Sessions.sessionPath, Sessions.indexPath.
  destruct (path_join_keeps_suffix (Sessions.projectDir rt cwd) sessionId (u ".jsonl"))
    as (f1 & ->); [by apply not_elem_forallb | simpl; lia |].
  destruct (path_join_keeps_suffix (Sessions.projectDir rt cwd) [] (u "sessions-index.json"))
    as (f2 & H2); [by apply not_elem_forallb | simpl; lia |].
  rewrite app_nil_l in H2. rewrite H2.
  intros Heq. apply (f_equal last) in Heq.
  rewrite !last_app in Heq. vm_compute in Heq. discriminate.
Qed.

(** ** Saving and loading a session (C7) *)

Lemma saveSession_writes_transcript
    (rt : Runtime) (now cwd sessionId : str) (m : Json.json)
    (messages : list Json.json) (st : FsState) :
  files (snd (Sessions.saveSession rt now cwd sessionId (m :: messages) st))
    !! Sessions.sessionPath rt cwd sessionId
  = Some (join [10%N] (map Json.stringify (m :: messages))).
Proof.
  assert (wellFormed (join [10%N] (map Json.stringify (m :: messages)))) as Hwell.
  { apply wellFormed_join; [by apply wellFormed_forallb|].
    apply Forall_map, Forall_forall. intros x _. apply stringify_wellFormed. }
  unfold Sessions.saveSession.
  destruct (Sessions.readIndex rt _ cwd) as [index|e].
  - cbn [snd]. unfold Sessions.writeIndex, Fs.writeFileSync at 1. cbn [files].
    rewrite lookup_insert_ne by (apply not_eq_sym, sessionPath_not_indexPath).
    by apply writeFileSync_lookup.
  - cbn [snd]. by apply writeFileSync_lookup.
Qed.

Lemma parseLines_stringify (messages : list Json.json) :
  Forall jsonSerializable messages ->
  Sessions.parseLines (map Json.stringify messages) = Some messages.
Proof.
  induction 1 as [|m rest Hm Hrest IH]; [done|].
  simpl. by rewrite Hm, IH.
Qed.

Lemma filter_nonempty_stringify (messages : list Json.json) :
  filter (fun l : str => l <> []) (map Json.stringify messages)
  = map Json.stringify messages.
Proof.
  induction messages as [|m rest IH]; [done|].
  simpl. rewrite filter_cons_True by apply stringify_nonempty. by rewrite IH.
Qed.

(** C7. After [saveSession] of a non-empty list of JSON-serializable
    messages, [loadSession] for the same directory and id returns that
    list, whatever the file system held before and whether or not the
    index could be updated. *)
Theorem saveSession_loadSession_roundtrip
    (rt : Runtime) (now cwd sessionId : str) (messages : list Json.json)
    (st : FsState) :
  messages <> [] ->
  Forall jsonSerializable messages ->
  Sessions.loadSession rt
    (snd (Sessions.saveSession rt now cwd sessionId messages st)) cwd sessionId
  = messages.
Proof.
  intros Hne Hser. destruct messages as [|m rest]; [done|].
  unfold Sessions.loadSession, Fs.readFileSync.
  rewrite saveSession_writes_transcript.
  rewrite split_join.
  - rewrite filter_nonempty_stringify, parseLines_stringify by done. done.
  - done.
  - apply Forall_map, Forall_forall. intros j _. apply stringify_noNewline.
Qed.

Lemma saveSession_loadSession_roundtrip_witness :
  let messages := [Samples.userMessage; Samples.assistantMessage] in
  messages <> []
  /\ Forall jsonSerializable messages
  /\ Sessions.loadSession Samples.posix
       (snd (Sessions.saveSession Samples.posix (u "2026-01-01T00:00:00.000Z")
               Samples.appDir (u "abcdefgh-1111") messages Samples.twoSessions))
       Samples.appDir (u "abcdefgh-1111")
     = messages.
Proof.
  intros messages.
  assert (messages <> []) as Hne by done.
  assert (Forall jsonSerializable messages) as Hser.
  { repeat constructor; vm_compute; reflexivity. }
  split; [exact Hne|]. split; [exact Hser|].
  exact (saveSession_loadSession_roundtrip Samples.posix _ _ _ messages _ Hne Hser).
Defined.

(** ** Double arithmetic *)

Lemma inject_Z_pos (d : Z) : (0 < d)%Z -> (0 < inject_Z d)%Q.
Proof. intros H. change (inject_Z 0 < inject_Z d)%Q. rewrite <- Zlt_Qlt. exact H. Qed.

Lemma inject_Z_nonneg (d : Z) : (0 <= d)%Z -> (0 <= inject_Z d)%Q.
Proof. intros H. change (inject_Z 0 <= inject_Z d)%Q. rewrite <- Zle_Qle. exact H. Qed.

Lemma pow2_pos (e : Z) : (0 < 2 ^ e)%Q.
Proof. apply Qpower_0_lt. reflexivity. Qed.

Lemma pow2_mono (a b : Z) : (a <= b)%Z -> (2 ^ a <= 2 ^ b)%Q.
Proof. intros H. apply Qpower_le_compat_l; [exact H | discriminate]. Qed.

Lemma pow2_plus (a b : Z) : (2 ^ (a + b) == 2 ^ a * 2 ^ b)%Q.
Proof. apply Qpower_plus. discriminate. Qed.

Lemma pow2_Z (n : Z) : (0 <= n)%Z -> (inject_Z (2 ^ n) == 2 ^ n)%Q.
Proof. intros H. apply (Zpower_Qpower 2 n H). Qed.

(** [ilog2 q] is the integer part of the binary logarithm of [|q|]. *)
Lemma ilog2_lower (q : Q) : ~ (q == 0)%Q -> (2 ^ Double.ilog2 q <= Qabs q)%Q.
Proof.
  intros Hq. unfold Double.ilog2.
  set (n := Z.abs (Qnum q)). set (d := Zpos (Qden q)).
  destruct (Qle_bool (2 ^ (Z.log2 n - Z.log2 d)) (Qabs q)) eqn:Hle.
  - apply Qle_bool_iff. exact Hle.
  - assert (Hn : (0 < n)%Z).
    { subst n. destruct q as [[|p|p] dq]; simpl; try lia.
      exfalso. apply Hq. reflexivity. }
    assert (Hd : (0 < d)%Z) by (subst d; lia).
    destruct (Z.log2_spec n Hn) as [Hn1 _].
    destruct (Z.log2_spec d Hd) as [_ Hd2].
    pose proof (Z.log2_nonneg n) as Hln. pose proof (Z.log2_nonneg d) as Hld.
    assert (Habs : (Qabs q == inject_Z n / inject_Z d)%Q).
    { subst n d. destruct q as [qn qd]. unfold Qabs. simpl Qnum. simpl Qden.
      rewrite (Qmake_Qdiv (Z.abs qn) qd). reflexivity. }
    rewrite Habs.
    assert (Hdq : (0 < inject_Z d)%Q) by (apply inject_Z_pos; exact Hd).
    apply Qle_shift_div_l; [exact Hdq|].
    replace (Z.log2 n - Z.log2 d - 1)%Z with (Z.log2 n + - (Z.log2 d + 1))%Z by lia.
    rewrite pow2_plus, Qpower_opp.
    rewrite <- (pow2_Z (Z.log2 n)) by lia.
    rewrite <- (pow2_Z (Z.log2 d + 1)) by lia.
    replace (Z.succ (Z.log2 d)) with (Z.log2 d + 1)%Z in Hd2 by lia.
    assert (Hp : (0 < inject_Z (2 ^ (Z.log2 d + 1)))%Q).
    { apply inject_Z_pos. lia. }
    assert (H1 : (inject_Z (2 ^ Z.log2 n) <= inject_Z n)%Q) by (rewrite <- Zle_Qle; exact Hn1).
    assert (H2 : (inject_Z d <= inject_Z (2 ^ (Z.log2 d + 1)))%Q) by (rewrite <- Zle_Qle; lia).
    assert (H0 : (0 <= inject_Z (2 ^ Z.log2 n))%Q) by (apply inject_Z_nonneg; lia).
    set (A := inject_Z (2 ^ Z.log2 n)) in *. set (B := inject_Z (2 ^ (Z.log2 d + 1))) in *.
    set (N := inject_Z n) in *. set (D := inject_Z d) in *.
    apply Qle_trans with (A * / B * B)%Q.
    + apply Qmult_le_compat_nonneg.
      * split; [|apply Qle_refl]. apply Qmult_le_0_compat; [exact H0|].
        apply Qlt_le_weak, Qinv_lt_0_compat, Hp.
      * split; [apply Qlt_le_weak, Hdq | exact H2].
    + assert (E : (A * / B * B == A)%Q) by (field; intros HB; rewrite HB in Hp; discriminate).
      rewrite E. exact H1.
Qed.

Lemma ilog2_upper (q : Q) : ~ (q == 0)%Q -> (Qabs q < 2 ^ (Double.ilog2 q + 1))%Q.
Proof.
  intros Hq. unfold Double.ilog2.
  set (n := Z.abs (Qnum q)). set (d := Zpos (Qden q)).
  destruct (Qle_bool (2 ^ (Z.log2 n - Z.log2 d)) (Qabs q)) eqn:Hle.
  - assert (Hn : (0 < n)%Z).
    { subst n. destruct q as [[|p|p] dq]; simpl; try lia.
      exfalso. apply Hq. reflexivity. }
    assert (Hd : (0 < d)%Z) by (subst d; lia).
    destruct (Z.log2_spec n Hn) as [_ Hn2].
    destruct (Z.log2_spec d Hd) as [Hd1 _].
    pose proof (Z.log2_nonneg n) as Hln. pose proof (Z.log2_nonneg d) as Hld.
    assert (Habs : (Qabs q == inject_Z n / inject_Z d)%Q).
    { subst n d. destruct q as [qn qd]. unfold Qabs. simpl Qnum. simpl Qden.
      rewrite (Qmake_Qdiv (Z.abs qn) qd). reflexivity. }
    rewrite Habs.
    assert (Hdq : (0 < inject_Z d)%Q) by (apply inject_Z_pos; exact Hd).
    apply Qlt_shift_div_r; [exact Hdq|].
    replace (Z.log2 n - Z.log2 d + 1)%Z with ((Z.log2 n + 1) + - Z.log2 d)%Z by lia.
    rewrite pow2_plus, Qpower_opp.
    rewrite <- (pow2_Z (Z.log2 n + 1)) by lia.
    rewrite <- (pow2_Z (Z.log2 d)) by lia.
    replace (Z.succ (Z.log2 n)) with (Z.log2 n + 1)%Z in Hn2 by lia.
    assert (Hp : (0 < inject_Z (2 ^ Z.log2 d))%Q) by (apply inject_Z_pos; lia).
    assert (H1 : (inject_Z n < inject_Z (2 ^ (Z.log2 n + 1)))%Q) by (rewrite <- Zlt_Qlt; exact Hn2).
    assert (H2 : (inject_Z (2 ^ Z.log2 d) <= inject_Z d)%Q) by (rewrite <- Zle_Qle; exact Hd1).
    set (A := inject_Z (2 ^ (Z.log2 n + 1))) in *. set (B := inject_Z (2 ^ Z.log2 d)) in *.
    set (N := inject_Z n) in *. set (D := inject_Z d) in *.
    assert (HAB : (0 < A * / B)%Q).
    { apply Qmult_lt_0_compat; [|apply Qinv_lt_0_compat, Hp].
      subst A. apply inject_Z_pos. lia. }
    apply Qlt_le_trans with (A * / B * B)%Q.
    + assert (E : (A * / B * B == A)%Q) by (field; intros HB; rewrite HB in Hp; discriminate).
      rewrite E. exact H1.
    + rewrite (Qmult_comm _ B), (Qmult_comm _ D).
      apply Qmult_le_compat_r; [exact H2 | apply Qlt_le_weak, HAB].
  - replace (Z.log2 n - Z.log2 d - 1 + 1)%Z with (Z.log2 n - Z.log2 d)%Z by lia.
    apply Qnot_le_lt. intros H. apply Qle_bool_iff in H. congruence.
Qed.

(** The nearest integer is at most a half away. *)
Lemma nearestEven_error (q : Q) :
  (q - (1 # 2) <= inject_Z (Double.nearestEven q) <= q + (1 # 2))%Q.
Proof.
  unfold Double.nearestEven.
  pose proof (Qfloor_le q) as Hlo. pose proof (Qlt_floor q) as Hhi.
  rewrite inject_Z_plus in Hhi. change (inject_Z 1) with 1%Q in Hhi.
  set (f := Qfloor q) in *.
  destruct (Qcompare_spec (q - inject_Z f) (1 # 2)) as [He|Hlt|Hgt].
  - destruct (Z.even f).
    + split; lra.
    + rewrite inject_Z_plus. change (inject_Z 1) with 1%Q. split; lra.
  - split; lra.
  - rewrite inject_Z_plus. change (inject_Z 1) with 1%Q. split; lra.
Qed.

Lemma exponent_le (q : Q) (E : Z) :
  ~ (q == 0)%Q -> (-1022 <= E)%Z -> (Qabs q < 2 ^ (E + 1))%Q ->
  (Double.exponent q <= E - 52)%Z.
Proof.
  intros Hq HE Hlt. unfold Double.exponent.
  assert (Double.ilog2 q <= E)%Z; [|lia].
  destruct (Z_le_gt_dec (Double.ilog2 q) E) as [H|H]; [exact H|exfalso].
  pose proof (ilog2_lower q Hq) as Hlow.
  assert (Hm : (2 ^ (E + 1) <= 2 ^ Double.ilog2 q)%Q) by (apply pow2_mono; lia).
  lra.
Qed.

(** Rounding to a double moves a number below [2^(E+1)] in absolute value
    by at most [2^(E-53)], half a unit in the last place. *)
Lemma round_error (q : Q) (E : Z) :
  (-1022 <= E)%Z -> (Qabs q < 2 ^ (E + 1))%Q ->
  (q - 2 ^ (E - 53) <= Double.round q <= q + 2 ^ (E - 53))%Q.
Proof.
  intros HE Hlt.
  pose proof (pow2_pos (E - 53)) as HposE.
  unfold Double.round. rewrite Qred_correct.
  set (e := Double.exponent q).
  pose proof (pow2_pos e) as Hpos.
  pose proof (nearestEven_error (q / 2 ^ e)) as [Hlo Hhi].
  set (m := inject_Z (Double.nearestEven (q / 2 ^ e))) in *.
  assert (Hne : ~ (2 ^ e == 0)%Q) by (intros H0; rewrite H0 in Hpos; discriminate).
  assert (Hq : (q == q / 2 ^ e * 2 ^ e)%Q) by (field; exact Hne).
  assert (Hlo' : ((q / 2 ^ e - (1 # 2)) * 2 ^ e <= m * 2 ^ e)%Q).
  { apply Qmult_le_compat_r; [exact Hlo | apply Qlt_le_weak, Hpos]. }
  assert (Hhi' : (m * 2 ^ e <= (q / 2 ^ e + (1 # 2)) * 2 ^ e)%Q).
  { apply Qmult_le_compat_r; [exact Hhi | apply Qlt_le_weak, Hpos]. }
  assert (E1 : ((q / 2 ^ e - (1 # 2)) * 2 ^ e == q - (1 # 2) * 2 ^ e)%Q) by (field; exact Hne).
  assert (E2 : ((q / 2 ^ e + (1 # 2)) * 2 ^ e == q + (1 # 2) * 2 ^ e)%Q) by (field; exact Hne).
  rewrite E1 in Hlo'. rewrite E2 in Hhi'.
  destruct (Qeq_dec q 0) as [Hz|Hnz].
  - assert (Hm : (m * 2 ^ e == 0)%Q).
    { assert (Hd : (q / 2 ^ e == 0)%Q) by (rewrite Hz; unfold Qdiv; apply Qmult_0_l).
      rewrite Hd in Hlo, Hhi. subst m.
      assert (H1 : (inject_Z (-1) < inject_Z (Double.nearestEven (q / 2 ^ e)))%Q).
      { change (inject_Z (-1)) with (-1)%Q. lra. }
      assert (H2 : (inject_Z (Double.nearestEven (q / 2 ^ e)) < inject_Z 1)%Q).
      { change (inject_Z 1) with 1%Q. lra. }
      rewrite <- Zlt_Qlt in H1, H2.
      replace (Double.nearestEven (q / 2 ^ e)) with 0%Z by lia.
      apply Qmult_0_l. }
    rewrite Hm, Hz. split; lra.
  - assert (Hexp : (e <= E - 52)%Z) by (apply exponent_le; assumption).
    assert (Hhalf : ((1 # 2) * 2 ^ e <= 2 ^ (E - 53))%Q).
    { replace (E - 53)%Z with ((E - 52) + -1)%Z by lia.
      rewrite pow2_plus. change (2 ^ (-1))%Q with (1 # 2)%Q.
      pose proof (pow2_mono e (E - 52) Hexp). lra. }
    split; lra.
Qed.

(** The rounded number is a double: 53 bits of significand, and an
    exponent that is not below the subnormal one. *)
Lemma round_is_double (q : Q) :
  exists m e : Z,
    (Double.round q == inject_Z m * 2 ^ e)%Q
    /\ (- 2 ^ 53 <= m <= 2 ^ 53)%Z /\ (-1074 <= e)%Z.
Proof.
  exists (Double.nearestEven (q / 2 ^ Double.exponent q)), (Double.exponent q).
  split; [unfold Double.round; apply Qred_correct|].
  split; [|unfold Double.exponent; lia].
  change (2 ^ 53)%Z with 9007199254740992%Z.
  set (e := Double.exponent q).
  pose proof (pow2_pos e) as Hpos.
  pose proof (nearestEven_error (q / 2 ^ e)) as [Hlo Hhi].
  set (m := Double.nearestEven (q / 2 ^ e)) in *.
  assert (Hx : (- 9007199254740992 < q / 2 ^ e < 9007199254740992)%Q).
  { destruct (Qeq_dec q 0) as [Hz|Hnz].
    - assert (Hd : (q / 2 ^ e == 0)%Q) by (rewrite Hz; unfold Qdiv; apply Qmult_0_l).
      rewrite Hd. split; reflexivity.
    - pose proof (ilog2_upper q Hnz) as Hup.
      assert (He : (Double.ilog2 q + 1 <= e + 53)%Z) by (unfold e, Double.exponent; lia).
      pose proof (pow2_mono _ _ He) as Hmono. rewrite (pow2_plus e 53) in Hmono.
      change (2 ^ 53)%Q with 9007199254740992%Q in Hmono.
      assert (Habs : (Qabs q < 9007199254740992 * 2 ^ e)%Q) by lra.
      apply Qabs_Qlt_condition in Habs as [Hl Hr].
      split.
      + apply Qlt_shift_div_l; [exact Hpos|]. lra.
      + apply Qlt_shift_div_r; [exact Hpos|]. lra. }
  destruct Hx as [Hx1 Hx2].
  assert (H1 : (inject_Z (- 9007199254740992 - 1) < inject_Z m)%Q).
  { change (inject_Z (- 9007199254740992 - 1)) with (- 9007199254740992 - 1)%Q. lra. }
  assert (H2 : (inject_Z m < inject_Z (9007199254740992 + 1))%Q).
  { change (inject_Z (9007199254740992 + 1)) with (9007199254740992 + 1)%Q. lra. }
  rewrite <- Zlt_Qlt in H1, H2. lia.
Qed.

Lemma round_within (q : Q) (E : Z) (bound err : Q) :
  (-1022 <= E)%Z -> (2 ^ (E + 1) == bound)%Q -> (2 ^ (E - 53) == err)%Q ->
  (- bound < q < bound)%Q ->
  (q - err <= Double.round q <= q + err)%Q.
Proof.
  intros HE Hb He Hq. rewrite <- He. apply round_error; [exact HE|].
  rewrite Hb. apply Qabs_Qlt_condition. exact Hq.
Qed.

Example Double_round_examples :
  Double.round (1 # 10) = (3602879701896397 # 36028797018963968)%Q
  /\ Double.round (1 # 3) = (6004799503160661 # 18014398509481984)%Q
  /\ Double.round (9007199254740993 # 1) = 9007199254740992%Q
  /\ Double.round (9007199254740995 # 1) = 9007199254740996%Q
  /\ Double.add (Double.round (1 # 10)) (Double.round (1 # 5))
     = (1351079888211149 # 4503599627370496)%Q
  /\ Double.mul 1000 (1 # 4) = 250%Q.
Proof. repeat split; vm_compute; reflexivity. Qed.

(** ** The retry policy (C5) *)

(** The delay is the exact [base + base * 0.25 * (random * 2 - 1)] rounded
    to an integer, up to the rounding of the four double operations. *)
Lemma jittered_close (base : Z) (r : Q) :
  base = 1000%Z \/ base = 2000%Z -> (0 <= r)%Q -> (r < 1)%Q ->
  (Qabs (inject_Z (Retry.jittered base r)
         - (inject_Z base + inject_Z base * (1 # 4) * (r * 2 - 1)))
   <= (1 # 2) + (1 # 1000000))%Q.
Proof.
  intros Hbase Hr0 Hr1. unfold Retry.jittered, Retry.round.
  unfold Double.add, Double.sub, Double.mul.
  pose proof (round_within (r * 2) 0 2 (1 # 9007199254740992) ltac:(lia)
                ltac:(reflexivity) ltac:(reflexivity) ltac:(lra)) as H1.
  set (a1 := Double.round (r * 2)) in *.
  pose proof (round_within (a1 - 1) 0 2 (1 # 9007199254740992) ltac:(lia)
                ltac:(reflexivity) ltac:(reflexivity) ltac:(lra)) as H2.
  set (a2 := Double.round (a1 - 1)) in *.
  assert (Hq : exists q : Q, Double.round (inject_Z base * (1 # 4)) = q /\
                 (q == inject_Z base * (1 # 4))%Q /\ (q <= 500)%Q /\ (0 <= q)%Q).
  { destruct Hbase as [-> | ->].
    - exists 250%Q. split; [vm_compute; reflexivity|].
      split; [reflexivity|]. split; discriminate.
    - exists 500%Q. split; [vm_compute; reflexivity|].
      split; [reflexivity|]. split; discriminate. }
  destruct Hq as (q & -> & Hq & Hq500 & Hq0).
  assert (Hb : (inject_Z base == 4 * q)%Q) by lra.
  assert (Hprod : (q * a2 - q * (2 * r - 1) <= 500 * (1 # 4503599627370496))%Q
                  /\ (q * (2 * r - 1) - q * a2 <= 500 * (1 # 4503599627370496))%Q).
  { split; nra. }
  destruct Hprod as [Hp1 Hp2].
  assert (Hrange : (- 500 <= q * (2 * r - 1) <= 500)%Q) by (split; nra).
  pose proof (round_within (q * a2) 8 512 (1 # 35184372088832) ltac:(lia)
                ltac:(reflexivity) ltac:(reflexivity) ltac:(lra)) as H3.
  set (j := Double.round (q * a2)) in *.
  pose proof (round_within (inject_Z base + j) 11 4096 (1 # 4398046511104) ltac:(lia)
                ltac:(reflexivity) ltac:(reflexivity) ltac:(lra)) as H4.
  set (t := Double.round (inject_Z base + j)) in *.
  pose proof (Qfloor_le (t + (1 # 2))) as Hlo.
  pose proof (Qlt_floor (t + (1 # 2))) as Hhi.
  rewrite inject_Z_plus in Hhi. change (inject_Z 1) with 1%Q in Hhi.
  set (d := inject_Z (Qfloor (t + (1 # 2)))) in *.
  assert (Hexact : (inject_Z base + inject_Z base * (1 # 4) * (r * 2 - 1)
                    == inject_Z base + q * (2 * r - 1))%Q).
  { rewrite Hb. ring. }
  rewrite Hexact. apply Qabs_Qle_condition. split; lra.
Qed.

(** Delays the code computes: at [Math.random() = 0.6549999999999999] the
    sum [base + jitter] is the double [1077.5], where the exact value lies
    just below it; the ends of the range are reached at [0] and at the
    largest double below [1]. *)
Example jittered_examples :
  Retry.jittered 1000 (5899715511855349 # 9007199254740992) = 1078%Z
  /\ Retry.jittered 2000 (5899715511855349 # 9007199254740992) = 2155%Z
  /\ Retry.jittered 1000 0 = 750%Z
  /\ Retry.jittered 1000 (1 # 2) = 1000%Z
  /\ Retry.jittered 1000 (9007199254740991 # 9007199254740992) = 1250%Z
  /\ Retry.jittered 2000 (1 # 8) = 1625%Z.
Proof. repeat split; vm_compute; reflexivity. Qed.

(** The jittered delay stays within a quarter of its base. *)
Lemma jittered_within_quarter (base : Z) (r : Q) :
  base = 1000%Z \/ base = 2000%Z -> (0 <= r)%Q -> (r < 1)%Q ->
  (3 * base <= 4 * Retry.jittered base r <= 5 * base)%Z.
Proof.
  intros Hbase Hr0 Hr1.
  pose proof (jittered_close base r Hbase Hr0 Hr1) as Hclose.
  apply Qabs_Qle_condition in Hclose as [Hlo Hhi].
  set (d := Retry.jittered base r) in *.
  assert (Hq : exists q : Z, base = (4 * q)%Z /\ (inject_Z base == 4 * inject_Z q)%Q
                             /\ (0 <= inject_Z q)%Q).
  { destruct Hbase as [-> | ->]; [exists 250%Z | exists 500%Z];
      (split; [reflexivity|]; split; [reflexivity | discriminate]). }
  destruct Hq as (q & Hbq & Hb & Hq0).
  assert (Hjit : (- inject_Z q <= inject_Z q * (r * 2 - 1) <= inject_Z q)%Q) by (split; nra).
  assert (H1 : (inject_Z (3 * q) < inject_Z (d + 1))%Q).
  { rewrite inject_Z_plus, inject_Z_mult.
    change (inject_Z 3) with 3%Q. change (inject_Z 1) with 1%Q.
    rewrite Hb in Hlo. lra. }
  assert (H2 : (inject_Z d < inject_Z (5 * q + 1))%Q).
  { rewrite inject_Z_plus, inject_Z_mult.
    change (inject_Z 5) with 5%Q. change (inject_Z 1) with 1%Q.
    rewrite Hb in Hhi. lra. }
  rewrite <- Zlt_Qlt in H1, H2. lia.
Qed.

Lemma baseDelay_S (k : nat) : Retry.baseDelay (S k) = (1000 * 2 ^ Z.of_nat k)%Z.
Proof.
  unfold Retry.baseDelay, Retry.BASE_DELAY_MS.
  by replace (Z.of_nat (S k) - 1)%Z with (Z.of_nat k) by lia.
Qed.

Section RetryPolicy.

Context {T : Type} (rt : Runtime) (w : Retry.World T).



(** The loop, from any attempt on. *)
Lemma retryLoop_spec (remaining attempt : nat) (lastErr : option Thrown) :
  1 <= remaining -> attempt + remaining = S Retry.MAX_ATTEMPTS ->
  let run := Retry.retryLoop rt w remaining attempt lastErr in
  1 <= Retry.calls run <= remaining
  /\ Retry.settled run = Retry.fn w (attempt + Retry.calls run - 1)
  /\ Retry.slept run = map (fun r => snd (fst r)) (Retry.retries run)
  /\ length (Retry.retries run) = Retry.calls run - 1
  /\ (forall k a d e,
        Retry.retries run !! k = Some (a, d, e) ->
        a = attempt + k
        /\ Retry.fn w a = Rejected e
        /\ Retry.isRetryable rt e = true
        /\ d = Retry.jittered (Retry.baseDelay a) (Retry.random w a)).
Proof.
  revert attempt lastErr.
  induction remaining as [|rem IH]; intros attempt lastErr Hrem Hsum; [lia|].
  cbn [Retry.retryLoop].
  destruct (Retry.fn w attempt) as [v|err] eqn:Hfn.
  { cbv zeta. cbn [Retry.settled Retry.calls Retry.retries Retry.slept length map].
    replace (attempt + 1 - 1) with attempt by lia.
    split; [lia|]. split; [done|]. split; [done|]. split; [done|].
    intros k a d e Hk. by destruct k. }
  destruct (negb (Retry.isRetryable rt err) || Nat.eqb attempt Retry.MAX_ATTEMPTS
            || Retry.aborted w attempt) eqn:Hstop.
  { cbv zeta. cbn [Retry.settled Retry.calls Retry.retries Retry.slept length map].
    replace (attempt + 1 - 1) with attempt by lia.
    split; [lia|]. split; [done|]. split; [done|]. split; [done|].
    intros k a d e Hk. by destruct k. }
  apply orb_false_iff in Hstop as [Hstop Habort].
  apply orb_false_iff in Hstop as [Hretry Hlast].
  apply negb_false_iff in Hretry. apply Nat.eqb_neq in Hlast.
  assert (1 <= rem) as Hrem' by (unfold Retry.MAX_ATTEMPTS in *; lia).
  specialize (IH (S attempt) (Some err) Hrem' ltac:(lia)).
  cbv zeta in IH. destruct IH as (Hcalls & Hsettled & Hslept & Hlen & Hretries).
  cbv zeta. cbn [Retry.settled Retry.calls Retry.retries Retry.slept length map fst snd].
  split; [lia|]. split.
  { rewrite Hsettled. f_equal. lia. }
  split; [by rewrite Hslept|]. split; [lia|].
  intros [|k] a d e Hk.
  - simpl in Hk. injection Hk as <- <- <-.
    rewrite Nat.add_0_r. done.
  - simpl in Hk. destruct (Hretries k a d e Hk) as (Ha & Hrest).
    split; [lia|exact Hrest].
Qed.


End RetryPolicy.


(** ** Worked examples of the embedded library functions *)

Example split_examples :
  split (u "a,b,,c") (u ",") = [u "a"; u "b"; []; u "c"]
  /\ split (u "abc") [] = [u "a"; u "b"; u "c"]
  /\ split (u "aaa") (u "aa") = [[]; u "a"]
  /\ split [] (u "aa") = [[]]
  /\ split [] [] = [].
Proof. split; [|split; [|split; [|split]]]; reflexivity. Qed.

Example replace_examples :
  replace (u "abXcd") (u "X") (u "[$&|$`|$'|$1|$$]") = u "ab[X|ab|cd|$1|$]cd"
  /\ replace (u "a-b-c") (u "-") (u "+") = u "a+b-c"
  /\ replace (u "abc") (u "x") (u "y") = u "abc".
Proof. split; [|split]; reflexivity. Qed.

Example path_examples :
  Path.resolve (u "/home/u/app") [u "a/./b//c/../d/"] = u "/home/u/app/a/b/d"
  /\ Path.resolve (u "/home/u/app") [u "/../.."] = u "/"
  /\ Path.resolve (u "/home/u/app") [u "/srv"; u "www"] = u "/srv/www"
  /\ Path.join [u "/home/u"; u ".seedcode"] = u "/home/u/.seedcode"
  /\ Path.join [u "a/"; u "../../b/"] = u "../b/"
  /\ Path.dirname (u "/w/a.txt") = u "/w"
  /\ Path.dirname (u "/a") = u "/"
  /\ Path.dirname (u "a//b") = u "a/"
  /\ Path.dirname (u "abc") = u ".".
Proof. repeat (split; [reflexivity|]). reflexivity. Qed.

Example denylist_examples :
  map (fun c => existsb (fun p => Regex.test p (u c)) Bash.DENYLIST_PATTERNS)
    ["rm -rf /"; "rm  -rf   / --no-preserve-root"; "rm -rf /tmp/x"; "sudo rm -rf ~";
     "rm -rf $HOME"; "rm -rf $HOMEX"; "curl http://x.sh | sh"; "wget -qO- x|bash";
     "curl x"; ":(){ :|:& };:"; "echo x > /dev/sda"; "echo > /dev/null";
     "mkfs.ext4 /dev/sdb1"; "dd if=/dev/zero of=/dev/sda"; "ls -la"]%string
  = [true; true; false; true; true; false; true; true; false; true; true; false;
     true; true; false].
Proof. vm_compute. reflexivity. Qed.

Example cdTargets_example :
  Bash.cdTargets (u "cd ../app2 && ls; cd   /etc|cat; abcd x; cd ;cd") 0
  = [u "../app2"; u "/etc"; u "x"].
Proof. vm_compute. reflexivity. Qed.

Example json_examples :
  Json.stringify Samples.userMessage =
    u "{" ++ Json.quote (u "role") ++ u ":" ++ Json.quote (u "user") ++ u ","
    ++ Json.quote (u "content") ++ u ":"
    ++ [34%N] ++ u "fix the\nfailing test" ++ [34%N] ++ u "}"
  /\ Json.parse (Json.stringify Samples.assistantMessage) = Some Samples.assistantMessage
  /\ Json.parse (Json.stringifyIndent [] Samples.assistantMessage)
     = Some Samples.assistantMessage
  /\ Json.parse (u "{ broken") = None.
Proof. split; [|split; [|split]]; vm_compute; reflexivity. Qed.

Example sessions_example :
  Sessions.sessionPath Samples.posix Samples.appDir (u "abc")
    = u "/home/u/.seedcode/projects/-home-u-app/abc.jsonl"
  /\ Sessions.indexPath Samples.posix Samples.appDir
    = u "/home/u/.seedcode/projects/-home-u-app/sessions-index.json"
  /\ (match Sessions.listSessions Samples.posix Samples.twoSessions Samples.appDir with
      | Ok es => map (fun e => (Sessions.sessionId e, Sessions.messageCount e)) es
      | Throw _ => []
      end) = [(u "abcdefgh-2222", 1%Z); (u "abcdefgh-1111", 2%Z)].
Proof. split; [|split]; vm_compute; reflexivity. Qed.

(* ===================================================================== *)
(** * Properties of the rest of the code                                  *)
(* ===================================================================== *)

Ltac divmod_lia := zify; Z.to_euclidean_division_equations; lia.

Lemma hexValue_hexDigit (n : N) : (n < 16)%N -> Json.hexValue (Json.hexDigit n) = Some n.
Proof.
  intros Hn. unfold Json.hexValue, Json.hexDigit.
  destruct (N.ltb_spec n 10).
  - replace ((48 <=? 48 + n) && (48 + n <=? 57))%N with true
      by (symmetry; apply andb_true_iff; split; apply N.leb_le; lia).
    f_equal. lia.
  - replace ((48 <=? 87 + n) && (87 + n <=? 57))%N with false
      by (symmetry; apply andb_false_iff; right; apply N.leb_gt; lia).
    replace ((97 <=? 87 + n) && (87 + n <=? 102))%N with true
      by (symmetry; apply andb_true_iff; split; apply N.leb_le; lia).
    f_equal. lia.
Qed.

Lemma parseChars_unicodeEscape (c : char) (tail : str) :
  (c < 65536)%N ->
  Json.parseChars (Json.unicodeEscape c ++ tail) = Json.consFst c (Json.parseChars tail).
Proof.
  intros Hc. unfold Json.unicodeEscape. cbn [app Json.parseChars].
  cbn [N.eqb Pos.eqb].
  rewrite !hexValue_hexDigit by (apply N.mod_upper_bound; lia).
  f_equal. divmod_lia.
Qed.

Lemma skipWs_spaces (w s : str) : jsonSpaces w -> Json.skipWs (w ++ s) = Json.skipWs s.
Proof. induction 1 as [|c w Hc _ IH]; [done|]. simpl. by rewrite Hc. Qed.

Lemma parseChars_raw (c : char) (tail : str) :
  c <> 34%N -> c <> 92%N -> (32 <= c)%N ->
  Json.parseChars (c :: tail) = Json.consFst c (Json.parseChars tail).
Proof.
  intros H34 H92 H32. cbn [Json.parseChars].
  destruct (N.eqb_spec c 34); [done|]. destruct (N.eqb_spec c 92); [done|].
  destruct (N.ltb_spec c 32); [lia|done].
Qed.

Lemma parseChars_quoteLoop (s rest : str) :
  Json.parseChars (Json.quoteLoop s ++ 34%N :: rest) = Some (s, rest).
Proof.
  remember (length s) as n eqn:Hn. revert s Hn.
  induction n as [n IH] using lt_wf_ind. intros [|c s'] Hn.
  { simpl. done. }
  simpl in Hn.
  assert (Json.parseChars (Json.quoteLoop s' ++ 34%N :: rest) = Some (s', rest)) as Hs'
    by (apply (IH (length s')); [lia|done]).
  cbn [Json.quoteLoop].
  destruct (N.eqb_spec c 8) as [->|H8]; [simpl app; cbn; by rewrite Hs'|].
  destruct (N.eqb_spec c 9) as [->|H9]; [simpl app; cbn; by rewrite Hs'|].
  destruct (N.eqb_spec c 10) as [->|H10]; [simpl app; cbn; by rewrite Hs'|].
  destruct (N.eqb_spec c 12) as [->|H12]; [simpl app; cbn; by rewrite Hs'|].
  destruct (N.eqb_spec c 13) as [->|H13]; [simpl app; cbn; by rewrite Hs'|].
  destruct (N.eqb_spec c 34) as [->|H34]; [simpl app; cbn; by rewrite Hs'|].
  destruct (N.eqb_spec c 92) as [->|H92]; [simpl app; cbn; by rewrite Hs'|].
  destruct (N.ltb_spec c 32) as [Hlt|Hge].
  { rewrite <- app_assoc, parseChars_unicodeEscape by lia. by rewrite Hs'. }
  destruct (Json.isHighSurrogate c) eqn:Hhigh.
  { unfold Json.isHighSurrogate in Hhigh. apply andb_true_iff in Hhigh as [Hh1 Hh2].
    apply N.leb_le in Hh1, Hh2.
    destruct s' as [|d s''].
    - rewrite parseChars_unicodeEscape by lia. simpl. done.
    - destruct (Json.isLowSurrogate d) eqn:Hlow.
      + unfold Json.isLowSurrogate in Hlow. apply andb_true_iff in Hlow as [Hl1 Hl2].
        apply N.leb_le in Hl1, Hl2.
        change ((c :: d :: Json.quoteLoop s'') ++ 34%N :: rest)
          with (c :: d :: (Json.quoteLoop s'' ++ 34%N :: rest)).
        rewrite parseChars_raw by lia. rewrite parseChars_raw by lia.
        rewrite (IH (length s'')); [done|simpl in Hn; lia|done].
      + rewrite <- app_assoc, parseChars_unicodeEscape by lia. by rewrite Hs'. }
  destruct (Json.isLowSurrogate c) eqn:Hlow.
  { unfold Json.isLowSurrogate in Hlow. apply andb_true_iff in Hlow as [Hl1 Hl2].
    apply N.leb_le in Hl1, Hl2.
    rewrite <- app_assoc, parseChars_unicodeEscape by lia. by rewrite Hs'. }
  change ((c :: Json.quoteLoop s') ++ 34%N :: rest)
    with (c :: (Json.quoteLoop s' ++ 34%N :: rest)).
  rewrite parseChars_raw by lia. by rewrite Hs'.
Qed.

(** *** Number tokens *)

Lemma digitsLoop_value (fuel : nat) (n : N) (acc : str) :
  N.to_nat n < fuel ->
  fold_left digitStep (digitsLoop fuel n acc) 0%Z = fold_left digitStep acc (Z.of_N n).
Proof.
  revert n acc. induction fuel as [|fuel IH]; intros n acc Hfuel; [lia|].
  cbn [digitsLoop]. destruct (N.ltb_spec n 10) as [Hlt|Hge].
  - cbn [fold_left]. f_equal. unfold digitStep. divmod_lia.
  - rewrite IH by divmod_lia. cbn [fold_left]. f_equal. unfold digitStep. divmod_lia.
Qed.

Lemma digitsLoop_head (fuel : nat) (n : N) (acc : str) :
  (0 < n)%N -> N.to_nat n < fuel ->
  exists d tl, digitsLoop fuel n acc = d :: tl /\ d <> 48%N.
Proof.
  revert n acc. induction fuel as [|fuel IH]; intros n acc Hpos Hfuel; [lia|].
  cbn [digitsLoop]. destruct (N.ltb_spec n 10) as [Hlt|Hge].
  - eexists _, _. split; [done|]. divmod_lia.
  - apply IH; divmod_lia.
Qed.

Lemma isDigit_of_isDigitChar (c : char) : isDigitChar c -> Json.isDigit c = true.
Proof.
  unfold isDigitChar, Json.isDigit. intros [H1 H2].
  apply andb_true_iff. split; apply N.leb_le; lia.
Qed.

Lemma spanDigits_app (ds rest : str) :
  Forall isDigitChar ds -> endsNumber rest ->
  Json.spanDigits (ds ++ rest) = (ds, rest).
Proof.
  intros Hds Hrest. induction Hds as [|d ds Hd _ IH].
  - destruct rest as [|c rest']; [done|]. simpl in *.
    destruct Hrest as (Hc & _). by rewrite Hc.
  - simpl. rewrite (isDigit_of_isDigitChar d Hd). by rewrite IH.
Qed.

Lemma parseInt_nonzero_head (d : char) (s : str) :
  d <> 48%N ->
  Json.parseInt (d :: s) =
  match Json.spanDigits (d :: s) with
  | ([], _) => None
  | (ds, rest) => Some (Json.digitsValue ds, rest)
  end.
Proof.
  intros Hd. unfold Json.parseInt.
  destruct d as [|p]; [done|].
  do 6 (destruct p as [p|p|]; try done).
Qed.

Lemma parseInt_natToString (n : nat) (rest : str) :
  endsNumber rest ->
  Json.parseInt (natToString n ++ rest) = Some (Z.of_nat n, rest).
Proof.
  intros Hrest. destruct n as [|n'].
  { reflexivity. }
  destruct (digitsLoop_head (S (S n')) (N.of_nat (S n')) []) as (d & tl & Hhead & Hd);
    [lia|lia|].
  fold (natToString (S n')) in Hhead.
  pose proof (natToString_digits (S n')) as Hdigits.
  assert (fold_left digitStep (natToString (S n')) 0%Z = Z.of_nat (S n')) as Hvalue.
  { unfold natToString. rewrite digitsLoop_value by lia. simpl. lia. }
  rewrite Hhead in *. cbn [app].
  rewrite parseInt_nonzero_head by done.
  change (d :: tl ++ rest) with ((d :: tl) ++ rest).
  rewrite spanDigits_app by done.
  change (Json.digitsValue (d :: tl)) with (fold_left digitStep (d :: tl) 0%Z).
  by rewrite Hvalue.
Qed.

Lemma parseNumber_intToString (z : Z) (rest : str) :
  endsNumber rest ->
  Json.parseNumber (intToString z ++ rest) = Some (Json.JNumber z, rest).
Proof.
  intros Hrest.
  assert (match rest with
          | c :: _ => N.eqb c 46 || N.eqb c 101 || N.eqb c 69 = false
          | [] => True
          end) as Hstop.
  { destruct rest as [|c rest']; [done|]. simpl in Hrest.
    destruct Hrest as (_ & H1 & H2 & H3).
    destruct (N.eqb_spec c 46); [done|]. destruct (N.eqb_spec c 101); [done|].
    by destruct (N.eqb_spec c 69). }
  unfold intToString. destruct (Z.ltb_spec z 0) as [Hneg|Hpos].
  - unfold Json.parseNumber. cbn [app].
    rewrite parseInt_natToString by done.
    replace (- Z.of_nat (Z.to_nat (- z)))%Z with z by lia.
    destruct rest as [|c rest']; [done|]. by rewrite Hstop.
  - pose proof (natToString_digits (Z.to_nat z)) as Hdigits.
    pose proof (natToString_nonempty (Z.to_nat z)) as Hne.
    destruct (natToString (Z.to_nat z)) as [|d tl] eqn:Htext; [done|].
    inversion Hdigits as [|? ? Hd _]; subst.
    assert (Json.parseNumber ((d :: tl) ++ rest) =
            match Json.parseInt ((d :: tl) ++ rest) with
            | Some (n, rest0) =>
                match rest0 with
                | c :: _ =>
                    if N.eqb c 46 || N.eqb c 101 || N.eqb c 69 then None
                    else Some (Json.JNumber n, rest0)
                | [] => Some (Json.JNumber n, rest0)
                end
            | None => None
            end) as ->.
    { unfold Json.parseNumber. cbn [app]. unfold isDigitChar in Hd.
      destruct d as [|p]; [done|].
      do 6 (destruct p as [p|p|]; try done); lia. }
    rewrite <- Htext, parseInt_natToString by done.
    replace (Z.of_nat (Z.to_nat z)) with z by lia.
    destruct rest as [|c rest']; [done|]. by rewrite Hstop.
Qed.

Lemma endsNumber_after_spaces (w : str) (c : char) (rest : str) :
  jsonSpaces w -> Json.isDigit c = false -> c <> 46%N -> c <> 101%N -> c <> 69%N ->
  endsNumber (w ++ c :: rest).
Proof.
  intros Hw Hc1 Hc2 Hc3 Hc4. destruct Hw as [|x w Hx _]; [done|].
  simpl. unfold Json.isJsonSpace in Hx.
  repeat split.
  - unfold Json.isDigit.
    destruct (N.eqb_spec x 32) as [->|]; [done|]. destruct (N.eqb_spec x 9) as [->|]; [done|].
    destruct (N.eqb_spec x 10) as [->|]; [done|]. by destruct (N.eqb_spec x 13) as [->|].
  - intros ->. done.
  - intros ->. done.
  - intros ->. done.
Qed.

Lemma skipWs_startsValue (w text rest : str) :
  jsonSpaces w -> startsValue text -> Json.skipWs (w ++ text ++ rest) = text ++ rest.
Proof.
  intros Hw Htext. rewrite skipWs_spaces by done.
  destruct text as [|c t]; [done|]. destruct Htext as (Hc & _). simpl. by rewrite Hc.
Qed.

Lemma intToString_head (z : Z) :
  exists d tl, intToString z = d :: tl /\ (d = 45%N \/ isDigitChar d).
Proof.
  unfold intToString. destruct (z <? 0)%Z.
  - eexists _, _. split; [done|]. by left.
  - pose proof (natToString_digits (Z.to_nat z)) as Hdigits.
    pose proof (natToString_nonempty (Z.to_nat z)) as Hne.
    destruct (natToString (Z.to_nat z)) as [|d tl]; [done|].
    inversion Hdigits; subst. eexists _, _. split; [done|]. by right.
Qed.

Lemma parseValue_number (fuel : nat) (w text rest : str) (d : char) (tl : str) :
  jsonSpaces w -> text = d :: tl -> d = 45%N \/ isDigitChar d ->
  Json.parseValue (S fuel) (w ++ text ++ rest) = Json.parseNumber (text ++ rest).
Proof.
  intros Hw -> Hd. cbn [Json.parseValue]. rewrite skipWs_spaces by done.
  assert (Json.isJsonSpace d = false) as Hspace.
  { unfold Json.isJsonSpace, isDigitChar in *.
    destruct (N.eqb_spec d 32); [lia|]. destruct (N.eqb_spec d 9); [lia|].
    destruct (N.eqb_spec d 10); [lia|]. destruct (N.eqb_spec d 13); [lia|]. done. }
  cbn [app Json.skipWs]. rewrite Hspace.
  unfold isDigitChar in Hd.
  destruct (N.eqb_spec d 34); [lia|]. destruct (N.eqb_spec d 91); [lia|].
  destruct (N.eqb_spec d 123); [lia|]. destruct (N.eqb_spec d 110); [lia|].
  destruct (N.eqb_spec d 116); [lia|]. destruct (N.eqb_spec d 102); [lia|]. done.
Qed.

(** *** Arrays and objects *)

Lemma parseValue_array (fuel : nat) (w rest0 : str) (c : char) (t : str) :
  jsonSpaces w -> Json.skipWs rest0 = c :: t -> c <> 93%N ->
  Json.parseValue (S fuel) (w ++ 91%N :: rest0) =
  match Json.parseElements fuel rest0 with
  | Some (xs, r) => Some (Json.JArray xs, r)
  | None => None
  end.
Proof.
  intros Hw Hskip Hc. cbn [Json.parseValue]. rewrite skipWs_spaces by done.
  cbn [Json.skipWs Json.isJsonSpace N.eqb Pos.eqb orb]. rewrite Hskip.
  destruct c as [|p]; [done|].
  do 7 (destruct p as [p|p|]; try done).
Qed.

Lemma parseValue_object (fuel : nat) (w rest0 : str) (c : char) (t : str) :
  jsonSpaces w -> Json.skipWs rest0 = c :: t -> c <> 125%N ->
  Json.parseValue (S fuel) (w ++ 123%N :: rest0) =
  match Json.parseMembers fuel rest0 with
  | Some (kvs, r) => Some (Json.JObject kvs, r)
  | None => None
  end.
Proof.
  intros Hw Hskip Hc. cbn [Json.parseValue]. rewrite skipWs_spaces by done.
  cbn [Json.skipWs Json.isJsonSpace N.eqb Pos.eqb orb]. rewrite Hskip.
  destruct c as [|p]; [done|].
  do 7 (destruct p as [p|p|]; try done).
Qed.

Section Containers.

Variable render : Json.json -> str.
Variables sepWs endWs colonWs : str.
Hypothesis sepWs_spaces : jsonSpaces sepWs.
Hypothesis endWs_spaces : jsonSpaces endWs.
Hypothesis colonWs_spaces : jsonSpaces colonWs.

Lemma parseElements_rendered (items : list Json.json) :
  items <> [] ->
  Forall (fun v => parsesAs v (render v) (jsize v)) items ->
  forall fuel w rest,
    list_sum (map (fun v => S (jsize v)) items) <= fuel -> jsonSpaces w ->
    Json.parseElements fuel
      (w ++ join (44%N :: sepWs) (map render items) ++ endWs ++ 93%N :: rest)
    = Some (items, rest).
Proof using sepWs_spaces endWs_spaces.
  intros Hne Hall. induction Hall as [|v vs Hv Hvs IH]; [done|].
  intros fuel w rest Hfuel Hw.
  change (S (jsize v) + list_sum (map (fun v => S (jsize v)) vs) <= fuel) in Hfuel.
  destruct fuel as [|f]; [lia|].
  cbn [Json.parseElements].
  destruct vs as [|v2 vs'].
  - cbn [map join].
    rewrite (Hv f w (endWs ++ 93%N :: rest)); [|lia|done|].
    + rewrite skipWs_spaces by done. done.
    + by apply endsNumber_after_spaces.
  - change (join (44%N :: sepWs) (map render (v :: v2 :: vs')))
      with (render v ++ (44%N :: sepWs) ++ join (44%N :: sepWs) (map render (v2 :: vs'))).
    rewrite <- !app_assoc.
    rewrite (Hv f w); [|lia|done|simpl; done].
    cbn [app Json.skipWs Json.isJsonSpace N.eqb Pos.eqb orb].
    rewrite (IH ltac:(done) f sepWs rest); [done|lia|done].
Qed.

Lemma parseMembers_rendered (fields : list (str * Json.json)) :
  fields <> [] ->
  Forall (fun kv => parsesAs (snd kv) (render (snd kv)) (jsize (snd kv))) fields ->
  forall fuel w rest,
    list_sum (map (fun kv => S (jsize (snd kv))) fields) <= fuel -> jsonSpaces w ->
    Json.parseMembers fuel
      (w ++ join (44%N :: sepWs)
              (map (fun kv => Json.quote (fst kv) ++ 58%N :: colonWs ++ render (snd kv)) fields)
         ++ endWs ++ 125%N :: rest)
    = Some (fields, rest).
Proof using sepWs_spaces endWs_spaces colonWs_spaces.
  intros Hne Hall. induction Hall as [|[k v] kvs Hv Hkvs IH]; [done|].
  intros fuel w rest Hfuel Hw.
  change (S (jsize v) + list_sum (map (fun kv => S (jsize (snd kv))) kvs) <= fuel)
    in Hfuel.
  destruct fuel as [|f]; [lia|].
  cbn [Json.parseMembers]. cbn [snd fst] in Hv.
  destruct kvs as [|kv2 kvs'].
  - cbn [map join fst snd]. rewrite skipWs_spaces by done.
    unfold Json.quote.
    cbn [app Json.skipWs Json.isJsonSpace N.eqb Pos.eqb orb].
    rewrite <- !app_assoc. cbn [app].
    rewrite parseChars_quoteLoop.
    cbn [Json.skipWs Json.isJsonSpace N.eqb Pos.eqb orb].
    rewrite <- ?app_assoc.
    rewrite (Hv f colonWs (endWs ++ 125%N :: rest)); [|lia|done|].
    + rewrite skipWs_spaces by done. done.
    + by apply endsNumber_after_spaces.
  - change (join (44%N :: sepWs)
              (map (fun kv => Json.quote (fst kv) ++ 58%N :: colonWs ++ render (snd kv))
                   ((k, v) :: kv2 :: kvs')))
      with ((Json.quote k ++ 58%N :: colonWs ++ render v) ++ (44%N :: sepWs)
            ++ join (44%N :: sepWs)
                 (map (fun kv => Json.quote (fst kv) ++ 58%N :: colonWs ++ render (snd kv))
                      (kv2 :: kvs'))).
    rewrite skipWs_spaces by done.
    unfold Json.quote at 1.
    cbn [app Json.skipWs Json.isJsonSpace N.eqb Pos.eqb orb].
    rewrite <- !app_assoc. cbn [app].
    rewrite parseChars_quoteLoop.
    cbn [Json.skipWs Json.isJsonSpace N.eqb Pos.eqb orb].
    rewrite <- ?app_assoc.
    rewrite (Hv f colonWs); [|lia|done|simpl; done].
    cbn [app Json.skipWs Json.isJsonSpace N.eqb Pos.eqb orb].
    rewrite (IH ltac:(done) f sepWs rest); [done|lia|done].
Qed.

End Containers.

Lemma startsValue_intToString (z : Z) : startsValue (intToString z).
Proof.
  destruct (intToString_head z) as (d & tl & -> & Hd). simpl.
  unfold Json.isJsonSpace, isDigitChar in *.
  destruct (N.eqb_spec d 32); [lia|]. destruct (N.eqb_spec d 9); [lia|].
  destruct (N.eqb_spec d 10); [lia|]. destruct (N.eqb_spec d 13); [lia|].
  repeat split; [intros ->; lia..].
Qed.

Lemma startsValue_stringifyIndent (indent : str) (j : Json.json) :
  startsValue (Json.stringifyIndent indent j).
Proof.
  destruct j as [ | [|] | n | s | [|v vs] | [|kv kvs] ]; try (by simpl);
    apply startsValue_intToString.
Qed.

Lemma startsValue_stringify (j : Json.json) : startsValue (Json.stringify j).
Proof.
  destruct j as [ | [|] | n | s | items | fields ]; try (by simpl);
    apply startsValue_intToString.
Qed.

Lemma parsesAs_literal (word : string) (j : Json.json) :
  (forall rest, Json.parseValue 1 (u word ++ rest) = Some (j, rest)) ->
  startsValue (u word) ->
  (forall f rest, Json.parseValue (S f) (u word ++ rest) = Json.parseValue 1 (u word ++ rest)) ->
  parsesAs j (u word) 1.
Proof.
  intros Hone Hstart Hfuel fuel w rest Hle Hw _.
  destruct fuel as [|f]; [lia|].
  cbn [Json.parseValue]. rewrite skipWs_startsValue by done.
  specialize (Hfuel f rest). specialize (Hone rest).
  cbn [Json.parseValue] in Hfuel, Hone.
  assert (Json.skipWs (u word ++ rest) = u word ++ rest) as Hskip
    by (apply (skipWs_startsValue [] (u word) rest); [constructor|done]).
  rewrite Hskip in Hfuel, Hone. by rewrite Hfuel.
Qed.

Lemma parsesAs_leaf (j : Json.json) (indent : str) :
  match j with Json.JArray _ | Json.JObject _ => False | _ => True end ->
  parsesAs j (Json.stringify j) 1.
Proof.
  intros Hleaf. destruct j as [ | [|] | n | s | items | fields ]; try done.
  - by apply parsesAs_literal.
  - by apply parsesAs_literal.
  - by apply parsesAs_literal.
  - intros fuel w rest Hle Hw Hrest. destruct fuel as [|f]; [lia|].
    destruct (intToString_head n) as (d & tl & Htext & Hd).
    cbn [Json.stringify].
    rewrite (parseValue_number f w _ rest d tl Hw Htext Hd).
    by apply parseNumber_intToString.
  - intros fuel w rest Hle Hw Hrest. destruct fuel as [|f]; [lia|].
    cbn [Json.stringify Json.parseValue]. rewrite skipWs_spaces by done.
    unfold Json.quote. cbn [app Json.skipWs Json.isJsonSpace N.eqb Pos.eqb orb].
    rewrite <- app_assoc. cbn [app]. by rewrite parseChars_quoteLoop.
Qed.

Lemma skipWs_join_head (w sep x tail : str) (l : list str) :
  jsonSpaces w -> startsValue x ->
  exists c t, Json.skipWs (w ++ join sep (x :: l) ++ tail) = c :: t
              /\ c <> 93%N /\ c <> 125%N.
Proof.
  intros Hw Hx. rewrite skipWs_spaces by done.
  destruct x as [|c x']; [done|]. destruct Hx as (Hc1 & Hc2 & Hc3).
  exists c. destruct l; cbn [join app Json.skipWs]; rewrite Hc1; by eexists.
Qed.

(** Pretty-printed text is read back as the value it prints. *)
Lemma stringifyIndent_parsesAs (j : Json.json) :
  forall indent, jsonSpaces indent ->
  parsesAs j (Json.stringifyIndent indent j) (jsize j).
Proof.
  induction j as [ | b | n | s | items IH | fields IH ] using json_nested_ind;
    intros indent Hindent.
  - by apply (parsesAs_leaf Json.JNull).
  - by apply (parsesAs_leaf (Json.JBool b)).
  - by apply (parsesAs_leaf (Json.JNumber n)).
  - by apply (parsesAs_leaf (Json.JString s)).
  - assert (jsonSpaces (indent ++ u "  ")) as Hinner
      by (apply Forall_app; split; [done|by repeat constructor]).
    intros fuel w rest Hfuel Hw Hrest.
    destruct fuel as [|f]; [simpl in Hfuel; lia|].
    destruct items as [|v vs].
    { cbn [Json.stringifyIndent Json.parseValue]. rewrite skipWs_spaces by done. done. }
    assert (Json.stringifyIndent indent (Json.JArray (v :: vs)) ++ rest =
            91%N :: ((10%N :: indent ++ u "  ")
                     ++ join (44%N :: 10%N :: indent ++ u "  ")
                          (map (Json.stringifyIndent (indent ++ u "  ")) (v :: vs))
                     ++ (10%N :: indent) ++ 93%N :: rest)) as ->.
    { cbn [Json.stringifyIndent u app]. rewrite <- !app_assoc. cbn [app].
      rewrite <- ?app_assoc. reflexivity. }
    destruct (skipWs_join_head (10%N :: indent ++ u "  ")
                (44%N :: 10%N :: indent ++ u "  ")
                (Json.stringifyIndent (indent ++ u "  ") v)
                ((10%N :: indent) ++ 93%N :: rest)
                (map (Json.stringifyIndent (indent ++ u "  ")) vs))
      as (c & t & Hskip & Hc & _);
      [by constructor | apply startsValue_stringifyIndent |].
    change (Json.stringifyIndent (indent ++ u "  ") v
            :: map (Json.stringifyIndent (indent ++ u "  ")) vs)
      with (map (Json.stringifyIndent (indent ++ u "  ")) (v :: vs)) in Hskip.
    rewrite (parseValue_array f w _ c t Hw Hskip Hc).
    rewrite (parseElements_rendered (Json.stringifyIndent (indent ++ u "  "))
               (10%N :: indent ++ u "  ") (10%N :: indent)); try done.
    + by constructor.
    + by constructor.
    + eapply Forall_impl; [exact IH|]. intros x Hx. by apply Hx.
    + cbn [jsize] in Hfuel. lia.
    + by constructor.
  - assert (jsonSpaces (indent ++ u "  ")) as Hinner
      by (apply Forall_app; split; [done|by repeat constructor]).
    intros fuel w rest Hfuel Hw Hrest.
    destruct fuel as [|f]; [simpl in Hfuel; lia|].
    destruct fields as [|[k v] kvs].
    { cbn [Json.stringifyIndent Json.parseValue]. rewrite skipWs_spaces by done. done. }
    assert (Json.stringifyIndent indent (Json.JObject ((k, v) :: kvs)) ++ rest =
            123%N :: ((10%N :: indent ++ u "  ")
                     ++ join (44%N :: 10%N :: indent ++ u "  ")
                          (map (fun kv => Json.quote (fst kv) ++ 58%N :: [32%N]
                                          ++ Json.stringifyIndent (indent ++ u "  ") (snd kv))
                               ((k, v) :: kvs))
                     ++ (10%N :: indent) ++ 125%N :: rest)) as ->.
    { cbn [Json.stringifyIndent u app]. rewrite <- !app_assoc. cbn [app].
      rewrite <- ?app_assoc. reflexivity. }
    destruct (skipWs_join_head (10%N :: indent ++ u "  ")
                (44%N :: 10%N :: indent ++ u "  ")
                (Json.quote k ++ 58%N :: [32%N]
                 ++ Json.stringifyIndent (indent ++ u "  ") v)
                ((10%N :: indent) ++ 125%N :: rest)
                (map (fun kv => Json.quote (fst kv) ++ 58%N :: [32%N]
                                ++ Json.stringifyIndent (indent ++ u "  ") (snd kv)) kvs))
      as (c & t & Hskip & _ & Hc); [by constructor | by simpl |].
    change ((Json.quote k ++ 58%N :: [32%N] ++ Json.stringifyIndent (indent ++ u "  ") v)
            :: map (fun kv => Json.quote (fst kv) ++ 58%N :: [32%N]
                               ++ Json.stringifyIndent (indent ++ u "  ") (snd kv)) kvs)
      with (map (fun kv => Json.quote (fst kv) ++ 58%N :: [32%N]
                           ++ Json.stringifyIndent (indent ++ u "  ") (snd kv))
                ((k, v) :: kvs)) in Hskip.
    rewrite (parseValue_object f w _ c t Hw Hskip Hc).
    rewrite (parseMembers_rendered (Json.stringifyIndent (indent ++ u "  "))
               (10%N :: indent ++ u "  ") (10%N :: indent) [32%N]); try done.
    + by constructor.
    + by constructor.
    + by repeat constructor.
    + eapply Forall_impl; [exact IH|]. intros x Hx. by apply Hx.
    + cbn [jsize] in Hfuel. lia.
    + by constructor.
Qed.

(** *** Enough fuel *)

Lemma list_sum_join (sep : str) (texts : list str) :
  1 <= length sep ->
  list_sum (map (fun x => S (length x)) texts) <= S (length (join sep texts)).
Proof.
  intros Hsep. induction texts as [|x rest IH]; [simpl; lia|].
  change (list_sum (map (fun x => S (length x)) (x :: rest)))
    with (S (length x) + list_sum (map (fun x => S (length x)) rest)).
  destruct rest as [|y rest'].
  - simpl. lia.
  - change (join sep (x :: y :: rest')) with (x ++ sep ++ join sep (y :: rest')).
    rewrite !length_app. lia.
Qed.

Lemma list_sum_doubled {A} (f g : A -> nat) (l : list A) :
  Forall (fun a => f a <= 2 * g a) l ->
  list_sum (map (fun a => S (f a)) l) <= 2 * list_sum (map (fun a => S (g a)) l).
Proof.
  induction 1 as [|a l Ha _ IH]; [simpl; lia|].
  change (S (f a) + list_sum (map (fun a => S (f a)) l)
          <= 2 * (S (g a) + list_sum (map (fun a => S (g a)) l))). lia.
Qed.

Lemma intToString_nonempty (z : Z) : 1 <= length (intToString z).
Proof. destruct (intToString_head z) as (d & tl & -> & _). simpl. lia. Qed.

Lemma jsize_le_length (j : Json.json) :
  forall indent, jsize j <= 2 * length (Json.stringifyIndent indent j).
Proof.
  induction j as [ | b | n | s | items IH | fields IH ] using json_nested_ind;
    intros indent.
  - simpl. lia.
  - destruct b; simpl; lia.
  - cbn [jsize Json.stringifyIndent Json.stringify].
    pose proof (intToString_nonempty n). lia.
  - simpl. lia.
  - destruct items as [|v vs]; [simpl; lia|].
    set (inner := indent ++ u "  ").
    set (texts := map (Json.stringifyIndent inner) (v :: vs)).
    assert (Json.stringifyIndent indent (Json.JArray (v :: vs)) =
            u "[" ++ [10%N] ++ inner ++ join (u "," ++ [10%N] ++ inner) texts
            ++ [10%N] ++ indent ++ u "]") as -> by reflexivity.
    assert (list_sum (map (fun v => S (jsize v)) (v :: vs))
            <= 2 * S (length (join (u "," ++ [10%N] ++ inner) texts))) as Hsum.
    { etransitivity; [apply (list_sum_doubled jsize
                               (fun v => length (Json.stringifyIndent inner v)))|].
      - eapply Forall_impl; [exact IH|]. intros x Hx. apply Hx.
      - pose proof (list_sum_join (u "," ++ [10%N] ++ inner) texts ltac:(simpl; lia)) as H.
        unfold texts in *. rewrite map_map in H. lia. }
    change (jsize (Json.JArray (v :: vs)))
      with (S (list_sum (map (fun v => S (jsize v)) (v :: vs)))).
    rewrite !length_app.
    change (length (u "[")) with 1. change (length (u "]")) with 1. lia.
  - destruct fields as [|kv kvs]; [simpl; lia|].
    set (inner := indent ++ u "  ").
    set (texts := map (fun kv => Json.quote (fst kv) ++ u ": "
                                 ++ Json.stringifyIndent inner (snd kv)) (kv :: kvs)).
    assert (Json.stringifyIndent indent (Json.JObject (kv :: kvs)) =
            u "{" ++ [10%N] ++ inner ++ join (u "," ++ [10%N] ++ inner) texts
            ++ [10%N] ++ indent ++ u "}") as -> by reflexivity.
    assert (list_sum (map (fun kv => S (jsize (snd kv))) (kv :: kvs))
            <= 2 * S (length (join (u "," ++ [10%N] ++ inner) texts))) as Hsum.
    { etransitivity;
        [apply (list_sum_doubled (fun kv => jsize (snd kv))
                  (fun kv => length (Json.quote (fst kv) ++ u ": "
                                     ++ Json.stringifyIndent inner (snd kv))))|].
      - eapply Forall_impl; [exact IH|]. intros x Hx. cbn beta.
        rewrite !length_app. specialize (Hx inner). lia.
      - pose proof (list_sum_join (u "," ++ [10%N] ++ inner) texts ltac:(simpl; lia)) as H.
        unfold texts in *. rewrite map_map in H. lia. }
    change (jsize (Json.JObject (kv :: kvs)))
      with (S (list_sum (map (fun kv => S (jsize (snd kv))) (kv :: kvs)))).
    rewrite !length_app.
    change (length (u "{")) with 1. change (length (u "}")) with 1. lia.
Qed.

(** [JSON.parse] reads [JSON.stringify(value, null, 2)] back as the
    value. *)
Lemma parse_stringifyIndent (j : Json.json) :
  Json.parse (Json.stringifyIndent [] j) = Some j.
Proof.
  unfold Json.parse.
  pose proof (stringifyIndent_parsesAs j [] ltac:(constructor)
                (2 * length (Json.stringifyIndent [] j) + 2) [] []) as H.
  rewrite app_nil_r in H. cbn [app] in H.
  rewrite H; [done| |constructor|done].
  pose proof (jsize_le_length j []). lia.
Qed.

(** ** The session index on disk *)

Lemma decodeEntry_encodeEntry (e : Sessions.SessionEntry) :
  Sessions.decodeEntry (Sessions.encodeEntry e) = Some e.
Proof. destruct e. reflexivity. Qed.

Lemma decodeEntries_encodeEntry (es : list Sessions.SessionEntry) :
  Sessions.decodeEntries (map Sessions.encodeEntry es) = Some es.
Proof.
  induction es as [|e es IH]; [done|].
  cbn [map Sessions.decodeEntries]. by rewrite decodeEntry_encodeEntry, IH.
Qed.

Lemma decodeIndex_encodeIndex (index : Sessions.SessionsIndex) :
  Sessions.decodeIndex (Sessions.encodeIndex index) = Ok index.
Proof.
  destruct index as [v es]. unfold Sessions.decodeIndex, Sessions.encodeIndex.
  change (Sessions.getNumber (u "version") _) with (Some v).
  change (Json.getField (u "entries") _)
    with (Some (Json.JArray (map Sessions.encodeEntry es))).
  cbv iota beta. by rewrite decodeEntries_encodeEntry.
Qed.

Lemma readIndex_written
    (rt : Runtime) (cwd : str) (index : Sessions.SessionsIndex) (st : FsState) :
  Sessions.readIndex rt (Sessions.writeIndex rt cwd index st) cwd = Ok index.
Proof.
  unfold Sessions.readIndex, Sessions.writeIndex, Fs.readFileSync.
  rewrite writeFileSync_lookup by (apply stringifyIndent_wellFormed; constructor).
  rewrite parse_stringifyIndent. apply decodeIndex_encodeIndex.
Qed.

(** X1. What [writeIndex] writes, [readIndex] reads back. *)
Theorem readIndex_writeIndex
    (rt : Runtime) (cwd : str) (index : Sessions.SessionsIndex) (st : FsState) :
  Sessions.readIndex rt (Sessions.writeIndex rt cwd index st) cwd = Ok index.
Proof.
  unfold Sessions.readIndex, Sessions.writeIndex, Fs.readFileSync.
  rewrite writeFileSync_lookup by (apply stringifyIndent_wellFormed; constructor).
  rewrite parse_stringifyIndent. apply decodeIndex_encodeIndex.
Qed.

Lemma readIndex_same_file (rt : Runtime) (st1 st2 : FsState) (cwd : str) :
  files st1 !! Sessions.indexPath rt cwd = files st2 !! Sessions.indexPath rt cwd ->
  Sessions.readIndex rt st1 cwd = Sessions.readIndex rt st2 cwd.
Proof. intros H. unfold Sessions.readIndex, Fs.readFileSync. by rewrite H. Qed.

Lemma findIndex_None (id : str) (es : list Sessions.SessionEntry) :
  Sessions.findIndex id es = None <-> id ∉ map Sessions.sessionId es.
Proof.
  induction es as [|e es IH]; [simpl; split; [intros _; apply not_elem_of_nil|done]|].
  cbn [Sessions.findIndex map]. unfold str_eqb.
  rewrite not_elem_of_cons. destruct (bool_decide_reflect (Sessions.sessionId e = id)) as [Heq|Hne].
  - split; [done|]. intros [H _]. by destruct H.
  - destruct (Sessions.findIndex id es); simpl.
    + split; [done|]. intros [_ H]. by apply IH in H.
    + split; [|done]. intros _. split; [done|]. by apply IH.
Qed.

Lemma findIndex_Some (id : str) (es : list Sessions.SessionEntry) (i : nat) :
  Sessions.findIndex id es = Some i ->
  exists old, es !! i = Some old /\ Sessions.sessionId old = id.
Proof.
  revert i. induction es as [|e es IH]; intros i H; [done|].
  cbn [Sessions.findIndex] in H. unfold str_eqb in H.
  destruct (bool_decide_reflect (Sessions.sessionId e = id)) as [Heq|Hne].
  - injection H as <-. by exists e.
  - destruct (Sessions.findIndex id es) as [j|] eqn:Hj; [|done].
    injection H as <-. destruct (IH j eq_refl) as (old & Hold & Hid). by exists old.
Qed.

Lemma filter_insert_excluded {A} (P : A -> Prop) `{forall x, Decision (P x)}
    (l : list A) (i : nat) (x old : A) :
  l !! i = Some old -> ~ P old -> ~ P x -> filter P (<[i := x]> l) = filter P l.
Proof.
  revert i. induction l as [|y l IH]; intros i Hi Hold Hx; [done|].
  destruct i as [|i]; simpl in *.
  - injection Hi as ->. rewrite !filter_cons. by rewrite !decide_False.
  - rewrite !filter_cons. by rewrite (IH i).
Qed.

Lemma NoDup_unique_by {A B} (f : A -> B) (l : list A) (x y : A) :
  NoDup (map f l) -> x ∈ l -> y ∈ l -> f x = f y -> x = y.
Proof.
  induction l as [|a l IH]; intros Hnd Hx Hy Hf; [by apply elem_of_nil in Hx|].
  cbn [map] in Hnd. apply NoDup_cons in Hnd as [Ha Hnd].
  apply elem_of_cons in Hx as [->|Hx]; apply elem_of_cons in Hy as [->|Hy].
  - done.
  - exfalso. apply Ha. rewrite Hf. apply list_elem_of_fmap. by exists y.
  - exfalso. apply Ha. rewrite <- Hf. apply list_elem_of_fmap. by exists x.
  - by apply IH.
Qed.

Lemma readIndex_after_transcript (rt : Runtime) (cwd id text : str) (st : FsState) :
  Sessions.readIndex rt
    (Fs.writeFileSync (Sessions.sessionPath rt cwd id) text (Sessions.ensureDir rt cwd st)) cwd
  = Sessions.readIndex rt st cwd.
Proof.
  apply readIndex_same_file. unfold Fs.writeFileSync, Sessions.ensureDir, Fs.mkdirSync.
  cbn [files]. apply lookup_insert_ne, sessionPath_not_indexPath.
Qed.

(** What [saveSession] does to the index: one entry for the id, the other
    entries as they were. *)
Lemma saveSession_index
    (rt : Runtime) (now cwd id : str) (messages : list Json.json) (st : FsState)
    (index : Sessions.SessionsIndex) :
  messages <> [] ->
  Sessions.readIndex rt st cwd = Ok index ->
  NoDup (map Sessions.sessionId (Sessions.entries index)) ->
  exists index' entry,
    fst (Sessions.saveSession rt now cwd id messages st) = Ok tt
    /\ Sessions.readIndex rt (snd (Sessions.saveSession rt now cwd id messages st)) cwd
       = Ok index'
    /\ Sessions.version index' = Sessions.version index
    /\ NoDup (map Sessions.sessionId (Sessions.entries index'))
    /\ entry ∈ Sessions.entries index'
    /\ Sessions.sessionId entry = id
    /\ Sessions.messageCount entry = Z.of_nat (length messages)
    /\ Sessions.modified entry = now
    /\ (id ∉ map Sessions.sessionId (Sessions.entries index) ->
        Sessions.created entry = now
        /\ Sessions.entries index' = Sessions.entries index ++ [entry])
    /\ (forall old, old ∈ Sessions.entries index -> Sessions.sessionId old = id ->
        Sessions.created entry = Sessions.created old
        /\ length (Sessions.entries index') = length (Sessions.entries index)
        /\ forall i, Sessions.entries index !! i = Some old ->
                     Sessions.entries index' = <[i := entry]> (Sessions.entries index))
    /\ filter (fun e => Sessions.sessionId e <> id) (Sessions.entries index')
       = filter (fun e => Sessions.sessionId e <> id) (Sessions.entries index).
Proof.
  intros Hne Hindex Hnodup. destruct messages as [|m rest]; [done|].
  unfold Sessions.saveSession. rewrite readIndex_after_transcript, Hindex.
  cbn [fst snd]. rewrite readIndex_written.
  set (es := Sessions.entries index) in *.
  destruct (Sessions.findIndex id es) as [i|] eqn:Hfind.
  - destruct (findIndex_Some id es i Hfind) as (old & Hold & Hid).
    rewrite Hold. cbn [fmap option_fmap option_map default].
    eexists _, _. split; [done|]. split; [done|]. split; [done|].
    cbn [Sessions.entries].
    assert (i < length es) as Hi by (by eapply lookup_lt_Some).
    split.
    { rewrite list_fmap_insert. cbn [Sessions.sessionId].
      rewrite list_insert_id; [done|]. rewrite list_lookup_fmap, Hold. simpl. by rewrite Hid. }
    split. { apply list_elem_of_lookup. exists i. by apply list_lookup_insert_eq. }
    split; [done|]. split; [done|]. split; [done|].
    split.
    { intros Hnot. exfalso. apply Hnot. apply list_elem_of_fmap. exists old.
      split; [done|]. by eapply list_elem_of_lookup_2. }
    split.
    { intros old' Hold' Hid'. cbn [Sessions.created].
      assert (old = old') as <-.
      { apply (NoDup_unique_by Sessions.sessionId es); try done.
        - by eapply list_elem_of_lookup_2.
        - congruence. }
      split; [done|]. split; [by rewrite length_insert|].
      intros i' Hi'.
      assert (i = i') as <-; [|done].
      apply (NoDup_lookup (map Sessions.sessionId es) i i' (Sessions.sessionId old));
        [done| |]; by rewrite list_lookup_fmap, ?Hold, ?Hi'. }
    apply (filter_insert_excluded _ es i _ old); [done| |]; cbn [Sessions.sessionId];
      intros H; by apply H.
  - cbn [default]. apply findIndex_None in Hfind.
    eexists _, _. split; [done|]. split; [done|]. split; [done|].
    cbn [Sessions.entries].
    split.
    { rewrite fmap_app. apply NoDup_app. split; [done|]. split.
      - intros x Hx Hx'. apply list_elem_of_singleton in Hx'. subst x. done.
      - apply NoDup_singleton. }
    split. { apply elem_of_app. right. by apply list_elem_of_singleton. }
    split; [done|]. split; [done|]. split; [done|].
    split; [done|]. split.
    { intros old Hold Hid. exfalso. apply Hfind. apply list_elem_of_fmap. by exists old. }
    rewrite filter_app. rewrite filter_cons_False by (intros H; by apply H).
    rewrite filter_nil. by rewrite app_nil_r.
Qed.

(** X2. Saving a session puts one entry for its id into the index: at the
    end for a new id, and for a known id in the place of the old entry,
    whose time of creation it keeps.  The other entries stay as and where
    they are. *)
Theorem saveSession_upserts_index
    (rt : Runtime) (now cwd sid : str) (messages : list Json.json) (st : FsState)
    (index : Sessions.SessionsIndex) :
  messages <> [] ->
  Sessions.readIndex rt st cwd = Ok index ->
  NoDup (map Sessions.sessionId (Sessions.entries index)) ->
  exists index' entry,
    Sessions.readIndex rt (snd (Sessions.saveSession rt now cwd sid messages st)) cwd
      = Ok index'
    /\ NoDup (map Sessions.sessionId (Sessions.entries index'))
    /\ entry ∈ Sessions.entries index'
    /\ Sessions.sessionId entry = sid
    /\ Sessions.messageCount entry = Z.of_nat (length messages)
    /\ Sessions.modified entry = now
    /\ (sid ∉ map Sessions.sessionId (Sessions.entries index) ->
        Sessions.created entry = now
        /\ Sessions.entries index' = Sessions.entries index ++ [entry])
    /\ (forall old, old ∈ Sessions.entries index -> Sessions.sessionId old = sid ->
        Sessions.created entry = Sessions.created old
        /\ length (Sessions.entries index') = length (Sessions.entries index)
        /\ forall i, Sessions.entries index !! i = Some old ->
                     Sessions.entries index' = <[i := entry]> (Sessions.entries index))
    /\ filter (fun e => Sessions.sessionId e <> sid) (Sessions.entries index')
       = filter (fun e => Sessions.sessionId e <> sid) (Sessions.entries index).
Proof.
  intros Hne Hindex Hnodup.
  destruct (saveSession_index rt now cwd sid messages st index Hne Hindex Hnodup)
    as (index' & entry & _ & Hindex' & _ & Hrest).
  by exists index', entry.
Qed.

Lemma startsWith_refl (s : str) : startsWith s s = true.
Proof. induction s as [|c s IH]; [done|]. simpl. by rewrite N.eqb_refl, IH. Qed.

Lemma filter_none {A} (P : A -> Prop) `{forall x, Decision (P x)} (l : list A) :
  (forall y, y ∈ l -> ~ P y) -> filter P l = [].
Proof.
  induction l as [|a l IH]; intros Hall; [done|].
  rewrite filter_cons_False by (apply Hall; left).
  apply IH. intros y Hy. apply Hall. by right.
Qed.

Lemma filter_agree {A} (P Q : A -> Prop) `{forall x, Decision (P x)}
    `{forall x, Decision (Q x)} (l : list A) :
  (forall y, y ∈ l -> P y <-> Q y) -> filter P l = filter Q l.
Proof.
  induction l as [|a l IH]; intros Hall; [done|].
  rewrite !filter_cons.
  rewrite IH by (intros y Hy; apply Hall; by right).
  destruct (decide (P a)) as [Hp|Hp], (decide (Q a)) as [Hq|Hq]; try done.
  - exfalso. apply Hq, (Hall a); [left|done].
  - exfalso. apply Hp, (Hall a); [left|done].
Qed.

Lemma filter_unique_by {A B} `{EqDecision B} (f : A -> B) (l : list A) (x : A) :
  NoDup (map f l) -> x ∈ l -> filter (fun y => f y = f x) l = [x].
Proof.
  induction l as [|a l IH]; intros Hnd Hx; [by apply elem_of_nil in Hx|].
  cbn [map] in Hnd. apply NoDup_cons in Hnd as [Ha Hnd].
  apply elem_of_cons in Hx as [->|Hx].
  - rewrite filter_cons_True by done. f_equal.
    apply filter_none. intros y Hy Hf. apply Ha. rewrite <- Hf.
    apply list_elem_of_fmap. by exists y.
  - rewrite filter_cons_False; [by apply IH|].
    intros Hf. apply Ha. rewrite Hf. apply list_elem_of_fmap. by exists x.
Qed.

(** X3. After a session is saved, its full id resolves to it, unless the id
    is a proper prefix of another stored id. *)
Theorem saveSession_then_resolveSessionId
    (rt : Runtime) (now cwd sid : str) (messages : list Json.json) (st : FsState)
    (index : Sessions.SessionsIndex) :
  messages <> [] ->
  Sessions.readIndex rt st cwd = Ok index ->
  NoDup (map Sessions.sessionId (Sessions.entries index)) ->
  (forall e, e ∈ Sessions.entries index ->
             startsWith (Sessions.sessionId e) sid = true -> Sessions.sessionId e = sid) ->
  Sessions.resolveSessionId rt
    (snd (Sessions.saveSession rt now cwd sid messages st)) cwd sid
  = Ok (Some sid).
Proof.
  intros Hne Hindex Hnodup Hprefix.
  destruct (saveSession_index rt now cwd sid messages st index Hne Hindex Hnodup)
    as (index' & entry & _ & Hindex' & _ & Hnodup' & Hin & Hsid & _ & _ & _ & _ & Hothers).
  unfold Sessions.resolveSessionId, Sessions.listSessions. rewrite Hindex'.
  set (sorted := Sessions.sort _ (Sessions.entries index')).
  assert (filter (fun e => startsWith (Sessions.sessionId e) sid = true) sorted
          ≡ₚ [entry]) as Hperm.
  { unfold sorted. rewrite sort_Permutation.
    rewrite <- (filter_unique_by Sessions.sessionId (Sessions.entries index') entry)
      by done.
    rewrite (filter_agree _ (fun y => Sessions.sessionId y = Sessions.sessionId entry));
      [done|].
    intros y Hy. rewrite Hsid. split.
    - intros Hstarts. destruct (decide (Sessions.sessionId y = sid)) as [|Hne']; [done|].
      apply Hprefix; [|done].
      assert (y ∈ filter (fun e => Sessions.sessionId e <> sid) (Sessions.entries index'))
        as Hy' by (by apply list_elem_of_filter).
      rewrite Hothers in Hy'. by apply list_elem_of_filter in Hy' as [_ ?].
    - intros ->. apply startsWith_refl. }
  apply Permutation_singleton_r in Hperm. rewrite Hperm. by rewrite Hsid.
Qed.

Lemma filter_every {A} (P : A -> Prop) `{forall x, Decision (P x)} (l : list A) :
  (forall y, y ∈ l -> P y) -> filter P l = l.
Proof.
  induction l as [|a l IH]; intros Hall; [done|].
  rewrite filter_cons_True by (apply Hall; left).
  f_equal. apply IH. intros y Hy. apply Hall. by right.
Qed.

(** X4. Deleting an id that the index does not have changes nothing. *)
Theorem deleteSession_unknown_id
    (rt : Runtime) (cwd sid : str) (st : FsState) (index : Sessions.SessionsIndex) :
  Sessions.readIndex rt st cwd = Ok index ->
  sid ∉ map Sessions.sessionId (Sessions.entries index) ->
  Sessions.deleteSession rt cwd sid st = (Ok false, st).
Proof.
  intros Hindex Hnot. unfold Sessions.deleteSession. rewrite Hindex.
  apply findIndex_None in Hnot. by rewrite Hnot.
Qed.

Lemma delete_findIndex (sid : str) (es : list Sessions.SessionEntry) (i : nat) :
  NoDup (map Sessions.sessionId es) ->
  Sessions.findIndex sid es = Some i ->
  delete i es = filter (fun e => Sessions.sessionId e <> sid) es.
Proof.
  revert i. induction es as [|e es IH]; intros i Hnd Hfind; [done|].
  cbn [map] in Hnd. apply NoDup_cons in Hnd as [He Hnd].
  cbn [Sessions.findIndex] in Hfind. unfold str_eqb in Hfind.
  destruct (bool_decide_reflect (Sessions.sessionId e = sid)) as [Heq|Hne].
  - injection Hfind as <-. cbn [delete list_delete].
    rewrite filter_cons_False by (intros H; by apply H).
    symmetry. apply filter_every. intros y Hy Hy'. apply He. rewrite Heq, <- Hy'.
    apply list_elem_of_fmap. by exists y.
  - destruct (Sessions.findIndex sid es) as [j|] eqn:Hj; [|done].
    injection Hfind as <-. cbn [delete list_delete].
    rewrite filter_cons_True by done. f_equal. by apply IH.
Qed.

Lemma deleteSession_known
    (rt : Runtime) (cwd sid : str) (st : FsState) (index : Sessions.SessionsIndex) :
  Sessions.readIndex rt st cwd = Ok index ->
  NoDup (map Sessions.sessionId (Sessions.entries index)) ->
  sid ∈ map Sessions.sessionId (Sessions.entries index) ->
  Sessions.deleteSession rt cwd sid st =
  (Ok true,
   Sessions.writeIndex rt cwd
     {| Sessions.version := Sessions.version index;
        Sessions.entries :=
          filter (fun e => Sessions.sessionId e <> sid) (Sessions.entries index) |}
     (Fs.unlinkSync (Sessions.sessionPath rt cwd sid) st)).
Proof.
  intros Hindex Hnodup Hin.
  destruct (Sessions.findIndex sid (Sessions.entries index)) as [i|] eqn:Hfind;
    [|by apply findIndex_None in Hfind].
  unfold Sessions.deleteSession. rewrite Hindex, Hfind.
  by rewrite (delete_findIndex sid _ i Hnodup Hfind).
Qed.

Lemma loadSession_after_unlink
    (rt : Runtime) (cwd sid : str) (st : FsState) (index : Sessions.SessionsIndex) :
  Sessions.loadSession rt
    (Sessions.writeIndex rt cwd index (Fs.unlinkSync (Sessions.sessionPath rt cwd sid) st))
    cwd sid = [].
Proof.
  unfold Sessions.loadSession, Fs.readFileSync, Sessions.writeIndex, Fs.writeFileSync,
    Sessions.ensureDir, Fs.mkdirSync, Fs.unlinkSync. cbn [files].
  rewrite lookup_insert_ne by (apply not_eq_sym, sessionPath_not_indexPath).
  by rewrite lookup_delete_eq.
Qed.

(** X5. Deleting a stored session removes its transcript and exactly its
    entry. *)
Theorem deleteSession_removes_session
    (rt : Runtime) (cwd sid : str) (st : FsState) (index : Sessions.SessionsIndex) :
  Sessions.readIndex rt st cwd = Ok index ->
  NoDup (map Sessions.sessionId (Sessions.entries index)) ->
  sid ∈ map Sessions.sessionId (Sessions.entries index) ->
  let after := snd (Sessions.deleteSession rt cwd sid st) in
  fst (Sessions.deleteSession rt cwd sid st) = Ok true
  /\ Sessions.loadSession rt after cwd sid = []
  /\ Sessions.readIndex rt after cwd
     = Ok {| Sessions.version := Sessions.version index;
             Sessions.entries :=
               filter (fun e => Sessions.sessionId e <> sid) (Sessions.entries index) |}
  /\ Sessions.resolveSessionId rt after cwd sid <> Ok (Some sid).
Proof.
  intros Hindex Hnodup Hin after.
  unfold after. rewrite (deleteSession_known rt cwd sid st index) by done.
  cbn [fst snd].
  assert (Sessions.readIndex rt
            (Sessions.writeIndex rt cwd
               {| Sessions.version := Sessions.version index;
                  Sessions.entries :=
                    filter (fun e => Sessions.sessionId e <> sid) (Sessions.entries index) |}
               (Fs.unlinkSync (Sessions.sessionPath rt cwd sid) st)) cwd
          = Ok {| Sessions.version := Sessions.version index;
                  Sessions.entries :=
                    filter (fun e => Sessions.sessionId e <> sid) (Sessions.entries index) |})
    as Hread by apply readIndex_written.
  split; [done|]. split; [|split; [exact Hread|]].
  - apply loadSession_after_unlink.
  - unfold Sessions.resolveSessionId, Sessions.listSessions. rewrite Hread.
    cbn [Sessions.entries].
    set (sorted := Sessions.sort _ _).
    destruct (filter _ sorted) as [|a [|b more]] eqn:Hf; try discriminate.
    intros Heq. injection Heq as Ha.
    assert (a ∈ sorted) as Hsorted.
    { assert (a ∈ filter (fun e => startsWith (Sessions.sessionId e) sid = true) sorted)
        as H by (rewrite Hf; left).
      by apply list_elem_of_filter in H as [_ ?]. }
    unfold sorted in Hsorted. rewrite sort_Permutation in Hsorted.
    apply list_elem_of_filter in Hsorted as [Hne _]. done.
Qed.

Lemma parseLines_unparsable (lines : list str) (l : str) :
  l ∈ lines -> Json.parse l = None -> Sessions.parseLines lines = None.
Proof.
  induction lines as [|x lines IH]; intros Hin Hbad; [by apply elem_of_nil in Hin|].
  cbn [Sessions.parseLines].
  apply elem_of_cons in Hin as [<-|Hin]; [by rewrite Hbad|].
  rewrite (IH Hin Hbad). by destruct (Json.parse x).
Qed.

(** X6. One line of the transcript that is not JSON loses the whole
    session: [loadSession] returns no message at all. *)
Theorem loadSession_corrupt_line_loses_all
    (rt : Runtime) (st : FsState) (cwd sid raw l : str) :
  files st !! Sessions.sessionPath rt cwd sid = Some raw ->
  l ∈ split raw [10%N] -> l <> [] -> Json.parse l = None ->
  Sessions.loadSession rt st cwd sid = [].
Proof.
  intros Hfile Hin Hne Hbad. unfold Sessions.loadSession, Fs.readFileSync.
  rewrite Hfile.
  rewrite (parseLines_unparsable _ l); [done| |done].
  by apply list_elem_of_filter.
Qed.

Lemma insertSorted_Sorted {A} (cmp : A -> A -> Z) (x : A) (l : list A) :
  (forall a b, (0 < cmp a b)%Z -> (cmp b a <= 0)%Z) ->
  Sorted (fun a b => (cmp a b <= 0)%Z) l ->
  Sorted (fun a b => (cmp a b <= 0)%Z) (Sessions.insertSorted cmp x l).
Proof.
  intros Htotal. induction l as [|y l IH]; intros Hsorted.
  - repeat constructor.
  - cbn [Sessions.insertSorted].
    destruct (Z.leb_spec (cmp x y) 0) as [Hle|Hgt].
    + constructor; [done|]. by constructor.
    + apply Sorted_inv in Hsorted as [Hl Hhd].
      constructor; [by apply IH|].
      destruct l as [|z l]; cbn [Sessions.insertSorted].
      * constructor. by apply Htotal.
      * destruct (Z.leb_spec (cmp x z) 0).
        -- constructor. by apply Htotal.
        -- constructor. by apply HdRel_inv in Hhd.
Qed.

Lemma sort_Sorted {A} (cmp : A -> A -> Z) (l : list A) :
  (forall a b, (0 < cmp a b)%Z -> (cmp b a <= 0)%Z) ->
  Sorted (fun a b => (cmp a b <= 0)%Z) (Sessions.sort cmp l).
Proof.
  intros Htotal. induction l as [|x l IH]; [constructor|].
  cbn [Sessions.sort foldr]. by apply insertSorted_Sorted.
Qed.

(** X7. [listSessions] returns every entry of the index exactly once, and
    each entry before all the entries that compare as modified earlier;
    the comparison of the runtime is a total preorder. *)
Theorem listSessions_newest_first
    (rt : Runtime) (st : FsState) (cwd : str) (index : Sessions.SessionsIndex) :
  (forall a b, (0 < localeCompare rt a b)%Z -> (localeCompare rt b a <= 0)%Z) ->
  (forall a b c, (localeCompare rt a b <= 0)%Z -> (localeCompare rt b c <= 0)%Z ->
                 (localeCompare rt a c <= 0)%Z) ->
  Sessions.readIndex rt st cwd = Ok index ->
  exists listed,
    Sessions.listSessions rt st cwd = Ok listed
    /\ listed ≡ₚ Sessions.entries index
    /\ StronglySorted
         (fun a b =>
            (localeCompare rt (Sessions.modified b) (Sessions.modified a) <= 0)%Z)
         listed.
Proof.
  intros Htotal Htrans Hindex. unfold Sessions.listSessions. rewrite Hindex.
  eexists. split; [done|]. split; [apply sort_Permutation|].
  apply Sorted_StronglySorted.
  - intros a b c Hab Hbc. by apply (Htrans _ (Sessions.modified b)).
  - apply (sort_Sorted
             (fun a b => localeCompare rt (Sessions.modified b) (Sessions.modified a))).
    intros a b. apply Htotal.
Qed.

Lemma codeUnitCompare_total (a b : str) :
  (0 < Samples.codeUnitCompare a b)%Z -> (Samples.codeUnitCompare b a <= 0)%Z.
Proof.
  revert b. induction a as [|x a IH]; intros [|y b]; cbn [Samples.codeUnitCompare];
    try lia.
  destruct (N.ltb_spec x y), (N.ltb_spec y x); try lia. apply IH.
Qed.

Lemma codeUnitCompare_trans (a b c : str) :
  (Samples.codeUnitCompare a b <= 0)%Z -> (Samples.codeUnitCompare b c <= 0)%Z ->
  (Samples.codeUnitCompare a c <= 0)%Z.
Proof.
  revert b c. induction a as [|x a IH]; intros [|y b] [|z c];
    cbn [Samples.codeUnitCompare]; try lia.
  destruct (N.ltb_spec x y), (N.ltb_spec y x), (N.ltb_spec y z), (N.ltb_spec z y),
    (N.ltb_spec x z), (N.ltb_spec z x); try lia.
  apply IH.
Qed.

Lemma listSessions_newest_first_witness :
  (forall a b, (0 < localeCompare Samples.posix a b)%Z ->
               (localeCompare Samples.posix b a <= 0)%Z)
  /\ (forall a b c, (localeCompare Samples.posix a b <= 0)%Z ->
                    (localeCompare Samples.posix b c <= 0)%Z ->
                    (localeCompare Samples.posix a c <= 0)%Z)
  /\ Sessions.readIndex Samples.posix Samples.twoSessions Samples.appDir
     = Ok twoSessionsIndex
  /\ exists listed,
       Sessions.listSessions Samples.posix Samples.twoSessions Samples.appDir = Ok listed
       /\ listed ≡ₚ Sessions.entries twoSessionsIndex
       /\ StronglySorted
            (fun a b =>
               (localeCompare Samples.posix (Sessions.modified b)
                  (Sessions.modified a) <= 0)%Z)
            listed.
Proof.
  assert (Sessions.readIndex Samples.posix Samples.twoSessions Samples.appDir
          = Ok twoSessionsIndex) as Hindex by (vm_compute; reflexivity).
  split; [exact codeUnitCompare_total|]. split; [exact codeUnitCompare_trans|].
  split; [exact Hindex|].
  exact (listSessions_newest_first Samples.posix Samples.twoSessions Samples.appDir
           twoSessionsIndex codeUnitCompare_total codeUnitCompare_trans Hindex).
Defined.

(** ** Session files do not collide *)

Lemma splitChar_app_sep (c : char) (a b : str) :
  splitChar c (a ++ c :: b) = splitChar c a ++ splitChar c b.
Proof.
  induction a as [|d a IH]; cbn [app splitChar].
  - by rewrite N.eqb_refl.
  - rewrite IH. destruct (N.eqb c d); [done|].
    pose proof (splitChar_nonempty c a) as Ha.
    by destruct (splitChar c a).
Qed.










(** X9. Saving a session under a new id and deleting it again gives back
    the index as it was, and no transcript. *)
Theorem saveSession_then_deleteSession
    (rt : Runtime) (now cwd sid : str) (messages : list Json.json) (st : FsState)
    (index : Sessions.SessionsIndex) :
  messages <> [] ->
  Sessions.readIndex rt st cwd = Ok index ->
  NoDup (map Sessions.sessionId (Sessions.entries index)) ->
  sid ∉ map Sessions.sessionId (Sessions.entries index) ->
  let saved := snd (Sessions.saveSession rt now cwd sid messages st) in
  fst (Sessions.deleteSession rt cwd sid saved) = Ok true
  /\ Sessions.readIndex rt (snd (Sessions.deleteSession rt cwd sid saved)) cwd = Ok index
  /\ Sessions.loadSession rt (snd (Sessions.deleteSession rt cwd sid saved)) cwd sid = [].
Proof.
  intros Hne Hindex Hnodup Hnew saved.
  destruct (saveSession_index rt now cwd sid messages st index Hne Hindex Hnodup)
    as (index' & entry & _ & Hindex' & Hversion & Hnodup' & Hin & Hsid & _ & _ & Hfresh
        & _ & Hothers).
  fold saved in Hindex'.
  rewrite (deleteSession_known rt cwd sid saved index') ; [|done|done|].
  - cbn [fst snd]. split; [done|]. split; [|apply loadSession_after_unlink].
    rewrite readIndex_written. rewrite Hothers, Hversion.
    rewrite filter_every.
    + by destruct index.
    + intros y Hy Hy'. apply Hnew. apply list_elem_of_fmap. by exists y.
  - apply list_elem_of_fmap. by exists entry.
Qed.

(** ** The session store on the sample file system *)

Lemma twoSessions_readIndex :
  Sessions.readIndex Samples.posix Samples.twoSessions Samples.appDir = Ok twoSessionsIndex.
Proof. vm_compute. reflexivity. Defined.

Lemma twoSessionsIndex_NoDup :
  NoDup (map Sessions.sessionId (Sessions.entries twoSessionsIndex)).
Proof.
  apply (bool_decide_unpack _). vm_compute. exact I.
Defined.

Lemma saveSession_upserts_index_witness :
  let messages := [Samples.userMessage] in
  let now := u "2026-01-03T00:00:00.000Z" in
  let sid := u "abcdefgh-1111" in
  let saved := snd (Sessions.saveSession Samples.posix now Samples.appDir sid messages
                      Samples.twoSessions) in
  messages <> []
  /\ Sessions.readIndex Samples.posix Samples.twoSessions Samples.appDir = Ok twoSessionsIndex
  /\ NoDup (map Sessions.sessionId (Sessions.entries twoSessionsIndex))
  /\ match Sessions.readIndex Samples.posix saved Samples.appDir with
     | Ok index' =>
         map (fun e => (Sessions.sessionId e, Sessions.created e, Sessions.modified e))
           (Sessions.entries index')
     | Throw _ => []
     end
     = [ (u "abcdefgh-1111", u "2026-01-01T00:00:00.000Z", u "2026-01-03T00:00:00.000Z");
         (u "abcdefgh-2222", u "2026-01-02T00:00:00.000Z", u "2026-01-02T00:00:00.000Z") ]
  /\ exists index' entry,
    Sessions.readIndex Samples.posix saved Samples.appDir = Ok index'
    /\ NoDup (map Sessions.sessionId (Sessions.entries index'))
    /\ entry ∈ Sessions.entries index'
    /\ Sessions.sessionId entry = sid
    /\ Sessions.messageCount entry = Z.of_nat (length messages)
    /\ Sessions.modified entry = now
    /\ (sid ∉ map Sessions.sessionId (Sessions.entries twoSessionsIndex) ->
        Sessions.created entry = now
        /\ Sessions.entries index' = Sessions.entries twoSessionsIndex ++ [entry])
    /\ (forall old, old ∈ Sessions.entries twoSessionsIndex ->
                    Sessions.sessionId old = sid ->
        Sessions.created entry = Sessions.created old
        /\ length (Sessions.entries index') = length (Sessions.entries twoSessionsIndex)
        /\ forall i, Sessions.entries twoSessionsIndex !! i = Some old ->
                     Sessions.entries index'
                     = <[i := entry]> (Sessions.entries twoSessionsIndex))
    /\ filter (fun e => Sessions.sessionId e <> sid) (Sessions.entries index')
       = filter (fun e => Sessions.sessionId e <> sid) (Sessions.entries twoSessionsIndex).
Proof.
  intros messages now sid saved.
  assert (messages <> []) as Hne by done.
  split; [exact Hne|]. split; [exact twoSessions_readIndex|].
  split; [exact twoSessionsIndex_NoDup|]. split; [vm_compute; reflexivity|].
  exact (saveSession_upserts_index Samples.posix now Samples.appDir sid messages
           Samples.twoSessions twoSessionsIndex Hne twoSessions_readIndex
           twoSessionsIndex_NoDup).
Defined.

Lemma twoSessionsIndex_no_proper_prefix (sid : str) :
  sid = u "abcdefgh-1111" ->
  forall e, e ∈ Sessions.entries twoSessionsIndex ->
            startsWith (Sessions.sessionId e) sid = true -> Sessions.sessionId e = sid.
Proof.
  intros -> e He Hstarts.
  apply elem_of_cons in He as [->|He]; [done|].
  apply elem_of_cons in He as [->|He]; [vm_compute in Hstarts; discriminate|].
  by apply elem_of_nil in He.
Defined.

Lemma saveSession_then_resolveSessionId_witness :
  let messages := [Samples.userMessage] in
  let now := u "2026-01-03T00:00:00.000Z" in
  let sid := u "abcdefgh-1111" in
  messages <> []
  /\ Sessions.readIndex Samples.posix Samples.twoSessions Samples.appDir = Ok twoSessionsIndex
  /\ NoDup (map Sessions.sessionId (Sessions.entries twoSessionsIndex))
  /\ (forall e, e ∈ Sessions.entries twoSessionsIndex ->
                startsWith (Sessions.sessionId e) sid = true -> Sessions.sessionId e = sid)
  /\ Sessions.resolveSessionId Samples.posix
       (snd (Sessions.saveSession Samples.posix now Samples.appDir sid messages
               Samples.twoSessions)) Samples.appDir sid
     = Ok (Some sid).
Proof.
  intros messages now sid.
  assert (messages <> []) as Hne by done.
  split; [exact Hne|]. split; [exact twoSessions_readIndex|].
  split; [exact twoSessionsIndex_NoDup|].
  split; [exact (twoSessionsIndex_no_proper_prefix sid eq_refl)|].
  exact (saveSession_then_resolveSessionId Samples.posix now Samples.appDir sid messages
           Samples.twoSessions twoSessionsIndex Hne twoSessions_readIndex
           twoSessionsIndex_NoDup (twoSessionsIndex_no_proper_prefix sid eq_refl)).
Defined.

Lemma deleteSession_unknown_id_witness :
  let sid := u "abcdefgh" in
  Sessions.readIndex Samples.posix Samples.twoSessions Samples.appDir = Ok twoSessionsIndex
  /\ (sid ∉ map Sessions.sessionId (Sessions.entries twoSessionsIndex))
  /\ Sessions.deleteSession Samples.posix Samples.appDir sid Samples.twoSessions
     = (Ok false, Samples.twoSessions).
Proof.
  intros sid.
  assert (sid ∉ map Sessions.sessionId (Sessions.entries twoSessionsIndex)) as Hnot
    by (apply (bool_decide_unpack _); vm_compute; exact I).
  split; [exact twoSessions_readIndex|]. split; [exact Hnot|].
  exact (deleteSession_unknown_id Samples.posix Samples.appDir sid Samples.twoSessions
           twoSessionsIndex twoSessions_readIndex Hnot).
Defined.

Lemma deleteSession_removes_session_witness :
  let sid := u "abcdefgh-1111" in
  let after := snd (Sessions.deleteSession Samples.posix Samples.appDir sid
                      Samples.twoSessions) in
  Sessions.readIndex Samples.posix Samples.twoSessions Samples.appDir = Ok twoSessionsIndex
  /\ NoDup (map Sessions.sessionId (Sessions.entries twoSessionsIndex))
  /\ sid ∈ map Sessions.sessionId (Sessions.entries twoSessionsIndex)
  /\ fst (Sessions.deleteSession Samples.posix Samples.appDir sid Samples.twoSessions)
     = Ok true
  /\ Sessions.loadSession Samples.posix after Samples.appDir sid = []
  /\ Sessions.readIndex Samples.posix after Samples.appDir
     = Ok {| Sessions.version := Sessions.version twoSessionsIndex;
             Sessions.entries :=
               filter (fun e => Sessions.sessionId e <> sid)
                 (Sessions.entries twoSessionsIndex) |}
  /\ Sessions.resolveSessionId Samples.posix after Samples.appDir sid <> Ok (Some sid).
Proof.
  intros sid after.
  assert (sid ∈ map Sessions.sessionId (Sessions.entries twoSessionsIndex)) as Hin
    by left.
  split; [exact twoSessions_readIndex|]. split; [exact twoSessionsIndex_NoDup|].
  split; [exact Hin|].
  exact (deleteSession_removes_session Samples.posix Samples.appDir sid
           Samples.twoSessions twoSessionsIndex twoSessions_readIndex
           twoSessionsIndex_NoDup Hin).
Defined.

Lemma loadSession_corrupt_line_loses_all_witness :
  let sid := u "abcdefgh-1111" in
  let raw := Json.stringify Samples.userMessage ++ [10%N] ++ u "{ cut off" in
  let st := Fs.writeFileSync (Sessions.sessionPath Samples.posix Samples.appDir sid) raw
              Samples.twoSessions in
  files st !! Sessions.sessionPath Samples.posix Samples.appDir sid = Some raw
  /\ u "{ cut off" ∈ split raw [10%N]
  /\ u "{ cut off" <> []
  /\ Json.parse (u "{ cut off") = None
  /\ Sessions.loadSession Samples.posix st Samples.appDir sid = [].
Proof.
  intros sid raw st.
  assert (files st !! Sessions.sessionPath Samples.posix Samples.appDir sid = Some raw)
    as Hfile by apply lookup_insert_eq.
  assert (u "{ cut off" ∈ split raw [10%N]) as Hin
    by (apply (bool_decide_unpack _); vm_compute; exact I).
  assert (u "{ cut off" <> []) as Hne by done.
  assert (Json.parse (u "{ cut off") = None) as Hbad by (vm_compute; reflexivity).
  split; [exact Hfile|]. split; [exact Hin|]. split; [exact Hne|]. split; [exact Hbad|].
  exact (loadSession_corrupt_line_loses_all Samples.posix st Samples.appDir sid raw
           (u "{ cut off") Hfile Hin Hne Hbad).
Defined.


Lemma saveSession_then_deleteSession_witness :
  let sid := u "abcdefgh-3333" in
  let now := u "2026-01-03T00:00:00.000Z" in
  let messages := [Samples.userMessage] in
  let saved := snd (Sessions.saveSession Samples.posix now Samples.appDir sid messages
                      Samples.twoSessions) in
  messages <> []
  /\ Sessions.readIndex Samples.posix Samples.twoSessions Samples.appDir = Ok twoSessionsIndex
  /\ NoDup (map Sessions.sessionId (Sessions.entries twoSessionsIndex))
  /\ (sid ∉ map Sessions.sessionId (Sessions.entries twoSessionsIndex))
  /\ fst (Sessions.deleteSession Samples.posix Samples.appDir sid saved) = Ok true
  /\ Sessions.readIndex Samples.posix
       (snd (Sessions.deleteSession Samples.posix Samples.appDir sid saved)) Samples.appDir
     = Ok twoSessionsIndex
  /\ Sessions.loadSession Samples.posix
       (snd (Sessions.deleteSession Samples.posix Samples.appDir sid saved))
       Samples.appDir sid = [].
Proof.
  intros sid now messages saved.
  assert (messages <> []) as Hne by done.
  assert (sid ∉ map Sessions.sessionId (Sessions.entries twoSessionsIndex)) as Hnew
    by (apply (bool_decide_unpack _); vm_compute; exact I).
  split; [exact Hne|]. split; [exact twoSessions_readIndex|].
  split; [exact twoSessionsIndex_NoDup|]. split; [exact Hnew|].
  exact (saveSession_then_deleteSession Samples.posix now Samples.appDir sid messages
           Samples.twoSessions twoSessionsIndex Hne twoSessions_readIndex
           twoSessionsIndex_NoDup Hnew).
Defined.

(** ** The edit, write and read tools *)

(** X10. The edit tool changes the file system only when the old text is
    counted once in the file and the user has approved the diff shown; it
    then writes the target file and nothing else. *)
Theorem edit_tool_effect
    (opts : Tools.Options) (rt : Runtime) (filePath old_string new_string : str)
    (st : FsState) :
  let abs := Path.resolve (processCwd rt) [filePath] in
  let out := Tools.edit opts rt filePath old_string new_string st in
  (forall error, fst out = Tools.ToolError error -> snd out = st)
  /\ (forall message, fst out = Tools.ToolData message ->
        exists content,
          files st !! abs = Some content
          /\ Edit.occurrences content old_string = 1%Z
          /\ Tools.requestConfirm opts Tools.TEdit (u "Edit " ++ filePath)
               (Some (split old_string [10%N], split new_string [10%N])) = true
          /\ snd out = Fs.writeFileSync abs (replace content old_string new_string) st).
Proof.
  intros abs out. unfold out, Tools.edit, Edit.computeEditDiff, Edit.applyEdit.
  fold abs. destruct (files st !! abs) as [content|] eqn:Hfile.
  2: { cbn [fst snd]. split; [done|]. intros message Hm. discriminate. }
  destruct (Z.eqb_spec (Edit.occurrences content old_string) 0) as [H0|H0].
  { cbn [fst snd]. split; [done|]. intros message Hm. discriminate. }
  destruct (Z.ltb_spec 1 (Edit.occurrences content old_string)) as [Hmany|Hfew].
  { cbn [fst snd]. split; [done|]. intros message Hm. discriminate. }
  cbn [Edit.removedLines Edit.addedLines].
  destruct (Tools.requestConfirm _ _ _ _) eqn:Hconfirm.
  2: { cbn [fst snd]. split; [done|]. intros message Hm. discriminate. }
  destruct (Z.eqb_spec (Edit.occurrences content old_string) 1) as [H1|H1];
    cbn [negb fst snd].
  - split; [intros error He; discriminate|].
    intros message _. by exists content.
  - split; [done|]. intros message Hm. discriminate.
Qed.

Lemma surrogateFree_wellFormed (s : str) : surrogateFree s -> wellFormed s.
Proof.
  induction 1 as [|c s [Hlead Htrail] _ IH]; [done|]. by apply wellFormed_cons.
Qed.

(** X11. An approved edit of a file in which the old text is counted once,
    with a new text free of dollar signs, puts the new text in the place
    of the old one; the file then reads as that text made well-formed,
    and as that very text when neither the file nor the new text holds a
    surrogate. *)
Theorem edit_tool_plain_replacement
    (opts : Tools.Options) (rt : Runtime) (filePath old_string new_string content : str)
    (st : FsState) :
  let abs := Path.resolve (processCwd rt) [filePath] in
  files st !! abs = Some content ->
  Edit.occurrences content old_string = 1%Z ->
  36%N ∉ new_string ->
  Tools.requestConfirm opts Tools.TEdit (u "Edit " ++ filePath)
    (Some (split old_string [10%N], split new_string [10%N])) = true ->
  exists before after message,
    content = before ++ old_string ++ after
    /\ Tools.edit opts rt filePath old_string new_string st
       = (Tools.ToolData message,
          Fs.writeFileSync abs (before ++ new_string ++ after) st)
    /\ Fs.readFileSync (snd (Tools.edit opts rt filePath old_string new_string st)) abs
       = Ok (toWellFormed (before ++ new_string ++ after))
    /\ (surrogateFree content -> surrogateFree new_string ->
        Fs.readFileSync (snd (Tools.edit opts rt filePath old_string new_string st)) abs
        = Ok (before ++ new_string ++ after)).
Proof.
  intros abs Hfile Hocc Hplain Hconfirm.
  destruct (applyEdit_plain_replacement rt filePath old_string new_string content st
              Hfile Hocc Hplain) as (before & after & message & diff & Hcontent & Happly).
  exists before, after, message. split; [done|].
  assert (Tools.edit opts rt filePath old_string new_string st
          = (Tools.ToolData message,
             Fs.writeFileSync abs (before ++ new_string ++ after) st)) as Hedit.
  { unfold Tools.edit, Edit.computeEditDiff. fold abs. rewrite Hfile, Hocc.
    change (1 =? 0)%Z with false. change (1 <? 1)%Z with false.
    cbv iota. cbn [Edit.removedLines Edit.addedLines].
    rewrite Hconfirm. fold abs in Happly. by rewrite Happly. }
  rewrite Hedit. cbn [snd]. split; [done|].
  assert (Fs.readFileSync (Fs.writeFileSync abs (before ++ new_string ++ after) st) abs
          = Ok (toWellFormed (before ++ new_string ++ after))) as Hread.
  { unfold Fs.readFileSync, Fs.writeFileSync. cbn [files]. by rewrite lookup_insert_eq. }
  split; [exact Hread|]. intros Hcontent' Hnew. rewrite Hread.
  assert (surrogateFree (before ++ new_string ++ after)) as Hfree.
  { unfold surrogateFree in *. rewrite Hcontent in Hcontent'.
    rewrite !Forall_app in *. tauto. }
  by rewrite (surrogateFree_wellFormed _ Hfree).
Qed.

Lemma edit_tool_plain_replacement_witness :
  let opts := {| Tools.cwd := Samples.appDir;
                 Tools.confirm := fun _ => true;
                 Tools.skipConfirm := false |} in
  let path := u "/home/u/app/price.txt" in
  let st := {| files := {[ path := u "cost: PRICE" ]}; journal := [] |} in
  let after_edit := snd (Tools.edit opts Samples.posix (u "price.txt") (u "PRICE")
                           (u "5 EUR") st) in
  files st !! Path.resolve (processCwd Samples.posix) [u "price.txt"]
    = Some (u "cost: PRICE")
  /\ Edit.occurrences (u "cost: PRICE") (u "PRICE") = 1%Z
  /\ (36%N ∉ u "5 EUR")
  /\ Tools.requestConfirm opts Tools.TEdit (u "Edit " ++ u "price.txt")
       (Some (split (u "PRICE") [10%N], split (u "5 EUR") [10%N])) = true
  /\ Fs.readFileSync after_edit path = Ok (u "cost: 5 EUR")
  /\ exists before after message,
       u "cost: PRICE" = before ++ u "PRICE" ++ after
       /\ Tools.edit opts Samples.posix (u "price.txt") (u "PRICE") (u "5 EUR") st
          = (Tools.ToolData message,
             Fs.writeFileSync (Path.resolve (processCwd Samples.posix) [u "price.txt"])
               (before ++ u "5 EUR" ++ after) st)
       /\ Fs.readFileSync after_edit
            (Path.resolve (processCwd Samples.posix) [u "price.txt"])
          = Ok (toWellFormed (before ++ u "5 EUR" ++ after))
       /\ (surrogateFree (u "cost: PRICE") -> surrogateFree (u "5 EUR") ->
           Fs.readFileSync after_edit
             (Path.resolve (processCwd Samples.posix) [u "price.txt"])
           = Ok (before ++ u "5 EUR" ++ after)).
Proof.
  intros opts path st after_edit.
  assert (files st !! Path.resolve (processCwd Samples.posix) [u "price.txt"]
          = Some (u "cost: PRICE")) as Hfile by (vm_compute; reflexivity).
  assert (Edit.occurrences (u "cost: PRICE") (u "PRICE") = 1%Z) as Hocc
    by (vm_compute; reflexivity).
  assert (36%N ∉ u "5 EUR") as Hplain by (by apply not_elem_forallb).
  assert (Tools.requestConfirm opts Tools.TEdit (u "Edit " ++ u "price.txt")
            (Some (split (u "PRICE") [10%N], split (u "5 EUR") [10%N])) = true)
    as Hconfirm by reflexivity.
  split; [exact Hfile|]. split; [exact Hocc|]. split; [exact Hplain|].
  split; [exact Hconfirm|]. split; [vm_compute; reflexivity|].
  exact (edit_tool_plain_replacement opts Samples.posix (u "price.txt") (u "PRICE")
           (u "5 EUR") (u "cost: PRICE") st Hfile Hocc Hplain Hconfirm).
Defined.





(** X13. The line counts of [computeDiff] compare the two files as sets of
    lines: a new content with the same lines as the old one, in any order
    and any number of times, counts as no change. *)
Theorem computeDiff_same_line_set
    (rt : Runtime) (st : FsState) (filePath old newContent : str) :
  files st !! Path.resolve (processCwd rt) [filePath] = Some old ->
  (forall l, l ∈ split newContent [10%N] <-> l ∈ split old [10%N]) ->
  Write.added (Write.computeDiff rt st filePath newContent) = 0
  /\ Write.removed (Write.computeDiff rt st filePath newContent) = 0.
Proof.
  intros Hfile Hsame. unfold Write.computeDiff. rewrite Hfile.
  cbn [Write.added Write.removed]. split.
  - rewrite filter_none; [done|]. intros l Hl Hnot. by apply Hnot, Hsame.
  - rewrite filter_none; [done|]. intros l Hl Hnot. by apply Hnot, Hsame.
Qed.

Lemma computeDiff_same_line_set_witness :
  let path := u "/home/u/app/list.txt" in
  let old := u "a" ++ [10%N] ++ u "b" in
  let newContent := u "b" ++ [10%N] ++ u "a" ++ [10%N] ++ u "a" in
  let st := {| files := {[ path := old ]}; journal := [] |} in
  files st !! Path.resolve (processCwd Samples.posix) [u "list.txt"] = Some old
  /\ (forall l, l ∈ split newContent [10%N] <-> l ∈ split old [10%N])
  /\ Write.added (Write.computeDiff Samples.posix st (u "list.txt") newContent) = 0
  /\ Write.removed (Write.computeDiff Samples.posix st (u "list.txt") newContent) = 0.
Proof.
  intros path old newContent st.
  assert (files st !! Path.resolve (processCwd Samples.posix) [u "list.txt"] = Some old)
    as Hfile by (vm_compute; reflexivity).
  assert (forall l, l ∈ split newContent [10%N] <-> l ∈ split old [10%N]) as Hsame.
  { intros l.
    change (split newContent [10%N]) with [u "b"; u "a"; u "a"].
    change (split old [10%N]) with [u "a"; u "b"].
    rewrite !elem_of_cons, !elem_of_nil. tauto. }
  split; [exact Hfile|]. split; [exact Hsame|].
  exact (computeDiff_same_line_set Samples.posix st (u "list.txt") old newContent
           Hfile Hsame).
Defined.

(** ** The shell tools *)

Lemma truncateBashOutput_lines (output : str) :
  let lines := split output BashTool.newline in
  150 < length lines ->
  split (BashTool.truncateBashOutput output) BashTool.newline =
    take 100 lines
    ++ [u "... " ++ natToString (length lines - 150) ++ u " lines truncated ..."]
    ++ drop (length lines - 50) lines.
Proof.
  intros lines Hlong.
  assert (BashTool.truncateBashOutput output =
          join BashTool.newline
            (take 100 lines
             ++ [u "... " ++ natToString (length lines - 150) ++ u " lines truncated ..."]
             ++ drop (length lines - 50) lines)) as ->.
  { unfold BashTool.truncateBashOutput.
    destruct output as [|c0 output']; [simpl in *; lia|].
    fold lines.
    unfold BashTool.TRUNCATE_HEAD, BashTool.TRUNCATE_TAIL.
    destruct (Nat.leb_spec (length lines) (100 + 50)) as [Hle|_]; [lia|].
    by replace (length lines - 100 - 50) with (length lines - 150) by lia. }
  apply split_join.
  - destruct (take 100 lines); discriminate.
  - pose proof (split_pieces 10%N output) as Hp. fold BashTool.newline lines in Hp.
    rewrite !Forall_app. repeat split.
    + by apply Forall_take.
    + constructor; [|constructor]. apply truncation_marker_no_newline.
    + by apply Forall_drop.
Qed.

(** X14. Truncation never makes an output longer, and what it returns has
    at most 151 lines: one more than the 150 lines up to which an output
    is left alone. *)
Theorem truncateBashOutput_line_count (output : str) :
  length (split (BashTool.truncateBashOutput output) BashTool.newline)
  = Nat.min (length (split output BashTool.newline)) 151.
Proof.
  destruct (Nat.le_gt_cases (length (split output BashTool.newline)) 150) as [Hle|Hgt].
  - assert (BashTool.truncateBashOutput output = output) as ->; [|lia].
    unfold BashTool.truncateBashOutput.
    destruct output as [|c0 output']; [done|].
    unfold BashTool.TRUNCATE_HEAD, BashTool.TRUNCATE_TAIL.
    destruct (Nat.leb_spec (length (split (c0 :: output') BashTool.newline)) (100 + 50));
      [done|lia].
  - rewrite truncateBashOutput_lines by done.
    rewrite !length_app, length_take, length_drop. cbn [length].
    revert Hgt. generalize (length (split output BashTool.newline)). intros n Hgt. lia.
Qed.

Lemma cdMatchHere_None (s : str) :
  startsWith s (u "cd") = false -> Bash.cdMatchHere s = None.
Proof.
  intros H. destruct s as [|a s]; [done|].
  destruct a as [|p]; [done|].
  do 7 (destruct p as [p|p|]; try done).
  destruct s as [|b s]; [done|].
  destruct b as [|p]; [done|].
  do 7 (destruct p as [p|p|]; try done).
Qed.

Lemma cdTargets_skip_all (s : str) (skip : nat) :
  length s <= skip -> Bash.cdTargets s skip = [].
Proof.
  revert skip. induction s as [|c s IH]; intros skip Hlen; [done|].
  destruct skip as [|k]; [simpl in Hlen; lia|].
  cbn [Bash.cdTargets]. apply IH. simpl in Hlen. lia.
Qed.

Lemma includes_cons (c : char) (s p : str) :
  includes (c :: s) p = false ->
  startsWith (c :: s) p = false /\ includes s p = false.
Proof. cbn [includes]. intros H. by apply orb_false_iff in H. Qed.

Lemma cdTargets_without_cd (s : str) (skip : nat) :
  includes s (u "cd") = false -> Bash.cdTargets s skip = [].
Proof.
  revert skip. induction s as [|c s IH]; intros skip Hnone; [done|].
  apply includes_cons in Hnone as [Hhere Hrest].
  cbn [Bash.cdTargets]. destruct skip as [|k]; [|by apply IH].
  rewrite cdMatchHere_None by done. by apply IH.
Qed.

(** X15. The second layer of [runBash] only bears on commands in which the
    letters [cd] occur: on every other command the two [runBash]
    functions do the same. *)
Theorem runBash_without_cd_layers_agree (rt : Runtime) (command : str) (cwd : option str) :
  includes command (u "cd") = false ->
  Bash.runBash rt command cwd = BashTool.runBash rt command cwd.
Proof.
  intros Hnone. unfold Bash.runBash, BashTool.runBash, BashTool.checkDenylist,
    Bash.cwdEscape.
  rewrite cdTargets_without_cd by done. cbn [find].
  by destruct (Bash.checkDenylist command).
Qed.

Lemma runBash_without_cd_layers_agree_witness :
  includes (u "ls -la ../..") (u "cd") = false
  /\ Bash.runBash Samples.posix (u "ls -la ../..") None
     = BashTool.runBash Samples.posix (u "ls -la ../..") None.
Proof.
  assert (includes (u "ls -la ../..") (u "cd") = false) as Hnone by reflexivity.
  split; [exact Hnone|].
  exact (runBash_without_cd_layers_agree Samples.posix (u "ls -la ../..") None Hnone).
Defined.

Lemma spanWhile_all (f : char -> bool) (s : str) :
  forallb f s = true -> Bash.spanWhile f s = (s, []).
Proof.
  induction s as [|c s IH]; [done|]. cbn [forallb Bash.spanWhile].
  intros H. apply andb_true_iff in H as [Hc Hs]. by rewrite Hc, IH.
Qed.

Lemma spanWhile_stop (f : char -> bool) (c : char) (s : str) :
  f c = false -> Bash.spanWhile f (c :: s) = ([], c :: s).
Proof. intros H. cbn [Bash.spanWhile]. by rewrite H. Qed.

Lemma isTargetChar_not_space (c : char) :
  Bash.isTargetChar c = true -> isWhiteSpace c = false.
Proof.
  unfold Bash.isTargetChar. intros H. apply negb_true_iff in H.
  do 3 (apply orb_false_iff in H as [H _]). exact H.
Qed.

Lemma cdMatchHere_trailing (target : str) :
  target <> [] -> forallb Bash.isTargetChar target = true ->
  Bash.cdMatchHere (u "cd " ++ target) = Some (target, 3 + length target).
Proof.
  intros Hne Hall. destruct target as [|t target]; [done|].
  pose proof Hall as Hall'. cbn [forallb] in Hall'.
  apply andb_true_iff in Hall' as [Ht _].
  change (u "cd " ++ t :: target) with (99%N :: 100%N :: 32%N :: t :: target).
  cbn [Bash.cdMatchHere].
  change (Bash.spanWhile isWhiteSpace (32%N :: t :: target))
    with (let '(a, b) := Bash.spanWhile isWhiteSpace (t :: target) in (32%N :: a, b)).
  rewrite spanWhile_stop by (by apply isTargetChar_not_space).
  cbv iota beta. rewrite spanWhile_all by done. done.
Qed.

Lemma cdTargets_before_match (pre s : str) :
  includes pre (u "cd") = false ->
  Bash.cdTargets (pre ++ 99%N :: s) 0 = Bash.cdTargets (99%N :: s) 0.
Proof.
  induction pre as [|x pre IH]; intros Hnone; [done|].
  apply includes_cons in Hnone as [Hhere Hrest].
  change ((x :: pre) ++ 99%N :: s) with (x :: (pre ++ 99%N :: s)).
  cbn [Bash.cdTargets]. rewrite cdMatchHere_None; [by apply IH|].
  destruct pre as [|y pre].
  - cbn. destruct (N.eqb 99 x); done.
  - exact Hhere.
Qed.

Lemma cdTargets_match (c : char) (s target : str) (len : nat) :
  Bash.cdMatchHere (c :: s) = Some (target, len) ->
  Bash.cdTargets (c :: s) 0 = target :: Bash.cdTargets s (len - 1).
Proof. intros H. cbn [Bash.cdTargets]. by rewrite H. Qed.

(** X16. A command that ends in [cd] and a target which resolves to a path
    that does not begin with the base directory is refused before any
    process is started, whatever comes before the letters [cd]. *)
Theorem runBash_trailing_cd_escape_blocked
    (rt : Runtime) (pre target baseCwd : str) :
  let command := pre ++ u "cd " ++ target in
  includes pre (u "cd") = false ->
  target <> [] -> forallb Bash.isTargetChar target = true ->
  Bash.checkDenylist command = Ok tt ->
  startsWith (Path.resolve (processCwd rt) [baseCwd; target]) baseCwd = false ->
  Bash.runBash rt command (Some baseCwd)
  = (Throw (u "Directory escape blocked: cd to '" ++ target
            ++ u "' would leave the working directory."), []).
Proof.
  intros command Hpre Hne Hall Hallowed Hescape.
  unfold Bash.runBash. rewrite Hallowed.
  change (default (processCwd rt) (Some baseCwd)) with baseCwd.
  assert (Bash.cdTargets command 0 = [target]) as Htargets.
  { unfold command.
    change (u "cd " ++ target) with (99%N :: (100%N :: 32%N :: target)).
    rewrite cdTargets_before_match by done.
    rewrite (cdTargets_match _ _ target (3 + length target))
      by (by apply cdMatchHere_trailing).
    rewrite cdTargets_skip_all; [done|]. simpl. lia. }
  unfold Bash.cwdEscape. rewrite Htargets. cbn [find]. by rewrite Hescape.
Qed.

Lemma runBash_trailing_cd_escape_blocked_witness :
  let pre := u "make && " in
  let target := u "../other" in
  let command := pre ++ u "cd " ++ target in
  includes pre (u "cd") = false
  /\ target <> []
  /\ forallb Bash.isTargetChar target = true
  /\ Bash.checkDenylist command = Ok tt
  /\ startsWith (Path.resolve (processCwd Samples.posix) [Samples.appDir; target])
       Samples.appDir = false
  /\ Bash.runBash Samples.posix command (Some Samples.appDir)
     = (Throw (u "Directory escape blocked: cd to '" ++ target
               ++ u "' would leave the working directory."), []).
Proof.
  intros pre target command.
  assert (includes pre (u "cd") = false) as Hpre by reflexivity.
  assert (target <> []) as Hne by done.
  assert (forallb Bash.isTargetChar target = true) as Hall by reflexivity.
  assert (Bash.checkDenylist command = Ok tt) as Hallowed by (vm_compute; reflexivity).
  assert (startsWith (Path.resolve (processCwd Samples.posix) [Samples.appDir; target])
            Samples.appDir = false) as Hescape by (vm_compute; reflexivity).
  split; [exact Hpre|]. split; [exact Hne|]. split; [exact Hall|].
  split; [exact Hallowed|]. split; [exact Hescape|].
  exact (runBash_trailing_cd_escape_blocked Samples.posix pre target Samples.appDir
           Hpre Hne Hall Hallowed Hescape).
Defined.

(** ** The asynchronous shell tool *)

Section RunBashAsync.

Variable hasSignal : bool.

Lemma killOnce_kills (c : BashTool.Child) :
  BashTool.kills c = (if BashTool.killed c then 1 else 0) ->
  BashTool.kills (BashTool.killOnce c) = 1
  /\ BashTool.killed (BashTool.killOnce c) = true.
Proof.
  unfold BashTool.killOnce. destruct (BashTool.killed c) eqn:Hk; cbn; [by rewrite Hk|].
  intros ->. done.
Qed.

(** [child.kill] is called when [killed] is set, and only then. *)
Lemma handle_kills (c : BashTool.Child) (ev : BashTool.ChildEvent) :
  BashTool.kills c = (if BashTool.killed c then 1 else 0) ->
  BashTool.kills (BashTool.handle hasSignal c ev)
  = (if BashTool.killed (BashTool.handle hasSignal c ev) then 1 else 0)
  /\ (BashTool.kills (BashTool.handle hasSignal c ev) = BashTool.kills c
      \/ ev = BashTool.SignalAbort \/ ev = BashTool.TimerFires).
Proof.
  intros Hc. destruct ev as [chunk|chunk| | |code|message]; cbn; try by auto.
  - destruct hasSignal; [|by auto].
    destruct (BashTool.abortListener c); [|by auto].
    match goal with |- context [BashTool.killOnce ?c'] =>
      destruct (killOnce_kills c' Hc) as [-> ->] end. auto.
  - destruct (BashTool.timer c); [|by auto].
    match goal with |- context [BashTool.killOnce ?c'] =>
      destruct (killOnce_kills c' Hc) as [-> ->] end. auto.
Qed.

Lemma run_events_kills (events : list BashTool.ChildEvent) (c : BashTool.Child) :
  BashTool.kills c = (if BashTool.killed c then 1 else 0) ->
  BashTool.kills (fold_left (BashTool.handle hasSignal) events c)
  = (if BashTool.killed (fold_left (BashTool.handle hasSignal) events c) then 1 else 0)
  /\ (BashTool.kills (fold_left (BashTool.handle hasSignal) events c) = BashTool.kills c
      \/ BashTool.SignalAbort ∈ events \/ BashTool.TimerFires ∈ events).
Proof.
  revert c. induction events as [|ev events IH]; intros c Hc; [by auto|].
  cbn [fold_left]. destruct (handle_kills c ev Hc) as [Hinv Hstep].
  destruct (IH _ Hinv) as [Hfinal Hrest]. split; [exact Hfinal|].
  destruct Hrest as [Hsame|[Habort|Htimer]].
  - rewrite Hsame. destruct Hstep as [Hk | [-> | ->]]; [by left| |].
    + right. left. left.
    + right. right. left.
  - right. left. by right.
  - right. right. by right.
Qed.

Lemma handle_withinBuffer (c : BashTool.Child) (ev : BashTool.ChildEvent) :
  (forall chunk, ev = BashTool.StdoutData chunk ->
     (N.of_nat (length (BashTool.toString chunk)) <= BashTool.byteLength chunk)%N) ->
  withinBuffer c -> withinBuffer (BashTool.handle hasSignal c ev).
Proof.
  intros Hchunk (Hlen & Hmax & Hres). unfold withinBuffer.
  destruct ev as [chunk|chunk| | |code|message]; cbn.
  - specialize (Hchunk chunk eq_refl).
    destruct (N.leb_spec (BashTool.stdoutLen c + BashTool.byteLength chunk)
                BashTool.MAX_BUFFER) as [Hfits|Hover].
    + rewrite length_app. split; [lia|]. split; [lia|done].
    + split; [lia|]. split; [lia|done].
  - done.
  - destruct hasSignal; [|done]. destruct (BashTool.abortListener c); [|done].
    unfold BashTool.killOnce. cbn. by destruct (BashTool.killed c).
  - destruct (BashTool.timer c); [|done].
    unfold BashTool.killOnce. cbn. by destruct (BashTool.killed c).
  - split; [done|]. split; [done|]. intros r Hr.
    destruct (BashTool.resolved c) as [first|] eqn:Hfirst.
    + apply Hres. congruence.
    + injection Hr as <-. exact Hmax.
  - split; [done|]. split; [done|]. intros r Hr.
    destruct (BashTool.resolved c) as [first|] eqn:Hfirst.
    + apply Hres. congruence.
    + injection Hr as <-. cbn. unfold BashTool.MAX_BUFFER. lia.
Qed.

Lemma run_events_withinBuffer (events : list BashTool.ChildEvent) (c : BashTool.Child) :
  (forall chunk, BashTool.StdoutData chunk ∈ events ->
     (N.of_nat (length (BashTool.toString chunk)) <= BashTool.byteLength chunk)%N) ->
  withinBuffer c -> withinBuffer (fold_left (BashTool.handle hasSignal) events c).
Proof.
  revert c. induction events as [|ev events IH]; intros c Hchunks Hc; [done|].
  cbn [fold_left]. apply IH.
  - intros chunk Hin. apply Hchunks. by right.
  - apply handle_withinBuffer; [|done]. intros chunk ->. apply Hchunks. left.
Qed.

Lemma run_events_running (events : list BashTool.ChildEvent) (fired : bool)
    (c : BashTool.Child) :
  hasSignal = true ->
  forallb (fun ev => negb (isSettling ev)) events = true ->
  running fired c ->
  running (fired || existsb isAbort events)
    (fold_left (BashTool.handle hasSignal) events c).
Proof.
  intros Hsignal. revert fired c.
  induction events as [|ev events IH]; intros fired c Hnone Hc.
  - cbn [existsb fold_left]. by rewrite orb_false_r.
  - cbn [forallb] in Hnone. apply andb_true_iff in Hnone as [Hev Hnone].
    cbn [fold_left existsb]. destruct Hc as (Hpending & Hkills & Hfired).
    destruct ev as [chunk|chunk| | |code|message]; try discriminate;
      cbn [isAbort orb].
    + by apply IH.
    + by apply IH.
    + rewrite orb_true_r. apply (IH true); [done|].
      unfold running. cbn [BashTool.handle]. rewrite Hsignal.
      unfold BashTool.killOnce. cbn.
      destruct fired.
      * destruct Hfired as [Hk Ha]. rewrite Hk in Hkills.
        destruct (BashTool.abortListener c); cbn; rewrite Hk; cbn; rewrite ?Hk; done.
      * rewrite Hfired. destruct (BashTool.killed c) eqn:Hk; cbn; rewrite ?Hk; try done.
        by rewrite Hkills.
    + apply IH; [done|].
      unfold running. cbn [BashTool.handle].
      destruct (BashTool.timer c); [|done].
      unfold BashTool.killOnce. cbn.
      destruct (BashTool.killed c) eqn:Hk; cbn; rewrite ?Hk; [done|].
      split; [done|]. split; [by rewrite Hkills|].
      destruct fired; [|done]. by destruct Hfired.
Qed.

(** After the child has ended nothing changes the value of the promise or
    sends another signal. *)
Lemma run_events_settled (events : list BashTool.ChildEvent) (c : BashTool.Child)
    (r : BashResult) :
  BashTool.resolved c = Some r ->
  BashTool.abortListener c = false -> BashTool.timer c = false ->
  BashTool.resolved (fold_left (BashTool.handle hasSignal) events c) = Some r
  /\ BashTool.kills (fold_left (BashTool.handle hasSignal) events c) = BashTool.kills c.
Proof.
  revert c. induction events as [|ev events IH]; intros c Hr Hl Ht; [done|].
  cbn [fold_left].
  assert (BashTool.resolved (BashTool.handle hasSignal c ev) = Some r
          /\ BashTool.abortListener (BashTool.handle hasSignal c ev) = false
          /\ BashTool.timer (BashTool.handle hasSignal c ev) = false
          /\ BashTool.kills (BashTool.handle hasSignal c ev) = BashTool.kills c)
    as (Hr' & Hl' & Ht' & Hk').
  { destruct ev as [chunk|chunk| | |code|message]; cbn; rewrite ?Hr, ?Hl, ?Ht; try done.
    by destruct hasSignal. }
  destruct (IH _ Hr' Hl' Ht') as [-> ->]. done.
Qed.

End RunBashAsync.

(** X17. [runBashAsync] starts at most one process and signals it at most
    once, and only when the signal fires or the timer runs out: output
    beyond the buffer limit, for one, does not kill the child. *)
Theorem runBashAsync_signals_child_at_most_once
    (rt : Runtime) (command : str) (cwd : option str) (signal : option bool)
    (events : list BashTool.ChildEvent) (run : BashTool.AsyncRun) :
  BashTool.runBashAsync rt command cwd signal events = Ok run ->
  length (BashTool.spawns run) <= 1
  /\ BashTool.signalsSent run <= length (BashTool.spawns run)
  /\ (BashTool.signalsSent run = 1 ->
      BashTool.SignalAbort ∈ events \/ BashTool.TimerFires ∈ events).
Proof.
  unfold BashTool.runBashAsync.
  destruct (BashTool.checkDenylist command); [|discriminate].
  destruct (default false signal).
  { intros Hrun. injection Hrun as <-. cbn. split; [lia|]. split; [lia|]. discriminate. }
  intros Hrun. injection Hrun as <-.
  cbn [BashTool.spawns BashTool.signalsSent length].
  destruct (run_events_kills (bool_decide (is_Some signal)) events
              (BashTool.spawned (bool_decide (is_Some signal))) eq_refl) as [Hkills Hwhy].
  split; [lia|]. split.
  - rewrite Hkills. destruct (BashTool.killed _); lia.
  - intros Hone. destruct Hwhy as [Hsame|Hwhy]; [|exact Hwhy].
    rewrite Hone in Hsame. discriminate.
Qed.

Lemma runBashAsync_signals_child_at_most_once_witness :
  let events := [BashTool.StdoutData {| BashTool.byteLength := 3;
                                        BashTool.toString := u "abc" |};
                 BashTool.SignalAbort; BashTool.TimerFires; BashTool.Close None] in
  let run := {| BashTool.promise :=
                  Some {| stdout := u "abc"; stderr := u "Aborted"; exitCode := 130 |};
                BashTool.spawns := [mkSpawn (u "sleep 60") Samples.appDir];
                BashTool.signalsSent := 1 |} in
  BashTool.runBashAsync Samples.posix (u "sleep 60") None (Some false) events = Ok run
  /\ length (BashTool.spawns run) <= 1
  /\ BashTool.signalsSent run <= length (BashTool.spawns run)
  /\ (BashTool.signalsSent run = 1 ->
      BashTool.SignalAbort ∈ events \/ BashTool.TimerFires ∈ events).
Proof.
  intros events run.
  assert (BashTool.runBashAsync Samples.posix (u "sleep 60") None (Some false) events
          = Ok run) as Hrun by (vm_compute; reflexivity).
  split; [exact Hrun|].
  exact (runBashAsync_signals_child_at_most_once Samples.posix (u "sleep 60") None
           (Some false) events run Hrun).
Defined.

(** X18. The standard output that [runBashAsync] returns never exceeds
    [MAX_BUFFER] code units, however much the child writes; a chunk
    decodes to no more code units than it has bytes. *)
Theorem runBashAsync_stdout_within_buffer
    (rt : Runtime) (command : str) (cwd : option str) (signal : option bool)
    (events : list BashTool.ChildEvent) (run : BashTool.AsyncRun) (r : BashResult) :
  (forall chunk, BashTool.StdoutData chunk ∈ events ->
     (N.of_nat (length (BashTool.toString chunk)) <= BashTool.byteLength chunk)%N) ->
  BashTool.runBashAsync rt command cwd signal events = Ok run ->
  BashTool.promise run = Some r ->
  (N.of_nat (length (stdout r)) <= BashTool.MAX_BUFFER)%N.
Proof.
  intros Hchunks. unfold BashTool.runBashAsync.
  destruct (BashTool.checkDenylist command); [|discriminate].
  destruct (default false signal).
  { intros Hrun. injection Hrun as <-. cbn. intros Hr. injection Hr as <-. cbn.
    unfold BashTool.MAX_BUFFER. lia. }
  intros Hrun. injection Hrun as <-. cbn [BashTool.promise]. intros Hr.
  assert (withinBuffer (BashTool.spawned (bool_decide (is_Some signal)))) as Hstart.
  { unfold withinBuffer. cbn. unfold BashTool.MAX_BUFFER.
    split; [lia|]. split; [lia|]. intros ? ?. discriminate. }
  destruct (run_events_withinBuffer (bool_decide (is_Some signal)) events _
              Hchunks Hstart) as (_ & _ & Hres).
  by apply Hres.
Qed.

Lemma runBashAsync_stdout_within_buffer_witness :
  let big := {| BashTool.byteLength := 10 * 1024 * 1024; BashTool.toString := u "x" |} in
  let small := {| BashTool.byteLength := 2; BashTool.toString := u "ab" |} in
  let events := [BashTool.StdoutData small; BashTool.StdoutData big;
                 BashTool.StdoutData small; BashTool.Close (Some 0%Z)] in
  let r := {| stdout := u "ab"; stderr := []; exitCode := 0 |} in
  let run := {| BashTool.promise := Some r;
                BashTool.spawns := [mkSpawn (u "yes") Samples.appDir];
                BashTool.signalsSent := 0 |} in
  (forall chunk, BashTool.StdoutData chunk ∈ events ->
     (N.of_nat (length (BashTool.toString chunk)) <= BashTool.byteLength chunk)%N)
  /\ BashTool.runBashAsync Samples.posix (u "yes") None None events = Ok run
  /\ BashTool.promise run = Some r
  /\ (N.of_nat (length (stdout r)) <= BashTool.MAX_BUFFER)%N.
Proof.
  intros big small events r run.
  assert (forall chunk, BashTool.StdoutData chunk ∈ events ->
            (N.of_nat (length (BashTool.toString chunk)) <= BashTool.byteLength chunk)%N)
    as Hchunks.
  { intros chunk Hin. unfold events in Hin.
    repeat (apply elem_of_cons in Hin as [Hin|Hin];
            [first [injection Hin as ->; vm_compute; discriminate | discriminate]|]).
    by apply elem_of_nil in Hin. }
  assert (BashTool.runBashAsync Samples.posix (u "yes") None None events = Ok run)
    as Hrun by (vm_compute; reflexivity).
  split; [exact Hchunks|]. split; [exact Hrun|]. split; [reflexivity|].
  exact (runBashAsync_stdout_within_buffer Samples.posix (u "yes") None None events run r
           Hchunks Hrun eq_refl).
Defined.

Lemma existsb_isAbort (events : list BashTool.ChildEvent) :
  BashTool.SignalAbort ∈ events -> existsb isAbort events = true.
Proof.
  induction events as [|ev events IH]; intros Hin; [by apply elem_of_nil in Hin|].
  apply elem_of_cons in Hin as [<-|Hin]; [done|].
  cbn [existsb]. rewrite IH by done. apply orb_true_r.
Qed.

(** X19. When the signal fires while the child runs, the child is signalled
    once, and the promise resolves when the child closes: with the exit
    code of the child or else 130, and with an error output that is not
    empty.  What follows the close changes nothing. *)
Theorem runBashAsync_abort_while_running
    (rt : Runtime) (command : str) (cwd : option str)
    (before after : list BashTool.ChildEvent) (code : option Z) :
  BashTool.checkDenylist command = Ok tt ->
  forallb (fun ev => negb (isSettling ev)) before = true ->
  BashTool.SignalAbort ∈ before ->
  exists run r,
    BashTool.runBashAsync rt command cwd (Some false)
      (before ++ BashTool.Close code :: after) = Ok run
    /\ BashTool.promise run = Some r
    /\ exitCode r = default 130%Z code
    /\ stderr r <> []
    /\ BashTool.signalsSent run = 1.
Proof.
  intros Hallowed Hrunning Habort. unfold BashTool.runBashAsync. rewrite Hallowed.
  cbn [default]. change (bool_decide (is_Some (Some false))) with true.
  rewrite fold_left_app. cbn [fold_left].
  destruct (run_events_running true before false (BashTool.spawned true) eq_refl Hrunning)
    as (Hpending & Hkills & Hfired); [done|].
  rewrite existsb_isAbort in Hfired by done. cbn [orb] in Hfired.
  destruct Hfired as [Hkilled Haborted]. rewrite Hkilled in Hkills.
  set (c := fold_left (BashTool.handle true) before (BashTool.spawned true)) in *.
  set (r := {| stdout := BashTool.childStdout c;
               stderr := match BashTool.childStderr c with
                         | [] => u "Aborted"
                         | _ => BashTool.childStderr c
                         end;
               exitCode := default 130%Z code |}).
  assert (BashTool.handle true c (BashTool.Close code)
          = BashTool.settle c r) as Hclose.
  { cbn [BashTool.handle]. rewrite Hkilled, Haborted. cbn [andb].
    unfold r. by destruct code. }
  rewrite Hclose.
  destruct (run_events_settled true after (BashTool.settle c r) r) as [Hr Hk].
  { cbn. by rewrite Hpending. }
  { done. }
  { done. }
  eexists _, r. split; [done|]. cbn [BashTool.promise BashTool.signalsSent].
  split; [exact Hr|]. split; [done|]. split.
  - cbn [stderr r]. by destruct (BashTool.childStderr c).
  - rewrite Hk. exact Hkills.
Qed.

Lemma runBashAsync_abort_while_running_witness :
  let before := [BashTool.StderrData {| BashTool.byteLength := 4;
                                        BashTool.toString := u "warn" |};
                 BashTool.SignalAbort] in
  let after := [BashTool.TimerFires; BashTool.SignalAbort] in
  BashTool.checkDenylist (u "npm test") = Ok tt
  /\ forallb (fun ev => negb (isSettling ev)) before = true
  /\ BashTool.SignalAbort ∈ before
  /\ exists run r,
       BashTool.runBashAsync Samples.posix (u "npm test") None (Some false)
         (before ++ BashTool.Close None :: after) = Ok run
       /\ BashTool.promise run = Some r
       /\ exitCode r = default 130%Z None
       /\ stderr r <> []
       /\ BashTool.signalsSent run = 1.
Proof.
  intros before after.
  assert (BashTool.checkDenylist (u "npm test") = Ok tt) as Hallowed
    by (vm_compute; reflexivity).
  assert (forallb (fun ev => negb (isSettling ev)) before = true) as Hrunning
    by reflexivity.
  assert (BashTool.SignalAbort ∈ before) as Habort by (right; left).
  split; [exact Hallowed|]. split; [exact Hrunning|]. split; [exact Habort|].
  exact (runBashAsync_abort_while_running Samples.posix (u "npm test") None before after
           None Hallowed Hrunning Habort).
Defined.

(** ** Retrying *)

Section RetryAbort.

Context {T : Type} (rt : Runtime) (w : Retry.World T).

(** An attempt that fails while the signal is aborted is the last. *)
Lemma retryLoop_abort (remaining attempt : nat) (lastErr : option Thrown)
    (k : nat) (err : Thrown) :
  attempt <= k ->
  k < attempt + Retry.calls (Retry.retryLoop rt w remaining attempt lastErr) ->
  Retry.fn w k = Rejected err -> Retry.aborted w k = true ->
  attempt + Retry.calls (Retry.retryLoop rt w remaining attempt lastErr) = S k
  /\ Retry.settled (Retry.retryLoop rt w remaining attempt lastErr) = Rejected err.
Proof.
  intros Hle Hlt Hfn Habort. revert attempt lastErr Hle Hlt.
  induction remaining as [|rem IH]; intros attempt lastErr Hle Hlt.
  - cbn in Hlt. lia.
  - cbn [Retry.retryLoop] in *.
    destruct (Retry.fn w attempt) as [v|e] eqn:Hattempt.
    + cbn in *. assert (k = attempt) as -> by lia. congruence.
    + destruct (negb (Retry.isRetryable rt e) || Nat.eqb attempt Retry.MAX_ATTEMPTS
                || Retry.aborted w attempt) eqn:Hstop.
      * cbn in *. assert (k = attempt) as -> by lia.
        split; [lia|]. congruence.
      * cbn [Retry.calls Retry.settled] in *.
        apply orb_false_iff in Hstop as [_ Hgoes].
        assert (k <> attempt) as Hne by (intros ->; congruence).
        destruct (IH (S attempt) (Some e)) as [Hcalls Hsettled]; [lia|lia|].
        split; [lia|exact Hsettled].
Qed.

(** X20. When the signal is aborted as an attempt fails, [withRetry] makes
    no further attempt and rejects with the error of that attempt, also
    when the error is one that would be retried. *)
Theorem withRetry_abort_ends_retrying (k : nat) (err : Thrown) :
  1 <= k <= Retry.calls (Retry.withRetry rt w) ->
  Retry.fn w k = Rejected err -> Retry.aborted w k = true ->
  Retry.calls (Retry.withRetry rt w) = k
  /\ Retry.settled (Retry.withRetry rt w) = Rejected err.
Proof.
  intros Hk Hfn Habort. unfold Retry.withRetry in *.
  destruct (retryLoop_abort Retry.MAX_ATTEMPTS 1 None k err) as [Hcalls Hsettled];
    [lia|lia|done|done|].
  split; [lia|exact Hsettled].
Qed.

(** X21. [withRetry] waits at most twice, after the first and the second
    attempt, and for no more than 3750 ms in all, the delays being the
    integers the code computes in double arithmetic. *)
Theorem withRetry_total_delay :
  (forall n, (0 <= Retry.random w n)%Q /\ (Retry.random w n < 1)%Q) ->
  length (Retry.slept (Retry.withRetry rt w)) = Retry.calls (Retry.withRetry rt w) - 1
  /\ length (Retry.slept (Retry.withRetry rt w)) <= 2
  /\ (foldr Z.add 0 (Retry.slept (Retry.withRetry rt w)) <= 3750)%Z.
Proof.
  intros Hrandom.
  destruct (retryLoop_spec rt w Retry.MAX_ATTEMPTS 1 None) as
    (Hcalls & _ & Hslept & Hlen & Hretries);
    [unfold Retry.MAX_ATTEMPTS; lia | done |].
  fold (Retry.withRetry rt w) in Hcalls, Hslept, Hlen, Hretries.
  unfold Retry.MAX_ATTEMPTS in Hcalls.
  rewrite Hslept, length_map. split; [exact Hlen|]. split; [lia|].
  assert (forall k a d e, Retry.retries (Retry.withRetry rt w) !! k = Some (a, d, e) ->
            (d <= 1250 * 2 ^ Z.of_nat k)%Z) as Hbound.
  { intros k a d e Hlook. destruct (Hretries k a d e Hlook) as (Ha & _ & _ & Hd).
    simpl in Ha. subst a. rewrite baseDelay_S in Hd. subst d.
    destruct (Hrandom (S k)) as [Hr0 Hr1].
    assert (k < 2) as Hk2 by (apply lookup_lt_Some in Hlook; lia).
    assert ((1000 * 2 ^ Z.of_nat k = 1000 \/ 1000 * 2 ^ Z.of_nat k = 2000)%Z) as Hbase.
    { destruct k as [|[|k]]; [by left | by right | lia]. }
    pose proof (jittered_within_quarter _ _ Hbase Hr0 Hr1). lia. }
  destruct (Retry.retries (Retry.withRetry rt w)) as [|[[a1 d1] e1] [|[[a2 d2] e2] rest]].
  - cbn [map foldr]. lia.
  - pose proof (Hbound 0 a1 d1 e1 eq_refl) as H1.
    change (2 ^ Z.of_nat 0)%Z with 1%Z in H1.
    cbn [map foldr fst snd]. lia.
  - pose proof (Hbound 0 a1 d1 e1 eq_refl) as H1.
    pose proof (Hbound 1 a2 d2 e2 eq_refl) as H2.
    change (2 ^ Z.of_nat 0)%Z with 1%Z in H1.
    change (2 ^ Z.of_nat 1)%Z with 2%Z in H2.
    destruct rest as [|r rest]; [|cbn [length] in Hlen; lia].
    cbn [map foldr fst snd]. lia.
Qed.

End RetryAbort.

Lemma withRetry_abort_ends_retrying_witness :
  let failure := ThrownError (u "503 Service Unavailable") in
  let w := {| Retry.fn := fun _ => @Rejected Z failure;
              Retry.random := fun _ => (1 # 2)%Q;
              Retry.aborted := fun n => Nat.eqb n 2 |} in
  1 <= 2 <= Retry.calls (Retry.withRetry Samples.posix w)
  /\ Retry.fn w 2 = Rejected failure
  /\ Retry.aborted w 2 = true
  /\ Retry.calls (Retry.withRetry Samples.posix w) = 2
  /\ Retry.settled (Retry.withRetry Samples.posix w) = Rejected failure.
Proof.
  intros failure w.
  assert (1 <= 2 <= Retry.calls (Retry.withRetry Samples.posix w)) as Hk
    by (vm_compute; lia).
  split; [exact Hk|]. split; [reflexivity|]. split; [reflexivity|].
  exact (withRetry_abort_ends_retrying Samples.posix w 2 failure Hk eq_refl eq_refl).
Defined.

Lemma withRetry_total_delay_witness :
  let failure := ThrownError (u "429 Too Many Requests") in
  let w := {| Retry.fn := fun _ => @Rejected Z failure;
              Retry.random := fun _ => (3 # 4)%Q;
              Retry.aborted := fun _ => false |} in
  ((forall n, (0 <= Retry.random w n)%Q /\ (Retry.random w n < 1)%Q)
  /\ length (Retry.slept (Retry.withRetry Samples.posix w))
     = Retry.calls (Retry.withRetry Samples.posix w) - 1
  /\ length (Retry.slept (Retry.withRetry Samples.posix w)) <= 2
  /\ (foldr Z.add 0 (Retry.slept (Retry.withRetry Samples.posix w)) <= 3750)%Z)
  /\ Retry.slept (Retry.withRetry Samples.posix w) = [1125%Z; 2250%Z].
Proof.
  intros failure w.
  assert (forall n, (0 <= Retry.random w n)%Q /\ (Retry.random w n < 1)%Q) as Hrandom.
  { intros n. split; reflexivity || discriminate. }
  split; [|vm_compute; reflexivity].
  split; [exact Hrandom|].
  exact (withRetry_total_delay Samples.posix w Hrandom).
Defined.

(** ** Editing the input line *)

(** X22. With the cursor inside the line or at its end, [deleteLeftOfCursor]
    removes exactly the code unit before the cursor and puts the cursor
    where that code unit was; at the start of the line it changes
    nothing.  The cursor stays within the line. *)
Theorem deleteLeftOfCursor_removes_one (value : str) (cursor : Z) :
  (0 <= cursor <= Z.of_nat (length value))%Z ->
  let r := InputEditing.deleteLeftOfCursor value cursor in
  (0 <= InputEditing.cursor r <= Z.of_nat (length (InputEditing.value r)))%Z
  /\ (cursor = 0%Z -> r = {| InputEditing.value := value; InputEditing.cursor := 0 |})
  /\ ((0 < cursor)%Z ->
      InputEditing.cursor r = (cursor - 1)%Z
      /\ exists c,
           value !! Z.to_nat (cursor - 1) = Some c
           /\ value = take (Z.to_nat (cursor - 1)) (InputEditing.value r)
                      ++ c :: drop (Z.to_nat (cursor - 1)) (InputEditing.value r)).
Proof.
  intros Hcursor r. unfold r, InputEditing.deleteLeftOfCursor.
  destruct (Z.leb_spec cursor 0) as [Hle|Hgt].
  - cbn [InputEditing.cursor InputEditing.value].
    split; [lia|]. split; [done|]. lia.
  - cbn [InputEditing.cursor InputEditing.value].
    set (n := Z.to_nat (cursor - 1)).
    assert (Z.to_nat cursor = S n) as -> by (unfold n; lia).
    assert (n < length value) as Hn by (unfold n; lia).
    destruct (lookup_lt_is_Some_2 value n Hn) as [c Hc].
    split.
    { rewrite length_app, length_take, length_drop. lia. }
    split; [lia|]. intros _. split; [done|].
    exists c. split; [done|].
    assert (length (take n value) = n) as Hlen by (rewrite length_take; lia).
    rewrite take_app_length' by done. rewrite drop_app_length' by done.
    rewrite <- (take_drop n value) at 1. f_equal.
    by apply drop_S.
Qed.

Lemma deleteLeftOfCursor_removes_one_witness :
  let r := InputEditing.deleteLeftOfCursor (u "123") 2 in
  (0 <= 2 <= Z.of_nat (length (u "123")))%Z
  /\ (0 <= InputEditing.cursor r <= Z.of_nat (length (InputEditing.value r)))%Z
  /\ (2%Z = 0%Z -> r = {| InputEditing.value := u "123"; InputEditing.cursor := 0 |})
  /\ ((0 < 2)%Z ->
      InputEditing.cursor r = (2 - 1)%Z
      /\ exists c,
           u "123" !! Z.to_nat (2 - 1) = Some c
           /\ u "123" = take (Z.to_nat (2 - 1)) (InputEditing.value r)
                        ++ c :: drop (Z.to_nat (2 - 1)) (InputEditing.value r)).
Proof.
  intros r.
  assert (0 <= 2 <= Z.of_nat (length (u "123")))%Z as Hcursor by (simpl; lia).
  split; [exact Hcursor|].
  exact (deleteLeftOfCursor_removes_one (u "123") 2 Hcursor).
Defined.

(** ** The deny list of the read tool *)

Lemma normalizeLoop_plain (allow : bool) (segs rest res : list str) :
  Forall ordinarySegment segs ->
  Path.normalizeLoop allow (segs ++ rest) res
  = Path.normalizeLoop allow rest (rev segs ++ res).
Proof.
  intros Hall. revert res. induction Hall as [|seg segs (Hne & Hdot & Hdotdot) _ IH];
    intros res; [done|].
  cbn [app Path.normalizeLoop]. rewrite !str_eqb_false by done. cbn [orb].
  rewrite IH. cbn [rev]. by rewrite <- app_assoc.
Qed.

Lemma join_app (sep : str) (a b : list str) :
  a <> [] -> b <> [] -> join sep (a ++ b) = join sep a ++ sep ++ join sep b.
Proof.
  intros Ha Hb. induction a as [|x a IH]; [done|].
  destruct a as [|y a].
  - destruct b as [|z b]; [done|]. done.
  - change (join sep ((x :: y :: a) ++ b)) with (x ++ sep ++ join sep ((y :: a) ++ b)).
    rewrite IH by done.
    change (join sep (x :: y :: a)) with (x ++ sep ++ join sep (y :: a)).
    by rewrite <- !app_assoc.
Qed.

Lemma plainSegments_split (segs : list str) :
  segs <> [] -> Forall plainSegment segs ->
  splitChar Path.slash (join [Path.slash] segs) = segs.
Proof.
  intros Hne Hall. apply splitChar_join; [done|].
  eapply Forall_impl; [exact Hall|]. by intros seg [? _].
Qed.

(** An absolute path of plain segments is its own resolution. *)
Lemma resolve_absolutePath (processCwd : str) (segs : list str) :
  segs <> [] -> Forall plainSegment segs ->
  Path.resolve processCwd [absolutePath segs] = absolutePath segs.
Proof.
  intros Hne Hall. unfold Path.resolve, absolutePath.
  cbn [rev app Path.resolveLoop Path.isAbsolute]. rewrite N.eqb_refl.
  cbn [negb]. f_equal. unfold Path.normalizeString.
  rewrite split_splitChar.
  change ((Path.slash :: join [Path.slash] segs) ++ [Path.slash] ++ [])
    with (Path.slash :: (join [Path.slash] segs ++ Path.slash :: [])).
  cbn [splitChar]. rewrite N.eqb_refl.
  rewrite splitChar_app_sep, plainSegments_split by done.
  cbn [Path.normalizeLoop]. change (str_eqb [] []) with true. cbn [orb].
  rewrite normalizeLoop_plain by (eapply Forall_impl; [exact Hall|]; by intros seg [_ ?]).
  cbn [splitChar Path.normalizeLoop]. change (str_eqb [] []) with true. cbn [orb].
  by rewrite app_nil_r, rev_involutive.
Qed.

Lemma startsWith_prefix (p s : str) : startsWith (p ++ s) p = true.
Proof. induction p as [|c p IH]; [done|]. simpl. by rewrite N.eqb_refl, IH. Qed.

Lemma dropInnerEmpty_nonempty (segs : list str) :
  Forall (fun seg => seg <> []) segs -> Read.dropInnerEmpty segs = segs.
Proof.
  induction 1 as [|seg segs Hne _ IH]; [done|].
  cbn [Read.dropInnerEmpty]. destruct segs as [|seg' segs]; [done|].
  destruct seg; [done|]. by rewrite IH.
Qed.

Lemma splitSlashes_plain (segs : list str) :
  segs <> [] -> Forall plainSegment segs ->
  Read.splitSlashes (join [Path.slash] segs) = segs.
Proof.
  intros Hne Hall. unfold Read.splitSlashes.
  rewrite split_splitChar, plainSegments_split by done.
  destruct segs as [|seg segs]; [done|]. f_equal.
  apply dropInnerEmpty_nonempty. apply Forall_inv_tail in Hall.
  eapply Forall_impl; [exact Hall|]. by intros s (_ & ? & _).
Qed.

(** The path that the patterns are applied to, for a file of the home
    directory. *)
Lemma isDenied_below_home (rt : Runtime) (hsegs rsegs : list str) :
  hsegs <> [] -> rsegs <> [] -> Forall plainSegment (hsegs ++ rsegs) ->
  homedir rt = absolutePath hsegs ->
  Read.isDenied rt (absolutePath (hsegs ++ rsegs))
  = existsb (fun pattern =>
               Read.matchOne (map Read.parsePart (split pattern [Path.slash])) rsegs)
      Read.DENY_LIST.
Proof.
  intros Hh Hr Hall Hhome. unfold Read.isDenied.
  rewrite resolve_absolutePath; [|by destruct hsegs|done].
  assert (absolutePath (hsegs ++ rsegs)
          = (homedir rt ++ [Path.slash]) ++ join [Path.slash] rsegs) as ->.
  { rewrite Hhome. unfold absolutePath. rewrite join_app by done.
    cbn [app]. by rewrite <- !app_assoc. }
  assert (startsWith ((homedir rt ++ [Path.slash]) ++ join [Path.slash] rsegs)
            (homedir rt) = true) as ->.
  { rewrite <- app_assoc. apply startsWith_prefix. }
  replace (length (homedir rt) + 1) with (length (homedir rt ++ [Path.slash]))
    by (by rewrite length_app).
  rewrite drop_app_length.
  unfold Read.minimatch. rewrite splitSlashes_plain; [done|done|].
  by apply Forall_app in Hall as [_ ?].
Qed.

Lemma plainSegment_not_dots (seg : str) : plainSegment seg -> Read.isDots seg = false.
Proof.
  intros (_ & _ & Hdot & Hdotdot). unfold Read.isDots.
  by rewrite !str_eqb_false by done.
Qed.

Lemma matchOne_globstar_last (file : list str) :
  file <> [] -> Forall plainSegment file -> Read.matchOne [Read.GlobStar] file = true.
Proof.
  intros Hne Hall. destruct file as [|f file]; [done|].
  cbn [Read.matchOne]. apply forallb_forall. intros seg Hin.
  rewrite Forall_forall in Hall.
  rewrite plainSegment_not_dots; [done|]. apply Hall. by apply list_elem_of_In.
Qed.

(** [**] passes over plain segments. *)
Lemma matchOne_globstar_skip (p : Read.Part) (rest : list Read.Part)
    (pre file : list str) :
  Forall plainSegment pre -> file <> [] ->
  Read.matchOne (p :: rest) file = true ->
  Read.matchOne (Read.GlobStar :: p :: rest) (pre ++ file) = true.
Proof.
  intros Hpre Hne Hmatch. induction Hpre as [|f pre Hf _ IH].
  - destruct file as [|x file]; [done|].
    cbn [app]. cbn [Read.matchOne] in *. by rewrite Hmatch.
  - cbn [app]. destruct (pre ++ file) as [|x l] eqn:Hl.
    { by destruct pre, file. }
    cbn [Read.matchOne] in *. rewrite plainSegment_not_dots by done.
    cbn [negb andb]. rewrite IH. apply orb_true_r.
Qed.

(** X23. The read tool refuses every file that lies, at any depth, in a
    directory [.ssh], [.aws] or [.config] somewhere below the home
    directory. *)
Theorem readFile_denies_secret_directories
    (rt : Runtime) (st : FsState) (hsegs pre post : list str) (dir : str) :
  dir ∈ [u ".ssh"; u ".aws"; u ".config"] ->
  hsegs <> [] -> post <> [] -> Forall plainSegment (hsegs ++ pre ++ post) ->
  homedir rt = absolutePath hsegs ->
  let filePath := absolutePath (hsegs ++ pre ++ dir :: post) in
  Read.readFile rt st filePath
  = Throw (u "Access denied: " ++ filePath ++ u " is in the restricted path list.").
Proof.
  intros Hdir Hh Hpost Hall Hhome filePath.
  apply Forall_app in Hall as [Hhall Hall]. apply Forall_app in Hall as [Hpre Hposts].
  assert (plainSegment dir) as Hplain.
  { repeat (apply elem_of_cons in Hdir as [->|Hdir];
            [split; [by apply not_elem_forallb|by repeat split]|]).
    by apply elem_of_nil in Hdir. }
  assert (Forall plainSegment (hsegs ++ pre ++ dir :: post)) as Hall'.
  { rewrite !Forall_app. split; [done|]. split; [done|]. by constructor. }
  assert (Read.isDenied rt filePath = true) as Hdenied.
  { unfold filePath. rewrite isDenied_below_home; [|done|by destruct pre|done|done].
    assert (Read.segMatch dir dir = true) as Hseg.
    { repeat (apply elem_of_cons in Hdir as [->|Hdir]; [reflexivity|]).
      by apply elem_of_nil in Hdir. }
    assert (Read.matchOne [Read.GlobStar; Read.Segment dir; Read.GlobStar]
              (pre ++ dir :: post) = true) as Hmatch.
    { apply matchOne_globstar_skip; [done|done|].
      cbn [Read.matchOne]. rewrite Hseg. cbn [andb].
      by apply matchOne_globstar_last. }
    unfold Read.DENY_LIST. cbn [existsb].
    repeat (apply elem_of_cons in Hdir as [->|Hdir];
            [change (map Read.parsePart (split (u "**/.ssh/**") [Path.slash]))
               with [Read.GlobStar; Read.Segment (u ".ssh"); Read.GlobStar];
             change (map Read.parsePart (split (u "**/.aws/**") [Path.slash]))
               with [Read.GlobStar; Read.Segment (u ".aws"); Read.GlobStar];
             change (map Read.parsePart (split (u "**/.config/**") [Path.slash]))
               with [Read.GlobStar; Read.Segment (u ".config"); Read.GlobStar];
             rewrite Hmatch; by rewrite ?orb_true_r|]).
    by apply elem_of_nil in Hdir. }
  unfold Read.readFile.
  subst filePath. rewrite resolve_absolutePath; [|by destruct hsegs|exact Hall'].
  by rewrite Hdenied.
Qed.

Lemma plainSegment_sample (seg : str) :
  forallb (fun d => negb (N.eqb d Path.slash)) seg = true ->
  3 <= length seg -> plainSegment seg.
Proof.
  intros Hslash Hlen. split; [by apply not_elem_forallb|].
  unfold ordinarySegment, Path.dot, Path.dotdot.
  repeat split; intros ->; simpl in Hlen; lia.
Qed.

Lemma readFile_denies_secret_directories_witness :
  let hsegs := [u "home"; u "user"] in
  let pre := [u "work"] in
  let post := [u "keys"; u "id_rsa"] in
  let rt := {| processCwd := u "/srv/app"; homedir := u "/home/user";
               execSync := execSync Samples.posix;
               toLowerCase := toLowerCase Samples.posix;
               localeCompare := localeCompare Samples.posix |} in
  let filePath := absolutePath (hsegs ++ pre ++ u ".ssh" :: post) in
  u ".ssh" ∈ [u ".ssh"; u ".aws"; u ".config"]
  /\ hsegs <> [] /\ post <> []
  /\ Forall plainSegment (hsegs ++ pre ++ post)
  /\ homedir rt = absolutePath hsegs
  /\ filePath = u "/home/user/work/.ssh/keys/id_rsa"
  /\ Read.readFile rt Fs.empty filePath
     = Throw (u "Access denied: " ++ filePath ++ u " is in the restricted path list.").
Proof.
  intros hsegs pre post rt filePath.
  assert (u ".ssh" ∈ [u ".ssh"; u ".aws"; u ".config"]) as Hdir by left.
  assert (hsegs <> []) as Hh by done.
  assert (post <> []) as Hpost by done.
  assert (Forall plainSegment (hsegs ++ pre ++ post)) as Hall.
  { repeat constructor; apply plainSegment_sample; (reflexivity || (simpl; lia)). }
  assert (homedir rt = absolutePath hsegs) as Hhome by reflexivity.
  split; [exact Hdir|]. split; [exact Hh|]. split; [exact Hpost|].
  split; [exact Hall|]. split; [exact Hhome|]. split; [reflexivity|].
  exact (readFile_denies_secret_directories rt Fs.empty hsegs pre post (u ".ssh")
           Hdir Hh Hpost Hall Hhome).
Defined.

Lemma segMatch_star (seg : str) : Read.segMatch [42%N] seg = true.
Proof.
  induction seg as [|c seg IH]; [done|].
  cbn [Read.segMatch N.eqb Pos.eqb] in *. cbn [orb]. exact IH.
Qed.

Lemma segMatch_same (c : char) (glob seg : str) :
  c <> 42%N -> Read.segMatch (c :: glob) (c :: seg) = Read.segMatch glob seg.
Proof.
  intros Hc. cbn [Read.segMatch].
  destruct (N.eqb_spec c 42) as [|_]; [done|]. by rewrite N.eqb_refl.
Qed.

Lemma segMatch_env (suffix : str) :
  Read.segMatch (u ".env*") (u ".env" ++ suffix) = true.
Proof.
  change (u ".env*") with (46%N :: 101%N :: 110%N :: 118%N :: [42%N]).
  change (u ".env" ++ suffix) with (46%N :: 101%N :: 110%N :: 118%N :: suffix).
  rewrite !segMatch_same by done. apply segMatch_star.
Qed.

(** X24. The read tool refuses every file of the home directory, at any
    depth, whose name begins with [.env]. *)
Theorem readFile_denies_env_files
    (rt : Runtime) (st : FsState) (hsegs pre : list str) (suffix : str) :
  hsegs <> [] -> Forall plainSegment (hsegs ++ pre) -> Path.slash ∉ suffix ->
  homedir rt = absolutePath hsegs ->
  let filePath := absolutePath (hsegs ++ pre ++ [u ".env" ++ suffix]) in
  Read.readFile rt st filePath
  = Throw (u "Access denied: " ++ filePath ++ u " is in the restricted path list.").
Proof.
  intros Hh Hall Hsuffix Hhome filePath.
  apply Forall_app in Hall as [Hhall Hpre].
  assert (plainSegment (u ".env" ++ suffix)) as Hplain.
  { split.
    - rewrite not_elem_of_app. split; [by apply not_elem_forallb|done].
    - unfold ordinarySegment, Path.dot, Path.dotdot.
      repeat split; intros Heq; apply (f_equal length) in Heq;
        rewrite length_app in Heq; simpl in Heq; lia. }
  assert (Forall plainSegment (hsegs ++ pre ++ [u ".env" ++ suffix])) as Hall'.
  { rewrite !Forall_app. split; [done|]. split; [done|].
    constructor; [done|constructor]. }
  assert (Read.isDenied rt filePath = true) as Hdenied.
  { unfold filePath. rewrite isDenied_below_home; [|done|by destruct pre|done|done].
    unfold Read.DENY_LIST. cbn [existsb].
    change (map Read.parsePart (split (u "**/.env*") [Path.slash]))
      with [Read.GlobStar; Read.Segment (u ".env*")].
    rewrite (matchOne_globstar_skip (Read.Segment (u ".env*")) [] pre
               [u ".env" ++ suffix]); [by rewrite !orb_true_r|done|done|].
    cbn [Read.matchOne]. by rewrite segMatch_env. }
  unfold Read.readFile.
  subst filePath. rewrite resolve_absolutePath; [|by destruct hsegs|exact Hall'].
  by rewrite Hdenied.
Qed.

Lemma readFile_denies_env_files_witness :
  let hsegs := [u "home"; u "user"] in
  let pre := [u "projects"; u "shop"] in
  let rt := {| processCwd := u "/srv/app"; homedir := u "/home/user";
               execSync := execSync Samples.posix;
               toLowerCase := toLowerCase Samples.posix;
               localeCompare := localeCompare Samples.posix |} in
  let filePath := absolutePath (hsegs ++ pre ++ [u ".env" ++ u ".production"]) in
  hsegs <> []
  /\ Forall plainSegment (hsegs ++ pre)
  /\ (Path.slash ∉ u ".production")
  /\ homedir rt = absolutePath hsegs
  /\ filePath = u "/home/user/projects/shop/.env.production"
  /\ Read.readFile rt Fs.empty filePath
     = Throw (u "Access denied: " ++ filePath ++ u " is in the restricted path list.").
Proof.
  intros hsegs pre rt filePath.
  assert (hsegs <> []) as Hh by done.
  assert (Forall plainSegment (hsegs ++ pre)) as Hall.
  { repeat constructor; apply plainSegment_sample; (reflexivity || (simpl; lia)). }
  assert (Path.slash ∉ u ".production") as Hsuffix by (by apply not_elem_forallb).
  assert (homedir rt = absolutePath hsegs) as Hhome by reflexivity.
  split; [exact Hh|]. split; [exact Hall|]. split; [exact Hsuffix|].
  split; [exact Hhome|]. split; [reflexivity|].
  exact (readFile_denies_env_files rt Fs.empty hsegs pre (u ".production")
           Hh Hall Hsuffix Hhome).
Defined.

(** ** Preview and patch of an edit *)

(** X25. [applyEdit] never succeeds where [computeEditDiff] reports an
    error, and where it succeeds the diff it returns is the one
    [computeEditDiff] showed; the file system is the same for both calls. *)
Theorem applyEdit_agrees_with_preview
    (rt : Runtime) (filePath oldString newString : str) (st : FsState) :
  (forall message diff st',
     Edit.applyEdit rt filePath oldString newString st
       = (Edit.EditResult message diff, st') ->
     Edit.computeEditDiff rt st filePath oldString newString = inl diff)
  /\ (forall error,
        Edit.computeEditDiff rt st filePath oldString newString = inr error ->
        exists error',
          Edit.applyEdit rt filePath oldString newString st = (Edit.EditError error', st)).
Proof.
  unfold Edit.applyEdit, Edit.computeEditDiff.
  destruct (files st !! Path.resolve (processCwd rt) [filePath]) as [content|].
  2: { split; [intros ? ? ? H; discriminate|]. intros error _. by eexists. }
  destruct (Z.eqb_spec (Edit.occurrences content oldString) 1) as [H1|H1]; cbn [negb].
  - rewrite H1. change (1 =? 0)%Z with false. change (1 <? 1)%Z with false. cbv iota.
    split; [|intros error H; discriminate].
    intros message diff st' H. by injection H as _ <- _.
  - split; [intros ? ? ? H; discriminate|]. intros error _. by eexists.
Qed.

(** ** The session store and the working directory *)

(** X26. The session store knows a working directory by its slug only: two
    directories whose slugs are equal, as are the slugs of [/work/my/app]
    and [/work/my-app], list, load, resolve and delete the same
    sessions. *)
Theorem sessions_shared_by_equal_slugs
    (rt : Runtime) (st : FsState) (cwd cwd' sid : str) :
  Sessions.cwdSlug cwd = Sessions.cwdSlug cwd' ->
  Sessions.listSessions rt st cwd = Sessions.listSessions rt st cwd'
  /\ Sessions.loadSession rt st cwd sid = Sessions.loadSession rt st cwd' sid
  /\ Sessions.resolveSessionId rt st cwd sid = Sessions.resolveSessionId rt st cwd' sid
  /\ Sessions.deleteSession rt cwd sid st = Sessions.deleteSession rt cwd' sid st.
Proof.
  intros Hslug.
  assert (Sessions.projectDir rt cwd = Sessions.projectDir rt cwd') as Hdir
    by (unfold Sessions.projectDir; by rewrite Hslug).
  assert (Sessions.readIndex rt st cwd = Sessions.readIndex rt st cwd') as Hindex
    by (unfold Sessions.readIndex, Sessions.indexPath; by rewrite Hdir).
  assert (Sessions.listSessions rt st cwd = Sessions.listSessions rt st cwd') as Hlist
    by (unfold Sessions.listSessions; by rewrite Hindex).
  split; [exact Hlist|]. split; [|split].
  - unfold Sessions.loadSession, Sessions.sessionPath. by rewrite Hdir.
  - unfold Sessions.resolveSessionId. by rewrite Hlist.
  - unfold Sessions.deleteSession, Sessions.writeIndex, Sessions.ensureDir,
      Sessions.indexPath, Sessions.sessionPath.
    by rewrite Hindex, Hdir.
Qed.

Lemma sessions_shared_by_equal_slugs_witness :
  let cwd := u "/work/my/app" in
  let cwd' := u "/work/my-app" in
  let sid := u "abcdefgh-1111" in
  let st := snd (Sessions.saveSession Samples.posix (u "2026-01-01T00:00:00.000Z") cwd
                   sid [Samples.userMessage] Fs.empty) in
  Sessions.cwdSlug cwd = Sessions.cwdSlug cwd'
  /\ Sessions.loadSession Samples.posix st cwd' sid = [Samples.userMessage]
  /\ Sessions.listSessions Samples.posix st cwd = Sessions.listSessions Samples.posix st cwd'
  /\ Sessions.loadSession Samples.posix st cwd sid
     = Sessions.loadSession Samples.posix st cwd' sid
  /\ Sessions.resolveSessionId Samples.posix st cwd sid
     = Sessions.resolveSessionId Samples.posix st cwd' sid
  /\ Sessions.deleteSession Samples.posix cwd sid st
     = Sessions.deleteSession Samples.posix cwd' sid st.
Proof.
  intros cwd cwd' sid st.
  assert (Sessions.cwdSlug cwd = Sessions.cwdSlug cwd') as Hslug by reflexivity.
  split; [exact Hslug|]. split; [vm_compute; reflexivity|].
  exact (sessions_shared_by_equal_slugs Samples.posix st cwd cwd' sid Hslug).
Defined.

(** ** The branch recorded with a session *)

Lemma trimStart_head (c : N) (s : str) :
  isWhiteSpace c = false -> trimStart (c :: s) = c :: s.
Proof. intros H. cbn [trimStart]. by rewrite H. Qed.

(** A text that begins and ends with code units other than white space,
    followed by a line feed, is trimmed to itself. *)
Lemma trim_line (first last : N) (middle : str) :
  isWhiteSpace first = false -> isWhiteSpace last = false ->
  trim ((first :: middle ++ [last]) ++ [10%N]) = first :: middle ++ [last].
Proof.
  intros Hfirst Hlast. unfold trim.
  cbn [app]. rewrite trimStart_head by done.
  change (first :: (middle ++ [last]) ++ [10%N])
    with ((first :: middle ++ [last]) ++ [10%N]).
  rewrite rev_app_distr. cbn [rev app trimStart].
  change (isWhiteSpace 10%N) with true. cbv iota.
  change (first :: middle ++ [last]) with ((first :: middle) ++ [last]).
  rewrite rev_app_distr. cbn [rev app]. rewrite trimStart_head by done.
  change (last :: rev middle ++ [first]) with ([last] ++ (rev middle ++ [first])).
  rewrite rev_app_distr, rev_app_distr, rev_involutive. done.
Qed.

(** X27. The branch [saveSession] records: when [.git/HEAD] of the working
    directory holds [ref: refs/heads/<branch>] and a line feed,
    [readGitBranch] is the branch; when it holds anything else that begins
    and ends with a code unit other than white space, such as a commit
    hash, [readGitBranch] is the first eight code units of it. *)
Theorem readGitBranch_of_HEAD
    (st : FsState) (cwd : str) (first last : N) (middle : str) :
  isWhiteSpace first = false -> isWhiteSpace last = false ->
  files st !! Path.join [cwd; u ".git"; u "HEAD"]
    = Some ((first :: middle ++ [last]) ++ [10%N]) ->
  (forall branch,
     first :: middle ++ [last] = u "ref: refs/heads/" ++ branch ->
     Sessions.readGitBranch st cwd = branch)
  /\ (startsWith (first :: middle ++ [last]) (u "ref: refs/heads/") = false ->
      Sessions.readGitBranch st cwd = take 8 (first :: middle ++ [last])).
Proof.
  intros Hfirst Hlast Hfile. unfold Sessions.readGitBranch, Fs.readFileSync.
  rewrite Hfile. cbv zeta. rewrite trim_line by done. split.
  - intros branch ->. rewrite startsWith_prefix. by rewrite drop_app_length.
  - by intros ->.
Qed.

Lemma readGitBranch_of_HEAD_witness :
  let head := u "ref: refs/heads/feature/login" in
  let st := {| files := {[ u "/home/u/app/.git/HEAD" := head ++ [10%N] ]};
               journal := [] |} in
  isWhiteSpace 114%N = false /\ isWhiteSpace 110%N = false
  /\ files st !! Path.join [Samples.appDir; u ".git"; u "HEAD"]
     = Some ((114%N :: u "ef: refs/heads/feature/logi" ++ [110%N]) ++ [10%N])
  /\ (forall branch,
        114%N :: u "ef: refs/heads/feature/logi" ++ [110%N]
          = u "ref: refs/heads/" ++ branch ->
        Sessions.readGitBranch st Samples.appDir = branch)
  /\ (startsWith (114%N :: u "ef: refs/heads/feature/logi" ++ [110%N])
        (u "ref: refs/heads/") = false ->
      Sessions.readGitBranch st Samples.appDir
      = take 8 (114%N :: u "ef: refs/heads/feature/logi" ++ [110%N])).
Proof.
  intros head st.
  assert (files st !! Path.join [Samples.appDir; u ".git"; u "HEAD"]
          = Some ((114%N :: u "ef: refs/heads/feature/logi" ++ [110%N]) ++ [10%N]))
    as Hfile by (vm_compute; reflexivity).
  split; [reflexivity|]. split; [reflexivity|]. split; [exact Hfile|].
  exact (readGitBranch_of_HEAD st Samples.appDir 114%N 110%N
           (u "ef: refs/heads/feature/logi") eq_refl eq_refl Hfile).
Defined.
